(** * Shrimp Pantheon: [scoreboard.js] and [scripts.js]

    A shallow embedding of the scoreboard (the CSV parser, the score tally,
    the ranker, the split resolver, the Hall of Fame builder and the page
    that shows them) and of the site scripts (the navigation menu, the
    passphrase of the schedule, the next Saturday), with the properties the
    specification states about the aggregation pipeline and further
    properties read off the code.

    Conventions of the embedding:
    - a JavaScript string is the list of its UTF-16 code units ([list N]);
    - a JavaScript number is an IEEE 754 binary64 value, Rocq's primitive
      [float], whose operations are the hardware ones and whose meaning is
      given by [SpecFloat] through the axioms of [FloatAxioms];
    - a [Map] is the list of its entries in insertion order (the order in
      which [Array.from(map.entries())] lists them), keys without repeats;
    - the module constants ([SCOREBOARD_FIRST_YEAR], [SCOREBOARD_DATA_FOLDER],
      [PLAYER_ALIASES]) are gathered in a record of globals which the
      functions that read them take as an argument;
    - what a function reads and writes in the document is a record of the
      elements concerned (their text, their classes, their rows), [None]
      standing for an element the page does not have;
    - what the platform decides is a parameter: the network and the order in
      which promises settle (a [World]), the SHA-256 digest, the offset of
      local time; an event handler is a step function on the state of the
      page, and what can happen on the page is a list of events. *)

From Stdlib Require Import ZArith NArith List Bool Lia Ascii String.
From Stdlib Require Import Floats Permutation Sorted DecimalString DecimalPos DecimalZ.
From Stdlib Require HexadecimalString.
From stdpp Require Import base option list sorting gmap.

Local Open Scope Z_scope.

(* ------------------------------------------------------------------ *)
(** ** Strings and numbers *)
(* ------------------------------------------------------------------ *)

(** A string value: its UTF-16 code units. *)
Abbreviation jsstring := (list N).

(** The code units of a literal written in ASCII. *)
Definition str (s : string) : jsstring :=
  N_of_ascii <$> list_ascii_of_string s.

(** A number value. Integer-valued quantities that never leave the integers
    (years, months, split numbers, array indices, ranks) are kept in [Z]. *)
Abbreviation number := float.

Definition LF : N := 10.
Definition CR : N := 13.
Definition COMMA : N := 44.
Definition MINUS : N := 45.
Definition DOT : N := 46.
Definition SLASH : N := 47.

(** What [String.prototype.trim] strips: the WhiteSpace and LineTerminator
    code points of ECMAScript (TAB, LF, VT, FF, CR, SP, NBSP, U+1680,
    U+2000..U+200A, U+2028, U+2029, U+202F, U+205F, U+3000, U+FEFF). *)
Definition isWhiteSpace (c : N) : bool :=
  ((9 <=? c) && (c <=? 13) || (c =? 32) || (c =? 160) || (c =? 5760)
   || (8192 <=? c) && (c <=? 8202) || (c =? 8232) || (c =? 8233)
   || (c =? 8239) || (c =? 8287) || (c =? 12288) || (c =? 65279))%N.

Fixpoint dropWhile {A} (f : A → bool) (l : list A) : list A :=
  match l with
  | [] => []
  | x :: l' => if f x then dropWhile f l' else l
  end.

Fixpoint takeWhile {A} (f : A → bool) (l : list A) : list A :=
  match l with
  | [] => []
  | x :: l' => if f x then x :: takeWhile f l' else []
  end.

Definition trimStart (s : jsstring) : jsstring := dropWhile isWhiteSpace s.
Definition trimEnd (s : jsstring) : jsstring := rev (dropWhile isWhiteSpace (rev s)).

(** [s.trim()] *)
Definition trim (s : jsstring) : jsstring := trimEnd (trimStart s).

(** [!s] for a string [s]: only the empty string is falsy. *)
Definition isEmpty (s : jsstring) : bool :=
  match s with [] => true | _ => false end.

(** [s.split(/\r?\n/)]: the pieces between the separators, a separator being
    a line feed together with the carriage return right before it, if any.
    The pattern never matches the empty string, so the pieces are cut at
    every match, scanning from the left; the empty string gives one empty
    piece. *)
Fixpoint splitLines (s : jsstring) : list jsstring :=
  match s with
  | [] => [[]]
  | c :: s' =>
      let continue_ :=
        match splitLines s' with
        | piece :: pieces => (c :: piece) :: pieces
        | [] => [[c]]
        end in
      if (c =? LF)%N then [] :: splitLines s'
      else
        match s' with
        | c2 :: s'' =>
            if ((c =? CR) && (c2 =? LF))%N then [] :: splitLines s'' else continue_
        | [] => continue_
        end
  end.

(** [s.indexOf(c, from)] for a one-unit search string [c] and [0 ≤ from]:
    the least index [≥ from] that holds [c], or [-1]. *)
Fixpoint indexOfFrom (c : N) (s : jsstring) (pos : Z) : Z :=
  match s with
  | [] => -1
  | x :: s' => if (x =? c)%N then pos else indexOfFrom c s' (pos + 1)
  end.

Definition indexOf (s : jsstring) (c : N) (from : Z) : Z :=
  let k := Z.to_nat (Z.min (Z.max from 0) (Z.of_nat (length s))) in
  indexOfFrom c (drop k s) (Z.of_nat k).

(** [s.slice(from, to)], negative indices counting from the end. *)
Definition slice (s : jsstring) (from to : Z) : jsstring :=
  let len := Z.of_nat (length s) in
  let clamp i := if i <? 0 then Z.max (len + i) 0 else Z.min i len in
  let a := clamp from in
  let b := clamp to in
  take (Z.to_nat (b - a)) (drop (Z.to_nat a) s).

(** *** The pattern [/-?\d+(\.\d+)?/] *)

Definition isDigit (c : N) : bool := ((48 <=? c) && (c <=? 57))%N.

(** [\d+(\.\d+)?] anchored at the head of [s]; both repetitions are greedy,
    and the group is dropped when no digit follows the point. *)
Definition matchDigits (s : jsstring) : option jsstring :=
  match takeWhile isDigit s with
  | [] => None
  | ds =>
      match dropWhile isDigit s with
      | c :: r =>
          if (c =? DOT)%N then
            match takeWhile isDigit r with
            | [] => Some ds
            | fs => Some (ds ++ DOT :: fs)
            end
          else Some ds
      | [] => Some ds
      end
  end.

(** The whole pattern anchored at the head of [s]: the sign is tried first,
    and given up when the rest does not match after it. *)
Definition matchNumberAt (s : jsstring) : option jsstring :=
  match s with
  | c :: r =>
      if (c =? MINUS)%N then
        match matchDigits r with
        | Some t => Some (MINUS :: t)
        | None => matchDigits s
        end
      else matchDigits s
  | [] => None
  end.

(** [s.match(/-?\d+(\.\d+)?/)]: element 0 of the result, the match at the
    leftmost index where the pattern matches; [None] stands for [null]. *)
Fixpoint matchNumber (s : jsstring) : option jsstring :=
  match matchNumberAt s with
  | Some t => Some t
  | None =>
      match s with
      | [] => None
      | _ :: s' => matchNumber s'
      end
  end.

(** *** [Number(s)] on decimal literals

    [Number] is applied to matches of the pattern only, so it is modelled on
    the literals [-?digits(.digits)?]: the number value of the rational
    [±M / 10^k] ([M] the digits read as one integer, [k] the count of digits
    after the point), rounded to nearest, ties to even, with the sign kept on
    a zero; any other string gives [NaN] here. *)

Definition digitsValue (ds : jsstring) : Z :=
  fold_left (fun acc c => 10 * acc + (Z.of_N c - 48)) ds 0.

(** [±m / d] for [0 ≤ m], [0 < d], correctly rounded to binary64. *)
Definition roundRatio (neg : bool) (m d : Z) : spec_float :=
  match m with
  | Z0 => S754_zero neg
  | _ =>
      let '(mz, ez, lz) := SFdiv_core_binary prec emax m 0 d 0 in
      binary_round_aux prec emax neg mz ez lz
  end.

Definition allDigits (s : jsstring) : bool :=
  negb (isEmpty s) && forallb isDigit s.

Definition NumberOfUnsigned (neg : bool) (s : jsstring) : number :=
  let ds := takeWhile isDigit s in
  match dropWhile isDigit s with
  | [] =>
      if allDigits ds then SF2Prim (roundRatio neg (digitsValue ds) 1) else nan
  | c :: fs =>
      if (c =? DOT)%N && allDigits ds && allDigits fs then
        SF2Prim (roundRatio neg (digitsValue (ds ++ fs)) (10 ^ Z.of_nat (length fs)))
      else nan
  end.

Definition Number (s : jsstring) : number :=
  match s with
  | c :: r => if (c =? MINUS)%N then NumberOfUnsigned true r else NumberOfUnsigned false s
  | [] => nan
  end.

(* ------------------------------------------------------------------ *)
(** ** The module constants *)
(* ------------------------------------------------------------------ *)

Record Globals := mkGlobals {
  SCOREBOARD_FIRST_YEAR : Z;
  SCOREBOARD_DATA_FOLDER : jsstring;
  PLAYER_ALIASES : gmap jsstring jsstring
}.

(** The values the source gives them. *)
Definition globals : Globals :=
  {| SCOREBOARD_FIRST_YEAR := 2024;
     SCOREBOARD_DATA_FOLDER := str "data";
     PLAYER_ALIASES :=
       <[str "Alex E." := str "Shrimp"]>
         (<[str "Nainoa" := str "Rat"]>
            (<[str "Isabelle" := str "Snake"]> ∅)) |}.

(** What a property read on an object literal can give: a string of the
    literal's own, or something inherited from [Object.prototype]. *)
Inductive PropertyValue :=
  | VString (s : jsstring)
  | VInherited (name : jsstring).

Definition objectPrototypeKeys : list jsstring :=
  str <$>
    ["constructor"; "__proto__"; "hasOwnProperty"; "isPrototypeOf";
     "propertyIsEnumerable"; "toLocaleString"; "toString"; "valueOf";
     "__defineGetter__"; "__defineSetter__"; "__lookupGetter__";
     "__lookupSetter__"]%string.

(** [PLAYER_ALIASES[realName] || realName]: an alias that is the empty string
    is falsy, and so is a missing one; what [Object.prototype] provides is
    an object or a function, hence truthy. *)
Definition getDisplayName (G : Globals) (realName : jsstring) : PropertyValue :=
  match PLAYER_ALIASES G !! realName with
  | Some alias => if isEmpty alias then VString realName else VString alias
  | None =>
      if bool_decide (realName ∈ objectPrototypeKeys) then VInherited realName
      else VString realName
  end.

(* ------------------------------------------------------------------ *)
(** ** [Map] with string keys *)
(* ------------------------------------------------------------------ *)

(** The entries of a [Map], oldest insertion first. *)
Abbreviation JsMap := (list (jsstring * number)).

(** [map.get(k)]: [None] stands for [undefined]. *)
Fixpoint map_get (m : JsMap) (k : jsstring) : option number :=
  match m with
  | [] => None
  | (k', v) :: m' => if decide (k' = k) then Some v else map_get m' k
  end.

(** [map.set(k, v)]: an existing key keeps its place, a new key goes last. *)
Fixpoint map_set (m : JsMap) (k : jsstring) (v : number) : JsMap :=
  match m with
  | [] => [(k, v)]
  | (k', v') :: m' =>
      if decide (k' = k) then (k', v) :: m' else (k', v') :: map_set m' k v
  end.

Definition map_keys (m : JsMap) : list jsstring := fst <$> m.

(* ------------------------------------------------------------------ *)
(** ** Score records and the tally *)
(* ------------------------------------------------------------------ *)

Record ScoreRecord := mkScore { player : jsstring; score : number }.

(** The callback of [records.forEach] in [tallyScores]. *)
Definition tallyStep (totals : JsMap) (r : ScoreRecord) : JsMap :=
  let previous := default 0%float (map_get totals (player r)) in
  map_set totals (player r) (previous + score r)%float.

Definition tallyScores (records : list ScoreRecord) : JsMap :=
  fold_left tallyStep records [].

(** The scores of the records of one player, in input order. *)
Definition scoresOf (p : jsstring) (records : list ScoreRecord) : list number :=
  score <$> filter (λ r, player r = p) records.

(** Left-to-right floating-point sum. *)
Definition sumFrom (z : number) (xs : list number) : number :=
  fold_left PrimFloat.add xs z.


(* ------------------------------------------------------------------ *)
(** ** The CSV parser *)
(* ------------------------------------------------------------------ *)

(** The body of the loop of [parseCsv], on [lines[i]]: the record the line
    contributes, or [None] where the body runs into a [continue]. *)
Definition parseLine (raw : jsstring) : option ScoreRecord :=
  let line := trim raw in
  if isEmpty line then None else
  let firstComma := indexOf line COMMA 0 in
  if firstComma =? -1 then None else
  let secondComma := indexOf line COMMA (firstComma + 1) in
  if secondComma =? -1 then None else
  let playerPart := trim (slice line 0 firstComma) in
  let scorePart := trim (slice line (firstComma + 1) secondComma) in
  if isEmpty playerPart then None else
  match matchNumber scorePart with
  | None => None
  | Some match0 =>
      let score := Number match0 in
      if is_nan score then None
      else Some {| player := playerPart; score := score |}
  end.

(** [records.push(...)] when the line survives. *)
Definition parseStep (records : list ScoreRecord) (raw : jsstring) : list ScoreRecord :=
  match parseLine raw with
  | Some r => records ++ [r]
  | None => records
  end.

Definition parseCsv (text : jsstring) : list ScoreRecord :=
  let lines := splitLines (trim text) in
  if (length lines <=? 1)%nat then []
  else fold_left parseStep (drop 1 lines) [].

(* ------------------------------------------------------------------ *)
(** ** The split resolver *)
(* ------------------------------------------------------------------ *)

(** A valid [Date], in local time: the calendar year, the month counted from
    0 for January, and the day of the month. The code calls the first two
    accessors only. *)
Record Date := mkDate { getFullYear : Z; getMonth : Z; getDate : Z }.

Module SplitInfo.
Record t := mk { year : Z; split : Z }.
End SplitInfo.

Definition getCurrentSplitInfo (today : Date) : SplitInfo.t :=
  let year := getFullYear today in
  let month := getMonth today + 1 in
  let split := if 7 <=? month then 2 else 1 in
  {| SplitInfo.year := year; SplitInfo.split := split |}.

(** The decimal digits of an integer, as a template literal prints it. *)
Definition numToString (z : Z) : jsstring :=
  str (NilZero.string_of_int (Z.to_int z)).

(** [s.replace(/\\/+$/, "")] *)
Definition stripTrailingSlashes (s : jsstring) : jsstring :=
  rev (dropWhile (fun c => (c =? SLASH)%N) (rev s)).

Definition buildCsvPath (G : Globals) (year split : Z) : jsstring :=
  let trimmed := stripTrailingSlashes (SCOREBOARD_DATA_FOLDER G) in
  let filename := numToString year ++ str "_Split" ++ numToString split ++ str ".csv" in
  if isEmpty trimmed then filename else trimmed ++ SLASH :: filename.

(* ------------------------------------------------------------------ *)
(** ** The ranker *)
(* ------------------------------------------------------------------ *)

Module Entry.
Record t := mk { player : jsstring; total : number }.
End Entry.

Module Ranked.
Record t := mk { rank : Z; player : jsstring; total : number }.
End Ranked.

(** What [Array.prototype.sort] makes of the value its comparator returns:
    negative, positive, or neither (zero and [NaN] alike). *)
Definition sortSign (v : number) : comparison :=
  if (v <? 0)%float then Lt else if (0 <? v)%float then Gt else Eq.

(** [Array.prototype.sort]: the sort is stable, and under a consistent
    comparator its result is the one stable sorted arrangement, whatever the
    algorithm; the model is the insertion sort that builds that arrangement:
    each element, in array order, goes before the first one it is strictly
    smaller than. *)
Fixpoint sortInsert {A} (cmp : A → A → number) (x : A) (l : list A) : list A :=
  match l with
  | [] => [x]
  | y :: l' =>
      match sortSign (cmp x y) with
      | Lt => x :: l
      | _ => y :: sortInsert cmp x l'
      end
  end.

Definition arraySort {A} (cmp : A → A → number) (l : list A) : list A :=
  fold_left (fun sorted x => sortInsert cmp x sorted) l [].

(** Code-unit order on strings, as a comparator: one of the collations a host
    may give [localeCompare]. *)
Fixpoint codeUnitCompare (a b : jsstring) : number :=
  match a, b with
  | [], [] => 0%float
  | [], _ :: _ => (-1)%float
  | _ :: _, [] => 1%float
  | x :: a', y :: b' =>
      match (x ?= y)%N with
      | Lt => (-1)%float
      | Gt => 1%float
      | Eq => codeUnitCompare a' b'
      end
  end.

(* ------------------------------------------------------------------ *)
(** ** Promises, and the network *)
(* ------------------------------------------------------------------ *)

(** What became of a promise. *)
Inductive Settled (A : Type) :=
  | Fulfilled (a : A)
  | Rejected
  | Pending.
Arguments Fulfilled {A} a.
Arguments Rejected {A}.
Arguments Pending {A}.

(** A [Response]: [text] is [None] when reading the body fails. *)
Record Response := mkResponse { ok : bool; httpStatus : Z; text : option jsstring }.

(** The world outside the page: what the network answers to a GET of each
    URL ([None]: the request itself fails), and, for [n] promises started
    together, the order in which they settle. *)
Record World := mkWorld {
  network : jsstring → option Response;
  settleOrder : nat → list nat
}.

(** An asynchronous computation: it reads the world, appends the URLs it
    requests to the log of requests, and settles. *)
Definition Async (A : Type) : Type :=
  World → list jsstring → Settled A * list jsstring.

Definition ret {A} (a : A) : Async A := fun _ log => (Fulfilled a, log).

(** [x ← m; k] reads [const x = await m; k]. *)
Definition bind {A B} (k : A → Async B) (m : Async A) : Async B :=
  fun w log =>
    match m w log with
    | (Fulfilled a, log') => k a w log'
    | (Rejected, log') => (Rejected, log')
    | (Pending, log') => (Pending, log')
    end.

#[export] Instance async_ret : MRet Async := @ret.
#[export] Instance async_bind : MBind Async := @bind.

(** [try { m } catch (err) { handler }] *)
Definition tryCatch {A} (m handler : Async A) : Async A :=
  fun w log =>
    match m w log with
    | (Rejected, log') => handler w log'
    | r => r
    end.

(** [fetch(url, { cache: "no-cache" })] *)
Definition fetch (url : jsstring) : Async Response :=
  fun w log =>
    (match network w url with Some r => Fulfilled r | None => Rejected end,
     log ++ [url]).

(** [response.text()] *)
Definition responseText (r : Response) : Async jsstring :=
  fun _ log =>
    (match text r with Some t => Fulfilled t | None => Rejected end, log).

(** The promises of [tasks] are created in array order, each running up to
    its first [await], so their requests are logged in that order. *)
Fixpoint startAll {A} (tasks : list (Async A)) (w : World) (log : list jsstring)
  : list (Settled A) * list jsstring :=
  match tasks with
  | [] => ([], log)
  | t :: tasks' =>
      let '(r, log') := t w log in
      let '(rs, log'') := startAll tasks' w log' in
      (r :: rs, log'')
  end.

(** The promises settle one by one, in the order [order] lists their
    indices: a fulfilled one stores its value in the slot of its own index,
    a rejected one rejects the whole. *)
Fixpoint settleAll {A} (results : list (Settled A)) (order : list nat)
    (values : list (option A)) : Settled (list (option A)) :=
  match order with
  | [] => Fulfilled values
  | i :: order' =>
      match results !! i with
      | Some (Fulfilled a) => settleAll results order' (<[i := Some a]> values)
      | Some Rejected => Rejected
      | Some Pending | None => settleAll results order' values
      end
  end.

(** [Promise.all(tasks)]: fulfilled with the values in the order of [tasks]
    once every slot is filled. *)
Definition promiseAll {A} (tasks : list (Async A)) : Async (list A) :=
  fun w log =>
    let '(results, log') := startAll tasks w log in
    let n := length tasks in
    match settleAll results (settleOrder w n) (replicate n None) with
    | Fulfilled values =>
        (match mapM id values with
         | Some vs => Fulfilled vs
         | None => Pending
         end, log')
    | Rejected => (Rejected, log')
    | Pending => (Pending, log')
    end.

(* ------------------------------------------------------------------ *)
(** ** Ranking, the main table and the Hall of Fame *)
(* ------------------------------------------------------------------ *)

Inductive Status := InProgress | OffSplit | Completed.

(** [{ year, split, status }], with [players] when the split is completed. *)
Record SplitSummary := mkSummary {
  summaryYear : Z;
  summarySplit : Z;
  status : Status;
  players : option (list Ranked.t)
}.

(** What ends up in the Hall of Fame container: a paragraph with a message,
    or one entry per summary, in the order they were appended. *)
Inductive HofContent :=
  | HofMessage (message : jsstring)
  | HofEntries (entries : list SplitSummary).

(** A row of the main table: the rank, the name cell and the score. *)
Record TableRow := mkRow {
  rankCell : Z;
  nameCell : PropertyValue;
  scoreCell : number
}.

(** The status line and the rows of the main table. *)
Inductive MainTable :=
  | MainError (message : jsstring)
  | MainEmpty (message : jsstring)
  | MainLoaded (message : jsstring) (rows : list TableRow).

(** The years [first, first + 1, ...] up to [last], as the outer loop of
    [buildHallOfFame] visits them. *)
Definition yearsUpTo (first last : Z) : list Z :=
  seqZ first (last - first + 1).

Section Host.

(** [a.localeCompare(b)], the collation of the host. *)
Variable localeCompare : jsstring → jsstring → number.

(** The comparator handed to [entries.sort]. *)
Definition compareEntries (a b : Entry.t) : number :=
  if negb (Entry.total b =? Entry.total a)%float
  then (Entry.total b - Entry.total a)%float
  else localeCompare (Entry.player a) (Entry.player b).

Definition createRankedArray (totalsMap : JsMap) : list Ranked.t :=
  let entries :=
    (λ '(player, total), {| Entry.player := player; Entry.total := total |})
      <$> totalsMap in
  let entries := arraySort compareEntries entries in
  imap (fun index entry =>
          {| Ranked.rank := Z.of_nat index + 1;
             Ranked.player := Entry.player entry;
             Ranked.total := Entry.total entry |})
       entries.

Definition renderMainTableRows (G : Globals) (ranked : list Ranked.t) : list TableRow :=
  (λ row, {| rankCell := Ranked.rank row;
             nameCell := getDisplayName G (Ranked.player row);
             scoreCell := Ranked.total row |})
    <$> ranked.

Definition loadSplitIntoMainTable (G : Globals) (csvPath : jsstring) : Async MainTable :=
  tryCatch
    (response ← fetch csvPath;
     if negb (ok response) then
       ret (MainError (str "Unable to load scores for this split. Please check that the CSV file exists."))
     else
       text ← responseText response;
       let records := parseCsv text in
       if (length records =? 0)%nat then
         ret (MainEmpty (str "No scores recorded for this split yet."))
       else
         let totalsMap := tallyScores records in
         let ranked := createRankedArray totalsMap in
         ret (MainLoaded (str "Scores loaded from " ++ csvPath ++ str ".")
                         (renderMainTableRows G ranked)))
    (ret (MainError (str "Unable to load scores for this split."))).

Definition summariseSplitForHallOfFame (G : Globals) (year split : Z)
    (currentInfo : SplitInfo.t) : Async SplitSummary :=
  let isCurrentSplit :=
    (year =? SplitInfo.year currentInfo) && (split =? SplitInfo.split currentInfo) in
  if isCurrentSplit then ret (mkSummary year split InProgress None)
  else
    let csvPath := buildCsvPath G year split in
    tryCatch
      (response ← fetch csvPath;
       if negb (ok response) then ret (mkSummary year split OffSplit None)
       else
         text ← responseText response;
         let records := parseCsv text in
         if (length records =? 0)%nat then ret (mkSummary year split OffSplit None)
         else
           let totalsMap := tallyScores records in
           let ranked := createRankedArray totalsMap in
           if (length ranked =? 0)%nat then ret (mkSummary year split OffSplit None)
           else ret (mkSummary year split Completed (Some (take 2 ranked))))
      (ret (mkSummary year split OffSplit None)).

(** The two nested loops of [buildHallOfFame]: for each year, the splits 1
    and 2, those after the current split skipped. *)
Definition splitsToCheck (G : Globals) (currentInfo : SplitInfo.t) : list SplitInfo.t :=
  let currentYear := SplitInfo.year currentInfo in
  let currentSplit := SplitInfo.split currentInfo in
  fold_left
    (fun acc year =>
       fold_left
         (fun acc split =>
            if (currentYear <? year) || ((year =? currentYear) && (currentSplit <? split))
            then acc
            else acc ++ [SplitInfo.mk year split])
         [1; 2] acc)
    (yearsUpTo (SCOREBOARD_FIRST_YEAR G) currentYear) [].

Definition buildHallOfFame (G : Globals) (currentInfo : SplitInfo.t) : Async HofContent :=
  let splits := splitsToCheck G currentInfo in
  if (length splits =? 0)%nat then ret (HofMessage (str "No splits recorded yet."))
  else
    tryCatch
      (summaries ←
         promiseAll
           ((λ s, summariseSplitForHallOfFame G (SplitInfo.year s) (SplitInfo.split s) currentInfo)
              <$> splits);
       ret (HofEntries summaries))
      (ret (HofMessage (str "Unable to load Hall of Fame data."))).

End Host.

(* ------------------------------------------------------------------ *)
(** ** The scoreboard page *)
(* ------------------------------------------------------------------ *)

(** A row of the small table of a Hall of Fame entry: the text of the rank
    cell, the name cell, and the number whose [toString()] is the text of
    the score cell. *)
Record HofRow := mkHofRow {
  hofRankCell : jsstring;
  hofNameCell : PropertyValue;
  hofScoreCell : number
}.

(** The body of an entry: a small table, or a paragraph with a message. *)
Inductive HofBody :=
  | HofTable (rows : list HofRow)
  | HofStatus (message : jsstring).

Record HofEntry := mkHofEntry { hofTitle : jsstring; hofBody : HofBody }.

(** [renderHallOfFameEntry(summary)]: the title, and the table of the
    players when the status is "completed" and [summary.players?.length] is
    truthy, the message of the status otherwise. *)
Definition renderHallOfFameEntry (G : Globals) (summary : SplitSummary) : HofEntry :=
  let title :=
    numToString (summaryYear summary) ++ [32; 183; 32]%N ++ str "Split "
    ++ numToString (summarySplit summary) in
  let hasPlayers :=
    match players summary with
    | Some ps => negb (length ps =? 0)%nat
    | None => false
    end in
  let isCompleted := match status summary with Completed => true | _ => false end in
  let body :=
    if isCompleted && hasPlayers then
      HofTable
        ((λ p, {| hofRankCell := str "Rank " ++ numToString (Ranked.rank p);
                  hofNameCell := getDisplayName G (Ranked.player p);
                  hofScoreCell := Ranked.total p |})
           <$> default [] (players summary))
    else
      HofStatus (match status summary with
                 | InProgress => str "In progress"
                 | _ => str "Off split"
                 end) in
  {| hofTitle := title; hofBody := body |}.

(** What the Hall of Fame container shows. *)
Inductive HofDisplay :=
  | DisplayMessage (message : jsstring)
  | DisplayEntries (entries : list HofEntry).

(** The status line: its text, and whether it carries the class
    ["scoreboard-status--error"]. *)
Record StatusLine := mkStatusLine { statusText : jsstring; statusError : bool }.

(** The five elements [initScoreboardPage] looks up, [None] where
    [getElementById] finds nothing: the text of the year and of the split,
    the status line, the rows of the table body, and the content of the
    Hall of Fame container. *)
Record ScoreboardPage := mkPage {
  yearEl : option jsstring;
  splitEl : option jsstring;
  statusEl : option StatusLine;
  tbodyEl : option (list TableRow);
  hofContainer : option HofDisplay
}.

(** What [loadSplitIntoMainTable] leaves in the status line and in the table
    body once its promise is settled: an error changes the status line only,
    the rows that were there stay. *)
Definition showMainTable (result : Settled MainTable)
    (status : StatusLine) (tbody : list TableRow) : StatusLine * list TableRow :=
  match result with
  | Fulfilled (MainError m) => (mkStatusLine m true, tbody)
  | Fulfilled (MainEmpty m) => (mkStatusLine m false, [])
  | Fulfilled (MainLoaded m rows) => (mkStatusLine m false, rows)
  | Rejected | Pending => (status, tbody)
  end.

(** What [buildHallOfFame] leaves in the container: the message, or the
    entries rendered from the summaries, in their order. *)
Definition showHallOfFame (G : Globals) (result : Settled HofContent)
    (container : HofDisplay) : HofDisplay :=
  match result with
  | Fulfilled (HofMessage m) => DisplayMessage m
  | Fulfilled (HofEntries summaries) =>
      DisplayEntries (renderHallOfFameEntry G <$> summaries)
  | Rejected | Pending => container
  end.

Section Page.

Variable localeCompare : jsstring → jsstring → number.

(** [initScoreboardPage()], with the date [new Date()] gives: the page once
    the two loads it starts have settled, and the requests made. The two
    loads are started one after the other and not awaited; each runs up to
    its first [await], so the request of the main table is made first. *)
Definition initScoreboardPage (G : Globals) (today : Date) (page : ScoreboardPage)
    (w : World) (log : list jsstring) : ScoreboardPage * list jsstring :=
  match yearEl page, splitEl page, statusEl page, tbodyEl page, hofContainer page with
  | Some _, Some _, Some status, Some tbody, Some container =>
      let currentInfo := getCurrentSplitInfo today in
      let yearText := numToString (SplitInfo.year currentInfo) in
      let splitText := numToString (SplitInfo.split currentInfo) in
      let currentCsvPath :=
        buildCsvPath G (SplitInfo.year currentInfo) (SplitInfo.split currentInfo) in
      let status :=
        {| statusText := str "Loading scores from " ++ currentCsvPath ++ [8230%N];
           statusError := statusError status |} in
      let '(table, log) := loadSplitIntoMainTable localeCompare G currentCsvPath w log in
      let '(hof, log) := buildHallOfFame localeCompare G currentInfo w log in
      let '(status, tbody) := showMainTable table status tbody in
      ({| yearEl := Some yearText;
          splitEl := Some splitText;
          statusEl := Some status;
          tbodyEl := Some tbody;
          hofContainer := Some (showHallOfFame G hof container) |}, log)
  | _, _, _, _, _ => (page, log)
  end.

End Page.

(* ------------------------------------------------------------------ *)
(** ** [scripts.js]: class lists and the navigation menu *)
(* ------------------------------------------------------------------ *)

(** The tokens of a [classList], in order, none twice. *)
Abbreviation ClassList := (list jsstring).

Definition classList_contains (classes : ClassList) (token : jsstring) : bool :=
  bool_decide (token ∈ classes).

(** [classList.add(token)]: a token the list has stays where it is. *)
Definition classList_add (classes : ClassList) (token : jsstring) : ClassList :=
  if classList_contains classes token then classes else classes ++ [token].

Definition classList_remove (classes : ClassList) (token : jsstring) : ClassList :=
  filter (λ t, t ≠ token) classes.

(** The classes of the element [.main-nav], [None] when the page has no such
    element, and the classes of [document.body]. *)
Record NavPage := mkNavPage {
  navClasses : option ClassList;
  bodyClasses : ClassList
}.

Definition openNav (page : NavPage) : NavPage :=
  match navClasses page with
  | None => page
  | Some classes =>
      {| navClasses := Some (classList_add classes (str "nav-open"));
         bodyClasses := classList_add (bodyClasses page) (str "nav-menu-open") |}
  end.

Definition closeNav (page : NavPage) : NavPage :=
  match navClasses page with
  | None => page
  | Some classes =>
      {| navClasses := Some (classList_remove classes (str "nav-open"));
         bodyClasses := classList_remove (bodyClasses page) (str "nav-menu-open") |}
  end.

Definition toggleNav (page : NavPage) : NavPage :=
  match navClasses page with
  | None => page
  | Some classes =>
      if classList_contains classes (str "nav-open") then closeNav page
      else openNav page
  end.

(** A click on the toggle button, on the overlay, or on a link of the menu;
    the toggle button has its listener only when the menu exists. *)
Inductive NavClick := ToggleClick | OverlayClick | LinkClick.

Definition navClick (page : NavPage) (click : NavClick) : NavPage :=
  match click with
  | ToggleClick =>
      match navClasses page with
      | Some _ => toggleNav page
      | None => page
      end
  | OverlayClick => closeNav page
  | LinkClick => closeNav page
  end.

(* ------------------------------------------------------------------ *)
(** ** [scripts.js]: the passphrase of the schedule *)
(* ------------------------------------------------------------------ *)

Definition SCHEDULE_PASSWORD_HASH : jsstring :=
  str "8a8477fb99c9b7dba1ab060e3abda316db363538b3b8f2550ca605c2650dbbc2".

(** *** [TextEncoder.encode]: the UTF-8 bytes of a string *)

Definition isHighSurrogate (c : N) : bool := ((55296 <=? c) && (c <=? 56319))%N.
Definition isLowSurrogate (c : N) : bool := ((56320 <=? c) && (c <=? 57343))%N.

(** The code points of a string: a high surrogate and the low surrogate
    after it make one code point, a surrogate on its own is replaced by
    U+FFFD. *)
Fixpoint codePoints (s : jsstring) : list N :=
  match s with
  | [] => []
  | c :: r =>
      if isHighSurrogate c then
        match r with
        | d :: r' =>
            if isLowSurrogate d
            then (65536 + (c - 55296) * 1024 + (d - 56320))%N :: codePoints r'
            else 65533%N :: codePoints r
        | [] => [65533%N]
        end
      else if isLowSurrogate c then 65533%N :: codePoints r
      else c :: codePoints r
  end.

Definition utf8Bytes (cp : N) : list N :=
  (if cp <? 128 then [cp]
   else if cp <? 2048 then [192 + cp / 64; 128 + cp mod 64]
   else if cp <? 65536 then [224 + cp / 4096; 128 + (cp / 64) mod 64; 128 + cp mod 64]
   else [240 + cp / 262144; 128 + (cp / 4096) mod 64; 128 + (cp / 64) mod 64;
         128 + cp mod 64])%N.

Definition encode (text : jsstring) : list N := codePoints text ≫= utf8Bytes.

(** *** Hexadecimal digits *)

(** [n.toString(16)] for a non-negative integer. *)
Definition toString16 (n : N) : jsstring :=
  str (HexadecimalString.NilZero.string_of_uint (N.to_hex_uint n)).

(** [s.padStart(maxLength, fill)] *)
Definition padStart (s : jsstring) (maxLength : nat) (fill : jsstring) : jsstring :=
  if (maxLength <=? length s)%nat then s
  else if isEmpty fill then s
  else
    let fillLen := (maxLength - length s)%nat in
    take fillLen (concat (replicate fillLen fill)) ++ s.

(** [s.toLowerCase()] on strings of Basic Latin; the handler applies it to
    strings of hexadecimal digits only. *)
Definition toLowerCase (s : jsstring) : jsstring :=
  (λ c, if ((65 <=? c) && (c <=? 90))%N then (c + 32)%N else c) <$> s.

(** What is on the page of the schedule: the classes of the page element,
    the message with its classes, and the value of the input. *)
Record ScheduleDom := mkScheduleDom {
  pageClasses : ClassList;
  messageText : jsstring;
  messageClasses : ClassList;
  passwordValue : jsstring
}.

Section Crypto.

(** [crypto.subtle.digest("SHA-256", data)]: the bytes of the digest, or
    [None] when the promise is rejected or the call throws. *)
Variable digest : list N → option (list Byte.byte).

(** [hashStringSHA256(text)]: the promise is fulfilled with the digest in
    hexadecimal, two digits a byte; [None] stands for a rejection. *)
Definition hashStringSHA256 (text : jsstring) : option jsstring :=
  let data := encode text in
  hashArray ← digest data;
  Some (concat ((λ b, padStart (toString16 (Byte.to_N b)) 2 (str "0")) <$> hashArray)).

(** The submit handler up to its [await]: the message is cleared, and the
    trimmed value of the input is either refused as empty or sent to be
    hashed ([Some password]). *)
Definition submitStart (dom : ScheduleDom) : ScheduleDom * option jsstring :=
  let messageClasses :=
    classList_remove
      (classList_remove (messageClasses dom) (str "schedule-message--error"))
      (str "schedule-message--success") in
  let password := trim (passwordValue dom) in
  if isEmpty password then
    ({| pageClasses := pageClasses dom;
        messageText := str "Please enter the passphrase.";
        messageClasses := classList_add messageClasses (str "schedule-message--error");
        passwordValue := passwordValue dom |}, None)
  else
    ({| pageClasses := pageClasses dom;
        messageText := [];
        messageClasses := messageClasses;
        passwordValue := passwordValue dom |}, Some password).

(** The handler from its [await] on, with what the promise of the hash
    settled to. *)
Definition submitFinish (hashed : option jsstring) (dom : ScheduleDom) : ScheduleDom :=
  match hashed with
  | Some hashHex =>
      if negb (isEmpty SCHEDULE_PASSWORD_HASH)
         && bool_decide (toLowerCase hashHex = toLowerCase SCHEDULE_PASSWORD_HASH)
      then
        {| pageClasses := classList_add (pageClasses dom) (str "schedule-unlocked");
           messageText := str "Welcome to the Pantheon schedule.";
           messageClasses :=
             classList_add (messageClasses dom) (str "schedule-message--success");
           passwordValue := [] |}
      else
        {| pageClasses := pageClasses dom;
           messageText := str "That key does not match our records.";
           messageClasses :=
             classList_add (messageClasses dom) (str "schedule-message--error");
           passwordValue := passwordValue dom |}
  | None =>
      {| pageClasses := pageClasses dom;
         messageText := str "An error occurred while verifying the key.";
         messageClasses :=
           classList_add (messageClasses dom) (str "schedule-message--error");
         passwordValue := passwordValue dom |}
  end.

(** The page, and the passphrases whose hash is awaited, oldest first. *)
Record Session := mkSession { dom : ScheduleDom; pending : list jsstring }.

(** What happens on the page: the visitor sets the value of the input,
    submits the form, or one of the awaited hashes settles. *)
Inductive ScheduleEvent :=
  | Typed (value : jsstring)
  | Submitted
  | HashSettled (index : nat).

Definition scheduleStep (s : Session) (event : ScheduleEvent) : Session :=
  match event with
  | Typed value =>
      {| dom := {| pageClasses := pageClasses (dom s);
                   messageText := messageText (dom s);
                   messageClasses := messageClasses (dom s);
                   passwordValue := value |};
         pending := pending s |}
  | Submitted =>
      let '(dom', password) := submitStart (dom s) in
      {| dom := dom'; pending := pending s ++ option_list password |}
  | HashSettled index =>
      match pending s !! index with
      | Some password =>
          {| dom := submitFinish (hashStringSHA256 password) (dom s);
             pending := delete index (pending s) |}
      | None => s
      end
  end.

Definition scheduleRun (s : Session) (events : list ScheduleEvent) : Session :=
  fold_left scheduleStep events s.

End Crypto.

(* ------------------------------------------------------------------ *)
(** ** [scripts.js]: the next Saturday *)
(* ------------------------------------------------------------------ *)

(** *** Time values

    The abstract operations of ECMAScript on time values, which count
    milliseconds from the start of 1 January 1970 UTC; only valid dates, with
    an integer time value, are modelled. Division rounds down. *)

Definition msPerDay : Z := 86400000.

Definition Day (t : Z) : Z := t / msPerDay.
Definition TimeWithinDay (t : Z) : Z := t mod msPerDay.

Definition DaysInYear (y : Z) : Z :=
  if negb (y mod 4 =? 0) then 365
  else if negb (y mod 100 =? 0) then 366
  else if negb (y mod 400 =? 0) then 365
  else 366.

Definition DayFromYear (y : Z) : Z :=
  365 * (y - 1970) + (y - 1969) / 4 - (y - 1901) / 100 + (y - 1601) / 400.

Definition TimeFromYear (y : Z) : Z := msPerDay * DayFromYear y.

(** The largest year that starts at or before [t]: it is within one year of
    the estimate that takes every year for 365.2425 days. *)
Definition YearFromTime (t : Z) : Z :=
  let y := 1970 + (400 * Day t) / 146097 in
  if TimeFromYear (y + 1) <=? t then y + 1
  else if TimeFromYear y <=? t then y
  else y - 1.

Definition InLeapYear (t : Z) : Z :=
  if DaysInYear (YearFromTime t) =? 366 then 1 else 0.

Definition DayWithinYear (t : Z) : Z := Day t - DayFromYear (YearFromTime t).

(** The day of the year on which month [m] starts, for [m] from 0 to 11. *)
Definition monthStart (m leap : Z) : Z :=
  match m with
  | 0 => 0
  | 1 => 31
  | 2 => 59 + leap
  | 3 => 90 + leap
  | 4 => 120 + leap
  | 5 => 151 + leap
  | 6 => 181 + leap
  | 7 => 212 + leap
  | 8 => 243 + leap
  | 9 => 273 + leap
  | 10 => 304 + leap
  | _ => 334 + leap
  end.

Definition MonthFromTime (t : Z) : Z :=
  let d := DayWithinYear t in
  let leap := InLeapYear t in
  if d <? 31 then 0
  else if d <? 59 + leap then 1
  else if d <? 90 + leap then 2
  else if d <? 120 + leap then 3
  else if d <? 151 + leap then 4
  else if d <? 181 + leap then 5
  else if d <? 212 + leap then 6
  else if d <? 243 + leap then 7
  else if d <? 273 + leap then 8
  else if d <? 304 + leap then 9
  else if d <? 334 + leap then 10
  else 11.

Definition DateFromTime (t : Z) : Z :=
  DayWithinYear t - monthStart (MonthFromTime t) (InLeapYear t) + 1.

Definition WeekDay (t : Z) : Z := (Day t + 4) mod 7.

(** [MakeDay(year, month, date)]: the day number of the day [date] of the
    month, days beyond the month counting on into the next ones. *)
Definition MakeDay (year month date : Z) : Z :=
  let ym := year + month / 12 in
  let mn := month mod 12 in
  let leap := if DaysInYear ym =? 366 then 1 else 0 in
  DayFromYear ym + monthStart mn leap + date - 1.

Definition MakeDate (day time : Z) : Z := day * msPerDay + time.

(** [TimeClip]: [None] stands for [NaN], the time value of an invalid date. *)
Definition TimeClip (time : Z) : option Z :=
  if 8640000000000000 <? Z.abs time then None else Some time.

Section Clock.

(** [LocalTZA(t, isUTC)]: the offset of local time, in milliseconds, at the
    UTC time [t], or at the local time [t] when [isUTC] is false. *)
Variable LocalTZA : Z → bool → Z.

Definition LocalTime (t : Z) : Z := t + LocalTZA t true.
Definition UTC (t : Z) : Z := t - LocalTZA t false.

(** What the accessors of a [Date] with time value [t] return. *)
Definition dateOf (t : Z) : Date :=
  {| getFullYear := YearFromTime (LocalTime t);
     getMonth := MonthFromTime (LocalTime t);
     getDate := DateFromTime (LocalTime t) |}.

(** [date.getDay()] *)
Definition getDay (t : Z) : Z := WeekDay (LocalTime t).

(** [date.setDate(dt)]: the new time value of the date. *)
Definition setDate (t dt : Z) : option Z :=
  let t := LocalTime t in
  let newDate := MakeDate (MakeDay (YearFromTime t) (MonthFromTime t) dt) (TimeWithinDay t) in
  TimeClip (UTC newDate).

(** [getNextSaturday()], with the time value [new Date()] gives: the time
    value of the date returned. *)
Definition getNextSaturday (now : Z) : option Z :=
  let today := now in
  let dayOfWeek := getDay today in
  let daysUntilSaturday := Z.rem (6 - dayOfWeek + 7) 7 in
  let saturday := today in
  setDate saturday (getDate (dateOf today) + daysUntilSaturday).

End Clock.

(** [formatSaturday(dateObj)] for a valid date; note that the month comes
    first. *)
Definition formatSaturday (dateObj : Date) : jsstring :=
  let day := padStart (numToString (getDate dateObj)) 2 (str "0") in
  let month := padStart (numToString (getMonth dateObj + 1)) 2 (str "0") in
  str "Saturday - " ++ month ++ SLASH :: day.

(* ------------------------------------------------------------------ *)
(** ** Definitions used to state and prove the properties *)
(* ------------------------------------------------------------------ *)

(** *** The order of binary64 values, read on integers

    Every finite binary64 value is a multiple of [2^-1074]; [scaled] is that
    multiple, with the infinities beyond every finite value. On values other
    than [NaN] the IEEE comparisons are the comparisons of these integers. *)

Definition infScale : Z := 2 ^ 2098.

Definition scaled (x : spec_float) : Z :=
  match x with
  | S754_zero _ => 0
  | S754_nan => 0
  | S754_infinity s => cond_Zopp s infScale
  | S754_finite s m e => cond_Zopp s (Zpos m * 2 ^ (e + 1074))
  end.

(** Negative, positive, or neither (a zero, or [NaN]). *)
Definition signClass (x : spec_float) : comparison :=
  match x with
  | S754_finite s _ _ | S754_infinity s => if s then Lt else Gt
  | _ => Eq
  end.

Definition ordZ (x : float) : Z := scaled (Prim2SF x).

(** *** What the sort promises *)

(** [a] may stand before [b]: the comparator does not put it after. *)
Definition notAfter {A} (cmp : A → A → number) (a b : A) : Prop :=
  sortSign (cmp a b) ≠ Gt.

(** *** What the ranker promises *)

(** Descending totals: every entry has a total at least as large as that of
    any entry after it. *)
Definition sortedDescendingByTotal (ranked : list Ranked.t) : Prop :=
  ∀ i j ri rj, (i < j)%nat → ranked !! i = Some ri → ranked !! j = Some rj →
    (Ranked.total rj <=? Ranked.total ri)%float = true.

(** Ties by name: of two entries with equal totals, the earlier one does not
    collate after the later one. *)
Definition tiesBrokenByName (localeCompare : jsstring → jsstring → number)
    (ranked : list Ranked.t) : Prop :=
  ∀ i j ri rj, (i < j)%nat → ranked !! i = Some ri → ranked !! j = Some rj →
    (Ranked.total ri =? Ranked.total rj)%float = true →
    sortSign (localeCompare (Ranked.player ri) (Ranked.player rj)) ≠ Gt.

(** Ranks are the 1-based positions. *)
Definition ranksArePositions (ranked : list Ranked.t) : Prop :=
  ∀ i r, ranked !! i = Some r → Ranked.rank r = Z.of_nat i + 1.

(** What ECMAScript asks of a consistent comparator on strings, read on the
    sign the sort takes of its value. *)
Definition consistentCollation (localeCompare : jsstring → jsstring → number) : Prop :=
  (∀ a b, sortSign (localeCompare a b) = CompOpp (sortSign (localeCompare b a)))
  ∧ (∀ a b c, sortSign (localeCompare a b) ≠ Gt → sortSign (localeCompare b c) ≠ Gt →
              sortSign (localeCompare a c) ≠ Gt).

(** No total is [NaN]. *)
Definition noNaNTotals (totalsMap : JsMap) : Prop :=
  ∀ p t, (p, t) ∈ totalsMap → is_nan t = false.

Definition hasNumber (e : Entry.t) : Prop := is_nan (Entry.total e) = false.

(** The sign of [codeUnitCompare]: the lexicographic order of the code units. *)
Fixpoint codeUnitOrder (a b : jsstring) : comparison :=
  match a, b with
  | [], [] => Eq
  | [], _ :: _ => Lt
  | _ :: _, [] => Gt
  | x :: a', y :: b' =>
      match (x ?= y)%N with
      | Eq => codeUnitOrder a' b'
      | c => c
      end
  end.

(** *** What the parser promises *)

(** A run of one or more decimal digits. *)
Definition digitRun (ds : jsstring) : Prop :=
  ds ≠ [] ∧ Forall (λ c, isDigit c = true) ds.

(** The strings of the pattern: an optional minus sign, then one or more
    digits, then optionally a point with one or more digits. *)
Inductive UnsignedToken : jsstring → Prop :=
  | unsigned_integer ds : digitRun ds → UnsignedToken ds
  | unsigned_fraction ds fs :
      digitRun ds → digitRun fs → UnsignedToken (ds ++ DOT :: fs).

Inductive NumberToken : jsstring → Prop :=
  | token_plain t : UnsignedToken t → NumberToken t
  | token_minus t : UnsignedToken t → NumberToken (MINUS :: t).

(** [t] is the first match of the pattern in [s]: it occurs in [s], no match
    starts further left, and none that starts where it starts is longer. *)
Definition FirstMatch (s t : jsstring) : Prop :=
  ∃ pre post,
    s = pre ++ t ++ post ∧ NumberToken t ∧
    ∀ pre' t' post', s = pre' ++ t' ++ post' → NumberToken t' →
      (length pre ≤ length pre')%nat ∧
      (length pre' = length pre → (length t' ≤ length t)%nat).

(** The pattern matches nowhere in [s]. *)
Definition NoMatch (s : jsstring) : Prop :=
  ∀ pre t post, s = pre ++ t ++ post → ¬ NumberToken t.

(** The lines the parser drops: no comma; no second comma; an empty player
    field; a score field without a match of the pattern. *)
Definition SkippedLine (line : jsstring) : Prop :=
  (COMMA ∉ line)
  ∨ (∃ a b, line = a ++ COMMA :: b ∧ (COMMA ∉ a) ∧ (COMMA ∉ b))
  ∨ (∃ a b c, line = a ++ COMMA :: b ++ COMMA :: c ∧ (COMMA ∉ a) ∧ (COMMA ∉ b)
              ∧ (trim a = [] ∨ NoMatch (trim b))).

(** The lines the parser keeps, with what it reads on them: the text before
    the first comma, and the first match of the pattern between the first
    two commas. *)
Definition ReadsAs (line player token : jsstring) : Prop :=
  ∃ a b c, line = a ++ COMMA :: b ++ COMMA :: c ∧ (COMMA ∉ a) ∧ (COMMA ∉ b)
           ∧ trim a ≠ [] ∧ player = trim a ∧ FirstMatch (trim b) token.

(** *** What the Hall of Fame promises *)

#[export] Instance SplitInfo_eq_dec : EqDecision SplitInfo.t.
Proof. solve_decision. Defined.

(** [a] comes after [b] in time. *)
Definition splitAfter (a b : SplitInfo.t) : Prop :=
  SplitInfo.year b < SplitInfo.year a
  ∨ (SplitInfo.year a = SplitInfo.year b ∧ SplitInfo.split b < SplitInfo.split a).

(** The summaries the container shows: none under a message. *)
Definition summariesOf (content : HofContent) : list SplitSummary :=
  match content with
  | HofMessage _ => []
  | HofEntries entries => entries
  end.

Definition summaryId (s : SplitSummary) : SplitInfo.t :=
  SplitInfo.mk (summaryYear s) (summarySplit s).

(** The ranking of the records of a CSV text. *)
Definition rankedOf (localeCompare : jsstring → jsstring → number) (csv : jsstring)
  : list Ranked.t :=
  createRankedArray localeCompare (tallyScores (parseCsv csv)).

(** How a split other than the current one is classified from what the
    network answers for its file: completed, with the top two of the
    ranking, when the answer is a success whose body can be read and whose
    ranking is not empty; off-split otherwise. *)
Definition classifyAnswer (localeCompare : jsstring → jsstring → number)
    (year split : Z) (answer : option Response) : SplitSummary :=
  match answer with
  | Some (mkResponse true _ (Some csv)) =>
      match rankedOf localeCompare csv with
      | [] => mkSummary year split OffSplit None
      | ranked => mkSummary year split Completed (Some (take 2 ranked))
      end
  | _ => mkSummary year split OffSplit None
  end.

(** The summary of one enumerated split, and the requests it costs. *)
Definition summaryFor (localeCompare : jsstring → jsstring → number) (G : Globals)
    (currentInfo : SplitInfo.t) (w : World) (s : SplitInfo.t) : SplitSummary :=
  if decide (s = currentInfo)
  then mkSummary (SplitInfo.year s) (SplitInfo.split s) InProgress None
  else classifyAnswer localeCompare (SplitInfo.year s) (SplitInfo.split s)
         (network w (buildCsvPath G (SplitInfo.year s) (SplitInfo.split s))).

Definition requestsFor (G : Globals) (currentInfo : SplitInfo.t) (s : SplitInfo.t)
  : list jsstring :=
  if decide (s = currentInfo) then []
  else [buildCsvPath G (SplitInfo.year s) (SplitInfo.split s)].

(** The slots of [Promise.all] once the promises listed in [settled] have
    settled with the values [values]. *)
Definition slotsAfter {A} (settled : list nat) (values : list A) : list (option A) :=
  imap (λ i v, if decide (i ∈ settled) then Some v else None) values.

(** The splits a year contributes to the enumeration. *)
Definition splitsOfYear (currentInfo : SplitInfo.t) (year : Z) : list SplitInfo.t :=
  filter (λ s, ¬ splitAfter s currentInfo) [SplitInfo.mk year 1; SplitInfo.mk year 2].

(** *** Worlds and data used in the examples *)

(** The network is down, and promises settle last to first. *)
Definition offlineWorld : World :=
  mkWorld (λ _, None) (λ n, rev (seq 0 n)).

(** *** What the main table shows, before names are looked up *)

Inductive MainData :=
  | DataError (message : jsstring)
  | DataEmpty (message : jsstring)
  | DataLoaded (message : jsstring) (ranked : list Ranked.t).

(** What the main table is made from, given the answer for its file. *)
Definition mainDataFor (localeCompare : jsstring → jsstring → number)
    (csvPath : jsstring) (answer : option Response) : MainData :=
  match answer with
  | None => DataError (str "Unable to load scores for this split.")
  | Some (mkResponse false _ _) =>
      DataError (str "Unable to load scores for this split. Please check that the CSV file exists.")
  | Some (mkResponse true _ None) =>
      DataError (str "Unable to load scores for this split.")
  | Some (mkResponse true _ (Some csv)) =>
      match parseCsv csv with
      | [] => DataEmpty (str "No scores recorded for this split yet.")
      | _ => DataLoaded (str "Scores loaded from " ++ csvPath ++ str ".")
                        (rankedOf localeCompare csv)
      end
  end.

(** The table, once the names to display are looked up. *)
Definition renderData (G : Globals) (d : MainData) : MainTable :=
  match d with
  | DataError m => MainError m
  | DataEmpty m => MainEmpty m
  | DataLoaded m ranked => MainLoaded m (renderMainTableRows G ranked)
  end.

(** The parser as if the input were split first and its first line were the
    header, each line trimmed, with no trimming of the whole text
    beforehand. *)
Definition parseCsvSplitFirst (text : jsstring) : list ScoreRecord :=
  let lines := trim <$> splitLines text in
  if (length lines <=? 1)%nat then [] else omap parseLine (drop 1 lines).

(** *** Notions used in further properties of the pipeline *)

(** The distinct strings of a list, each where it first occurs. *)
Fixpoint firstOccurrences (l : list jsstring) : list jsstring :=
  match l with
  | [] => []
  | p :: l' => p :: filter (λ q, q ≠ p) (firstOccurrences l')
  end.

(** A text with every line feed made a carriage return and a line feed. *)
Definition toCRLF (s : jsstring) : jsstring :=
  s ≫= λ c, if (c =? LF)%N then [CR; LF] else [c].

(** The same line, or the same line with a carriage return behind it. *)
Definition sameLine (l1 l2 : jsstring) : Prop := l1 = l2 ∨ l1 = l2 ++ [CR].

(** The name of the file of a split, without its folder. *)
Definition csvFileName (year split : Z) : jsstring :=
  numToString year ++ str "_Split" ++ numToString split ++ str ".csv".

(** *** Notions used in the properties of the site scripts *)

(** A digit of lower-case hexadecimal, and its value. *)
Definition hexValue (c : N) : option N :=
  (if (48 <=? c) && (c <=? 57) then Some (c - 48)
   else if (97 <=? c) && (c <=? 102) then Some (c - 87)
   else None)%N.

(** The bytes a string of hexadecimal digits stands for, two digits a byte. *)
Fixpoint hexDecode (s : jsstring) : option (list Byte.byte) :=
  match s with
  | [] => Some []
  | hi :: lo :: r =>
      h ← hexValue hi; l ← hexValue lo;
      b ← Byte.of_N (16 * h + l);
      bs ← hexDecode r;
      Some (b :: bs)
  | _ => None
  end.

(** The digest the stored hash stands for. *)
Definition expectedDigest : list Byte.byte :=
  Eval vm_compute in default [] (hexDecode SCHEDULE_PASSWORD_HASH).

(** The values the input has held: the one it starts with, and those the
    visitor sets. *)
Definition typedValues (start : jsstring) (events : list ScheduleEvent) : list jsstring :=
  start :: omap (λ e, match e with Typed v => Some v | _ => None end) events.

Definition unlocked (d : ScheduleDom) : Prop :=
  str "schedule-unlocked" ∈ pageClasses d.

Definition menuOpen (page : NavPage) : Prop :=
  ∃ classes, navClasses page = Some classes ∧ str "nav-open" ∈ classes.

#[export] Instance byte_eq_decision : EqDecision Byte.byte := Byte.byte_eq_dec.

(** The two digits of a byte, as [hashStringSHA256] writes them. *)
Definition byteHex (b : Byte.byte) : jsstring :=
  padStart (toString16 (Byte.to_N b)) 2 (str "0").

(** The passphrase [pw] hashes to the stored digest. *)
Definition opensSchedule (digest : list N → option (list Byte.byte)) (pw : jsstring) : Prop :=
  pw ≠ [] ∧ digest (encode pw) = Some expectedDigest.

(** [a] stands before [b] in the list. *)
Fixpoint comesBefore {A} (a b : A) (l : list A) : Prop :=
  match l with
  | [] => False
  | y :: l' => (y = a ∧ b ∈ l') ∨ comesBefore a b l'
  end.

(** A collation for which all names are alike. *)
Definition allAlike (a b : jsstring) : number := 0%float.

(** A digest that takes one passphrase to the stored digest and every other
    text to 32 zero bytes. *)
Definition oneKeyDigest (key : jsstring) (data : list N) : option (list Byte.byte) :=
  if decide (data = encode key) then Some expectedDigest
  else Some (replicate 32 Byte.x00).

(* ------------------------------------------------------------------ *)
(** ** Binary64 arithmetic: order, and the sign of a difference *)
(* ------------------------------------------------------------------ *)

Lemma digits2_pos_bounds (m : positive) :
  2 ^ (Zpos (digits2_pos m) - 1) <= Zpos m < 2 ^ Zpos (digits2_pos m).
Proof.
  induction m as [m IH|m IH|]; simpl digits2_pos.
  - rewrite Pos2Z.inj_succ.
    replace (Z.succ (Zpos (digits2_pos m)) - 1) with (Z.succ (Zpos (digits2_pos m) - 1)) by lia.
    rewrite !Z.pow_succ_r by lia. lia.
  - rewrite Pos2Z.inj_succ.
    replace (Z.succ (Zpos (digits2_pos m)) - 1) with (Z.succ (Zpos (digits2_pos m) - 1)) by lia.
    rewrite !Z.pow_succ_r by lia. lia.
  - simpl. lia.
Qed.

Lemma bounded_inv m e :
  bounded prec emax m e = true ->
  -1074 <= e <= 971 /\ Zpos m < 2 ^ 53 /\ (e = -1074 \/ 2 ^ 52 <= Zpos m).
Proof.
  unfold bounded, canonical_mantissa, fexp, SpecFloat.emin, prec, emax.
  intros H. apply andb_true_iff in H as [H1 H2].
  apply Z.eqb_eq in H1. apply Z.leb_le in H2.
  pose proof (digits2_pos_bounds m) as [Hlo Hhi].
  set (d := Zpos (digits2_pos m)) in *.
  assert (Hd : 0 < d) by (unfold d; lia).
  assert (d <= 53) by lia.
  split; [lia |]. split.
  - eapply Z.lt_le_trans; [exact Hhi |]. apply Z.pow_le_mono_r; lia.
  - destruct (Z.eq_dec e (-1074)) as [|Hne]; [now left | right].
    assert (d = 53) by lia. subst d. rewrite H0 in Hlo. exact Hlo.
Qed.

Lemma scaled_finite_bounds (s : bool) m e :
  bounded prec emax m e = true ->
  0 < Zpos m * 2 ^ (e + 1074) < infScale.
Proof.
  unfold infScale.
  intros H. apply bounded_inv in H as (He & Hm & _).
  assert (0 < 2 ^ (e + 1074)) by (apply Z.pow_pos_nonneg; lia).
  split; [lia |].
  replace 2098 with (53 + 2045) by lia. rewrite (Z.pow_add_r 2 53 2045) by lia.
  assert (2 ^ (e + 1074) <= 2 ^ 2045) by (apply Z.pow_le_mono_r; lia).
  assert (0 < 2 ^ 53) by (apply Z.pow_pos_nonneg; lia).
  nia.
Qed.

Lemma finite_compare_scaled m1 e1 m2 e2 :
  bounded prec emax m1 e1 = true ->
  bounded prec emax m2 e2 = true ->
  match e1 ?= e2 with
  | Lt => Lt
  | Gt => Gt
  | Eq => Pos.compare_cont Eq m1 m2
  end = (Zpos m1 * 2 ^ (e1 + 1074) ?= Zpos m2 * 2 ^ (e2 + 1074)).
Proof.
  intros H1 H2.
  apply bounded_inv in H1 as (He1 & Hm1 & Hn1).
  apply bounded_inv in H2 as (He2 & Hm2 & Hn2).
  assert (Hp1 : 0 < 2 ^ (e1 + 1074)) by (apply Z.pow_pos_nonneg; lia).
  assert (Hp2 : 0 < 2 ^ (e2 + 1074)) by (apply Z.pow_pos_nonneg; lia).
  destruct (Z.compare_spec e1 e2) as [Heq|Hlt|Hgt].
  - subst e2. change (Pos.compare_cont Eq m1 m2) with (Zpos m1 ?= Zpos m2).
    destruct (Z.compare_spec (Zpos m1) (Zpos m2)) as [E|L|G]; symmetry.
    + apply Z.compare_eq_iff. congruence.
    + apply Z.compare_lt_iff. nia.
    + apply Z.compare_gt_iff. nia.
  - symmetry. apply Z.compare_lt_iff.
    destruct Hn2 as [->|Hn2]; [lia |].
    replace (e2 + 1074) with ((e2 - e1) + (e1 + 1074)) by lia.
    rewrite (Z.pow_add_r 2 (e2 - e1)) by lia.
    assert (2 ^ 1 <= 2 ^ (e2 - e1)) by (apply Z.pow_le_mono_r; lia).
    change (2 ^ 1) with 2 in *. change (2 ^ 53) with (2 * 2 ^ 52) in Hm1.
    rewrite Z.mul_assoc. apply Z.mul_lt_mono_pos_r; [exact Hp1 |].
    generalize dependent (2 ^ 52). generalize dependent (2 ^ (e2 - e1)). intros; nia.
  - symmetry. apply Z.compare_gt_iff.
    destruct Hn1 as [->|Hn1]; [lia |].
    replace (e1 + 1074) with ((e1 - e2) + (e2 + 1074)) by lia.
    rewrite (Z.pow_add_r 2 (e1 - e2)) by lia.
    assert (2 ^ 1 <= 2 ^ (e1 - e2)) by (apply Z.pow_le_mono_r; lia).
    change (2 ^ 1) with 2 in *. change (2 ^ 53) with (2 * 2 ^ 52) in Hm2.
    rewrite Z.mul_assoc. apply Z.mul_lt_mono_pos_r; [exact Hp2 |].
    generalize dependent (2 ^ 52). generalize dependent (2 ^ (e1 - e2)). intros; nia.
Qed.

Lemma same_sign_compare (s : bool) a b c :
  c = (a ?= b) ->
  (if s then CompOpp c else c) = (cond_Zopp s a ?= cond_Zopp s b).
Proof.
  intros ->. destruct s; simpl; [| reflexivity].
  rewrite Z.compare_opp. symmetry. apply Z.compare_antisym.
Qed.

Lemma SFcompare_scaled x y :
  valid_binary x = true -> valid_binary y = true ->
  x <> S754_nan -> y <> S754_nan ->
  SFcompare x y = Some (scaled x ?= scaled y).
Proof.
  intros Vx Vy Nx Ny.
  assert (0 < infScale) by reflexivity.
  destruct x as [sx|sx| |sx mx ex], y as [sy|sy| |sy my ey]; try congruence;
    simpl in Vx, Vy; simpl SFcompare; unfold scaled; f_equal;
    try (pose proof (scaled_finite_bounds sx mx ex Vx));
    try (pose proof (scaled_finite_bounds sy my ey Vy)).
  all: try (destruct sx, sy; simpl cond_Zopp;
            try (symmetry;
                 solve [ apply Z.compare_eq_iff; lia | apply Z.compare_gt_iff; lia
                       | apply Z.compare_lt_iff; lia ])).
  all: try (destruct sx; simpl cond_Zopp; symmetry;
            solve [ apply Z.compare_eq_iff; lia | apply Z.compare_gt_iff; lia
                  | apply Z.compare_lt_iff; lia ]).
  all: try (destruct sy; simpl cond_Zopp; symmetry;
            solve [ apply Z.compare_eq_iff; lia | apply Z.compare_gt_iff; lia
                  | apply Z.compare_lt_iff; lia ]).
  - pose proof (finite_compare_scaled mx ex my ey Vx Vy) as E.
    rewrite Z.compare_opp.
    rewrite (Z.compare_antisym (Z.pos mx * 2 ^ (ex + 1074))), <- E.
    destruct (ex ?= ey); reflexivity.
  - apply finite_compare_scaled; assumption.
Qed.

Lemma shr_1_m mrs : 0 <= shr_m mrs -> shr_m (shr_1 mrs) = shr_m mrs / 2.
Proof.
  destruct mrs as [m r s]; cbn [shr_m]. intros Hm.
  destruct m as [|[p|p|]|p]; cbn [shr_1 shr_m]; try lia; try reflexivity.
  - rewrite (Pos2Z.inj_xI p). apply (Z.div_unique _ _ _ 1); lia.
  - rewrite (Pos2Z.inj_xO p). apply (Z.div_unique _ _ _ 0); lia.
Qed.

Lemma iter_shr_1_m p : forall mrs,
  0 <= shr_m mrs -> shr_m (SpecFloat.iter_pos shr_1 p mrs) = shr_m mrs / 2 ^ Zpos p.
Proof.
  induction p as [p IH|p IH|]; intros mrs Hm; simpl SpecFloat.iter_pos.
  - assert (H1 : 0 <= shr_m (shr_1 mrs)) by (rewrite shr_1_m by lia; apply Z.div_pos; lia).
    assert (H2 : 0 <= shr_m (SpecFloat.iter_pos shr_1 p (shr_1 mrs)))
      by (rewrite IH by lia; apply Z.div_pos; [lia | apply Z.pow_pos_nonneg; lia]).
    rewrite IH by lia. rewrite IH by lia. rewrite shr_1_m by lia.
    assert (0 < 2 ^ Zpos p) by (apply Z.pow_pos_nonneg; lia).
    rewrite !Z.div_div by lia.
    f_equal. replace (Zpos p~1) with (1 + (Zpos p + Zpos p)) by lia.
    rewrite !Z.pow_add_r by lia. change (2 ^ 1) with 2. lia.
  - assert (H2 : 0 <= shr_m (SpecFloat.iter_pos shr_1 p mrs))
      by (rewrite IH by lia; apply Z.div_pos; [lia | apply Z.pow_pos_nonneg; lia]).
    rewrite IH by lia. rewrite IH by lia.
    assert (0 < 2 ^ Zpos p) by (apply Z.pow_pos_nonneg; lia).
    rewrite !Z.div_div by lia.
    f_equal. replace (Zpos p~0) with (Zpos p + Zpos p) by lia.
    rewrite Z.pow_add_r by lia. lia.
  - rewrite shr_1_m by lia. reflexivity.
Qed.

Lemma shr_record_of_loc_m m l : shr_m (shr_record_of_loc m l) = m.
Proof. destruct l as [|[]]; reflexivity. Qed.

Lemma Zdigits2_bounds m : 0 < m -> 2 ^ (Zdigits2 m - 1) <= m < 2 ^ Zdigits2 m.
Proof.
  destruct m as [|p|p]; try lia. intros _. apply digits2_pos_bounds.
Qed.

(** Shifting to the canonical exponent leaves the mantissa non-negative. *)
Lemma shr_fexp_nonneg m e l :
  0 <= m -> 0 <= shr_m (fst (shr_fexp prec emax m e l)).
Proof.
  intros Hm. unfold shr_fexp, shr.
  destruct (fexp prec emax (Zdigits2 m + e) - e) as [|p|p]; simpl;
    rewrite ?iter_shr_1_m; rewrite ?shr_record_of_loc_m; try lia.
  apply Z.div_pos; [lia | apply Z.pow_pos_nonneg; lia].
Qed.

(** At an exponent that is representable it leaves a positive mantissa
    positive: only bits beyond the 53rd are shifted out. *)
Lemma shr_fexp_pos m e l :
  0 < m -> -1074 <= e ->
  0 < shr_m (fst (shr_fexp prec emax m e l)) /\
  -1074 <= snd (shr_fexp prec emax m e l).
Proof.
  intros Hm He. unfold shr_fexp, shr.
  pose proof (Zdigits2_bounds m Hm) as [Hlo Hhi].
  destruct (fexp prec emax (Zdigits2 m + e) - e) as [|p|p] eqn:Hn; simpl;
    rewrite ?shr_record_of_loc_m; try lia.
  rewrite iter_shr_1_m by (rewrite shr_record_of_loc_m; lia).
  rewrite shr_record_of_loc_m. split; [| lia].
  unfold fexp, SpecFloat.emin, prec, emax in Hn.
  assert (Hp : Zpos p = Zdigits2 m - 53) by lia.
  assert (0 < 2 ^ Zpos p) by (apply Z.pow_pos_nonneg; lia).
  apply Z.div_str_pos. split; [lia |].
  eapply Z.le_trans; [| exact Hlo]. apply Z.pow_le_mono_r; lia.
Qed.

Lemma round_nearest_even_ge m l : m <= round_nearest_even m l.
Proof. unfold round_nearest_even. destruct l as [|[]]; try destruct (Z.even m); lia. Qed.

Lemma binary_round_aux_not_nan s m e l :
  0 <= m -> binary_round_aux prec emax s m e l <> S754_nan.
Proof.
  intros Hm. unfold binary_round_aux.
  pose proof (shr_fexp_nonneg m e l Hm) as H1.
  destruct (shr_fexp prec emax m e l) as [mrs' e'] eqn:E1. simpl in H1.
  pose proof (round_nearest_even_ge (shr_m mrs') (loc_of_shr_record mrs')) as H2.
  pose proof (shr_fexp_nonneg (round_nearest_even (shr_m mrs') (loc_of_shr_record mrs')) e' loc_Exact ltac:(lia)) as H3.
  destruct (shr_fexp prec emax (round_nearest_even _ _) e' loc_Exact) as [mrs'' e''].
  simpl in H3. destruct (shr_m mrs'') as [|q|q]; try lia; try discriminate.
  destruct (e'' <=? emax - prec); discriminate.
Qed.

Lemma binary_round_aux_sign s m e l :
  0 < m -> -1074 <= e ->
  signClass (binary_round_aux prec emax s m e l) = if s then Lt else Gt.
Proof.
  intros Hm He. unfold binary_round_aux.
  pose proof (shr_fexp_pos m e l Hm He) as [H1 H1'].
  destruct (shr_fexp prec emax m e l) as [mrs' e'] eqn:E1. simpl in H1, H1'.
  pose proof (round_nearest_even_ge (shr_m mrs') (loc_of_shr_record mrs')) as H2.
  pose proof (shr_fexp_pos (round_nearest_even (shr_m mrs') (loc_of_shr_record mrs')) e' loc_Exact ltac:(lia) H1') as [H3 _].
  destruct (shr_fexp prec emax (round_nearest_even _ _) e' loc_Exact) as [mrs'' e''].
  simpl in H3. destruct (shr_m mrs'') as [|q|q]; try lia.
  destruct (e'' <=? emax - prec); reflexivity.
Qed.

Lemma shl_align_spec m e e' :
  (e' <= e ->
   Zpos (fst (shl_align m e e')) = Zpos m * 2 ^ (e - e') /\ snd (shl_align m e e') = e') /\
  (e <= e' -> shl_align m e e' = (m, e)).
Proof.
  unfold shl_align. split; intros H.
  - destruct (e' - e) as [|p|p] eqn:Hd; try lia; simpl.
    + replace (e - e') with 0 by lia. lia.
    + change (Pos.iter xO m p) with (shift_pos p m).
      rewrite shift_pos_correct, Zpower_pos_nat, Zpower_nat_Z, positive_nat_Z.
      replace (e - e') with (Zpos p) by lia. lia.
  - destruct (e' - e) as [|p|p] eqn:Hd; try lia; reflexivity.
Qed.

Lemma binary_round_sign s m e :
  -1074 <= e ->
  signClass (binary_round prec emax s m e) = if s then Lt else Gt.
Proof.
  intros He. unfold binary_round.
  set (e' := fexp prec emax (Zpos (digits2_pos m) + e)).
  assert (He' : -1074 <= e') by (unfold e', fexp, SpecFloat.emin, prec, emax; lia).
  destruct (shl_align_spec m e e') as [Hle Hge].
  destruct (shl_align m e e') as [mz ez] eqn:E.
  apply binary_round_aux_sign; [lia |].
  destruct (Z.le_ge_cases e' e) as [H|H].
  - apply Hle in H. simpl in H. lia.
  - apply Hge in H. injection H as _ <-. lia.
Qed.

Lemma binary_normalize_sign m e :
  -1074 <= e ->
  signClass (binary_normalize prec emax m e false) = (m ?= 0).
Proof.
  intros He. destruct m as [|p|p]; simpl binary_normalize.
  - reflexivity.
  - apply (binary_round_sign false); assumption.
  - apply (binary_round_sign true); assumption.
Qed.

(** The exact difference of two finite values, in units of [2^ez]. *)
Lemma aligned_compare sx mx ex sy my ey :
  -1074 <= ex -> -1074 <= ey ->
  let ez := Z.min ex ey in
  (cond_Zopp sx (Zpos (fst (shl_align mx ex ez)))
   - cond_Zopp sy (Zpos (fst (shl_align my ey ez))) ?= 0) =
  (scaled (S754_finite sx mx ex) ?= scaled (S754_finite sy my ey)).
Proof.
  intros Hx Hy ez. unfold scaled.
  destruct (shl_align_spec mx ex ez) as [Hax _].
  destruct (shl_align_spec my ey ez) as [Hay _].
  destruct Hax as [-> _]; [unfold ez; lia |].
  destruct Hay as [-> _]; [unfold ez; lia |].
  assert (Hz : -1074 <= ez) by (unfold ez; lia).
  replace (ex + 1074) with ((ex - ez) + (ez + 1074)) by lia.
  replace (ey + 1074) with ((ey - ez) + (ez + 1074)) by lia.
  rewrite (Z.pow_add_r 2 (ex - ez)), (Z.pow_add_r 2 (ey - ez)) by (unfold ez; lia).
  assert (Hp : 0 < 2 ^ (ez + 1074)) by (apply Z.pow_pos_nonneg; lia).
  rewrite !Z.mul_assoc.
  set (P := 2 ^ (ez + 1074)) in *.
  set (X := Zpos mx * 2 ^ (ex - ez)). set (Y := Zpos my * 2 ^ (ey - ez)).
  replace (cond_Zopp sx (X * P)) with (cond_Zopp sx X * P) by (destruct sx; simpl; lia).
  replace (cond_Zopp sy (Y * P)) with (cond_Zopp sy Y * P) by (destruct sy; simpl; lia).
  set (A := cond_Zopp sx X). set (B := cond_Zopp sy Y).
  clearbody P A B.
  destruct (Z.compare_spec (A - B) 0); symmetry;
    [apply Z.compare_eq_iff | apply Z.compare_lt_iff | apply Z.compare_gt_iff]; nia.
Qed.

(** The sign of an IEEE difference is the order of its operands: a
    difference of distinct values never rounds to zero. *)
Lemma SFsub_sign x y :
  valid_binary x = true -> valid_binary y = true ->
  x <> S754_nan -> y <> S754_nan ->
  signClass (SF64sub x y) = (scaled x ?= scaled y).
Proof.
  intros Vx Vy Nx Ny.
  assert (0 < infScale) by reflexivity.
  destruct x as [sx|sx| |sx mx ex], y as [sy|sy| |sy my ey]; try congruence;
    simpl in Vx, Vy;
    try (pose proof (scaled_finite_bounds sx mx ex Vx));
    try (pose proof (scaled_finite_bounds sy my ey Vy)).
  9: { unfold SF64sub, SFsub.
       apply bounded_inv in Vx as (Hex & _). apply bounded_inv in Vy as (Hey & _).
       rewrite binary_normalize_sign by lia.
       apply aligned_compare; lia. }
  all: unfold SF64sub, SFsub, scaled, signClass;
    try destruct sx; try destruct sy; simpl cond_Zopp; symmetry;
    solve [ apply Z.compare_eq_iff; lia | apply Z.compare_gt_iff; lia
          | apply Z.compare_lt_iff; lia ].
Qed.

(** *** The same, on primitive floats *)

Lemma is_nan_spec x : is_nan x = false <-> Prim2SF x <> S754_nan.
Proof.
  unfold is_nan. rewrite FloatAxioms.eqb_spec. pose proof (Prim2SF_valid x) as V.
  destruct (Prim2SF x) as [s|s| |s m e] eqn:E.
  - simpl. split; [discriminate | reflexivity].
  - destruct s; simpl; (split; [discriminate | reflexivity]).
  - simpl. split; [discriminate | congruence].
  - unfold SFeqb. rewrite SFcompare_scaled by (assumption || discriminate).
    rewrite Z.compare_refl. simpl. split; [discriminate | reflexivity].
Qed.

Lemma float_compare_ordZ x y :
  is_nan x = false -> is_nan y = false ->
  SFcompare (Prim2SF x) (Prim2SF y) = Some (ordZ x ?= ordZ y).
Proof.
  intros Hx Hy. apply SFcompare_scaled; auto using Prim2SF_valid;
    apply is_nan_spec; assumption.
Qed.

Lemma ltb_ordZ x y :
  is_nan x = false -> is_nan y = false -> (x <? y)%float = (ordZ x <? ordZ y).
Proof.
  intros Hx Hy. rewrite FloatAxioms.ltb_spec. unfold SFltb, Z.ltb.
  rewrite float_compare_ordZ by assumption. reflexivity.
Qed.

Lemma leb_ordZ x y :
  is_nan x = false -> is_nan y = false -> (x <=? y)%float = (ordZ x <=? ordZ y).
Proof.
  intros Hx Hy. rewrite FloatAxioms.leb_spec. unfold SFleb, Z.leb.
  rewrite float_compare_ordZ by assumption. destruct (ordZ x ?= ordZ y); reflexivity.
Qed.

Lemma eqb_ordZ x y :
  is_nan x = false -> is_nan y = false -> (x =? y)%float = (ordZ x =? ordZ y).
Proof.
  intros Hx Hy. rewrite FloatAxioms.eqb_spec. unfold SFeqb. rewrite Z.eqb_compare.
  rewrite float_compare_ordZ by assumption. destruct (ordZ x ?= ordZ y); reflexivity.
Qed.

Lemma sortSign_signClass v : sortSign v = signClass (Prim2SF v).
Proof.
  unfold sortSign. rewrite !FloatAxioms.ltb_spec.
  change (Prim2SF 0) with (S754_zero false).
  destruct (Prim2SF v) as [s|s| |s m e]; try destruct s; reflexivity.
Qed.

Lemma sortSign_sub x y :
  is_nan x = false -> is_nan y = false ->
  sortSign (x - y) = (ordZ x ?= ordZ y).
Proof.
  intros Hx Hy. rewrite sortSign_signClass, FloatAxioms.sub_spec.
  apply SFsub_sign; auto using Prim2SF_valid; apply is_nan_spec; assumption.
Qed.

Lemma binary_round_not_nan s m e : binary_round prec emax s m e <> S754_nan.
Proof.
  unfold binary_round. destruct (shl_align m e _) as [mz ez].
  apply binary_round_aux_not_nan. lia.
Qed.

Lemma roundRatio_not_nan neg m d : 0 <= m -> 0 < d -> roundRatio neg m d <> S754_nan.
Proof.
  intros Hm Hd. unfold roundRatio. destruct m as [|p|p]; [discriminate | | lia].
  unfold SFdiv_core_binary.
  set (e' := Z.min _ _). set (m' := match 0 - 0 - e' with 0 => _ | Zpos _ => _ | Zneg _ => _ end).
  assert (Hm' : 0 <= m').
  { unfold m'. destruct (0 - 0 - e'); try lia. apply Z.shiftl_nonneg. lia. }
  pose proof (Z.div_eucl_eq m' d ltac:(lia)) as Heq.
  pose proof (Z.mod_pos_bound m' d Hd) as Hr.
  unfold Z.modulo in Hr.
  destruct (Z.div_eucl m' d) as [q r].
  apply binary_round_aux_not_nan. nia.
Qed.

Lemma SF2Prim_not_nan r : r <> S754_nan -> is_nan (SF2Prim r) = false.
Proof.
  intros Hr. destruct r as [[]|[]| |s m e]; try reflexivity; [congruence |].
  unfold SF2Prim.
  assert (H : is_nan (Z.ldexp (of_uint63 (Uint63.of_Z (Zpos m))) e) = false).
  { apply is_nan_spec. rewrite Z_ldexp_spec, of_uint63_spec.
    destruct (Uint63.to_Z (Uint63.of_Z (Zpos m))) as [|q|q]; simpl binary_normalize.
    - simpl. discriminate.
    - pose proof (binary_round_not_nan false q 0) as Hq.
      destruct (binary_round prec emax false q 0); simpl; try discriminate; try congruence.
      apply binary_round_not_nan.
    - pose proof (binary_round_not_nan true q 0) as Hq.
      destruct (binary_round prec emax true q 0); simpl; try discriminate; try congruence.
      apply binary_round_not_nan. }
  destruct s; [| exact H].
  apply is_nan_spec. rewrite opp_spec. apply is_nan_spec in H.
  destruct (Prim2SF _); simpl; congruence.
Qed.

(* ------------------------------------------------------------------ *)
(** ** Properties of [Map] and of the tally *)
(* ------------------------------------------------------------------ *)

Lemma map_get_set_eq m k v : map_get (map_set m k v) k = Some v.
Proof.
  induction m as [|[k' v'] m IH]; simpl.
  - by rewrite decide_True.
  - destruct (decide (k' = k)) as [->|Hne]; simpl.
    + by rewrite decide_True.
    + by rewrite decide_False.
Qed.

Lemma map_get_set_ne m k k' v : k ≠ k' → map_get (map_set m k v) k' = map_get m k'.
Proof.
  intros Hne. induction m as [|[k0 v0] m IH]; simpl.
  - by rewrite decide_False.
  - destruct (decide (k0 = k)) as [->|Hk]; simpl.
    + by rewrite !decide_False.
    + destruct (decide (k0 = k')); done.
Qed.

Lemma map_get_None m k : map_get m k = None ↔ k ∉ map_keys m.
Proof.
  induction m as [|[k' v] m IH]; simpl.
  - split; [intros _; apply not_elem_of_nil | done].
  - destruct (decide (k' = k)) as [->|Hne].
    + split; [done | intros H; exfalso; apply H; left].
    + rewrite IH. unfold map_keys. simpl. rewrite not_elem_of_cons.
      split; [intros H; split; [congruence | exact H] | intros [_ H]; exact H].
Qed.

Lemma map_keys_set m k v :
  map_keys (map_set m k v) =
  if decide (k ∈ map_keys m) then map_keys m else map_keys m ++ [k].
Proof.
  unfold map_keys. induction m as [|[k' v'] m IH]; [done |].
  cbn [map_set]. destruct (decide (k' = k)) as [->|Hne]; rewrite !fmap_cons; cbn [fst].
  - rewrite decide_True; [done | left].
  - rewrite IH. destruct (decide (k ∈ fst <$> m)) as [Hin|Hin].
    + rewrite decide_True; [done | by right].
    + rewrite decide_False; [done |].
      rewrite not_elem_of_cons. split; [congruence | done].
Qed.

Lemma map_set_NoDup m k v : NoDup (map_keys m) → NoDup (map_keys (map_set m k v)).
Proof.
  intros Hnd. rewrite map_keys_set. case_decide; [done |].
  apply NoDup_app. split_and!; [done | | apply NoDup_singleton].
  intros x Hx Hx'. apply list_elem_of_singleton in Hx' as ->. done.
Qed.

Lemma tally_fold_get records m p :
  map_get (fold_left tallyStep records m) p =
  fold_left (fun acc s => Some (default 0%float acc + s)%float)
            (scoresOf p records) (map_get m p).
Proof.
  revert m. induction records as [|r records IH]; intros m; [done |].
  simpl fold_left at 1. rewrite IH. unfold scoresOf. rewrite filter_cons.
  unfold tallyStep at 1. case_decide as Hp; simpl.
  - subst p. by rewrite map_get_set_eq.
  - by rewrite map_get_set_ne.
Qed.

Lemma tally_fold_keys records m :
  NoDup (map_keys m) → NoDup (map_keys (fold_left tallyStep records m)).
Proof.
  revert m. induction records as [|r records IH]; intros m Hm; [done |].
  simpl. apply IH. by apply map_set_NoDup.
Qed.

Lemma sum_option_fold (ss : list number) (z : number) :
  fold_left (fun acc s => Some (default 0%float acc + s)%float) ss (Some z) =
  Some (sumFrom z ss).
Proof.
  revert z. induction ss as [|s ss IH]; intros z; [done |].
  simpl. by rewrite IH.
Qed.

Lemma sum_option_start (ss : list number) :
  fold_left (fun acc s => Some (default 0%float acc + s)%float) ss None =
  match ss with
  | [] => None
  | _ :: _ => Some (sumFrom 0%float ss)
  end.
Proof. destruct ss as [|s ss]; [done |]. simpl. by rewrite sum_option_fold. Qed.

(** C2. The total [tallyScores] keeps for a player is the floating-point sum,
    taken from 0 in input order, of the scores of exactly the records whose
    [player] is that very string; a player with no record has no entry, and
    no key occurs twice. On [{A,2},{A,3},{B,1}] the totals are [{A:5, B:1}];
    keys differing in case stay apart; negative and fractional scores are
    added as they are, nothing being rounded to decimals on the way
    ([0.1 + 0.2] stays [0.30000000000000004]). *)
Theorem tallyScores_sums (records : list ScoreRecord) (p : jsstring) :
  map_get (tallyScores records) p =
    match scoresOf p records with
    | [] => None
    | _ :: _ => Some (sumFrom 0%float (scoresOf p records))
    end
  ∧ NoDup (map_keys (tallyScores records))
  ∧ tallyScores [mkScore (str "A") 2; mkScore (str "A") 3; mkScore (str "B") 1]
    = [(str "A", 5%float); (str "B", 1%float)]
  ∧ tallyScores [mkScore (str "a") 2; mkScore (str "A") 3]
    = [(str "a", 2%float); (str "A", 3%float)]
  ∧ tallyScores [mkScore (str "A") (-1.5); mkScore (str "A") 0.25; mkScore (str "A") (-4)]
    = [(str "A", (-5.25)%float)]
  ∧ tallyScores [mkScore (str "A") (Number (str "0.1")); mkScore (str "A") (Number (str "0.2"))]
    = [(str "A", Number (str "0.30000000000000004"))].
Proof.
  split_and!.
  - unfold tallyScores. rewrite tally_fold_get. simpl map_get.
    rewrite sum_option_start. by destruct (scoresOf p records).
  - apply tally_fold_keys. constructor.
  - vm_compute; reflexivity.
  - vm_compute; reflexivity.
  - vm_compute; reflexivity.
  - vm_compute; reflexivity.
Qed.

(* ------------------------------------------------------------------ *)
(** ** The sort *)
(* ------------------------------------------------------------------ *)

Section Sort.
Context {A : Type} (cmp : A → A → number).

Lemma sortInsert_perm x l : Permutation (sortInsert cmp x l) (x :: l).
Proof.
  induction l as [|y l IH]; simpl; [done |].
  destruct (sortSign (cmp x y)); try done;
    (etrans; [apply perm_skip, IH | apply perm_swap]).
Qed.

Lemma arraySort_fold_perm l acc :
  Permutation (fold_left (fun sorted x => sortInsert cmp x sorted) l acc) (acc ++ l).
Proof.
  revert acc. induction l as [|x l IH]; intros acc; simpl.
  - by rewrite app_nil_r.
  - rewrite IH, sortInsert_perm. simpl. apply Permutation_middle.
Qed.

Lemma arraySort_perm l : Permutation (arraySort cmp l) l.
Proof. unfold arraySort. by rewrite arraySort_fold_perm. Qed.

(** Under a comparator that is consistent on the elements at hand, the
    result is sorted: no element is strictly after one that follows it. *)
Variable domain : A → Prop.
Hypothesis cmp_anti : ∀ a b, domain a → domain b →
  sortSign (cmp a b) = CompOpp (sortSign (cmp b a)).
Hypothesis cmp_trans : ∀ a b c, domain a → domain b → domain c →
  notAfter cmp a b → notAfter cmp b c → notAfter cmp a c.

Lemma sortInsert_sorted x l :
  domain x → Forall domain l →
  StronglySorted (notAfter cmp) l → StronglySorted (notAfter cmp) (sortInsert cmp x l).
Proof.
  intros Hx Hl Hs. induction Hs as [|y l Hs IH Hy]; simpl.
  - repeat constructor.
  - apply Forall_cons in Hl as [Hdy Hl].
    destruct (sortSign (cmp x y)) eqn:E.
    + constructor; [by apply IH |].
      rewrite sortInsert_perm.
      constructor; [| done]. unfold notAfter.
      rewrite cmp_anti, E by done. done.
    + assert (Hxy : notAfter cmp x y) by (unfold notAfter; by rewrite E).
      constructor; [by constructor |]. constructor; [done |].
      rewrite Forall_forall in Hy, Hl |- *. intros z Hz.
      apply (cmp_trans x y z); auto.
    + constructor; [by apply IH |].
      rewrite sortInsert_perm.
      constructor; [| done]. unfold notAfter.
      rewrite cmp_anti, E by done. done.
Qed.

Lemma arraySort_fold_sorted l acc :
  Forall domain l → Forall domain acc →
  StronglySorted (notAfter cmp) acc →
  StronglySorted (notAfter cmp) (fold_left (fun sorted x => sortInsert cmp x sorted) l acc).
Proof.
  revert acc. induction l as [|x l IH]; intros acc Hl Hacc Hs; simpl; [done |].
  apply Forall_cons in Hl as [Hx Hl].
  apply IH; [done | | by apply sortInsert_sorted].
  rewrite sortInsert_perm.
  by constructor.
Qed.

Lemma arraySort_sorted l :
  Forall domain l → StronglySorted (notAfter cmp) (arraySort cmp l).
Proof. intros Hl. apply arraySort_fold_sorted; [done | constructor | constructor]. Qed.

End Sort.

Lemma StronglySorted_lookup {A} (R : A → A → Prop) (l : list A) i j x y :
  StronglySorted R l → l !! i = Some x → l !! j = Some y → (i < j)%nat → R x y.
Proof.
  intros Hs. revert i j. induction Hs as [|z l Hs IH Hz]; intros i j Hi Hj Hij.
  - done.
  - destruct i as [|i], j as [|j]; try lia; simpl in *.
    + injection Hi as ->. rewrite Forall_forall in Hz. apply Hz.
      by apply list_elem_of_lookup_2 in Hj.
    + apply (IH i j); [done | done | lia].
Qed.

(* ------------------------------------------------------------------ *)
(** ** The ranker *)
(* ------------------------------------------------------------------ *)

Lemma map_get_elem_of (m : JsMap) k v :
  NoDup (map_keys m) → (k, v) ∈ m → map_get m k = Some v.
Proof.
  unfold map_keys. induction m as [|[k' v'] m IH]; intros Hnd Hin.
  - by apply elem_of_nil in Hin.
  - rewrite fmap_cons in Hnd. apply NoDup_cons in Hnd as [Hk' Hnd].
    apply elem_of_cons in Hin as [Heq|Hin]; simpl.
    + injection Heq as -> ->. by rewrite decide_True.
    + rewrite decide_False; [by apply IH |].
      intros ->. apply Hk'. apply list_elem_of_fmap. by exists (k, v).
Qed.

Section RankerFacts.
Variable localeCompare : jsstring → jsstring → number.

Lemma createRankedArray_lookup (totalsMap : JsMap) i :
  createRankedArray localeCompare totalsMap !! i =
  (λ e, Ranked.mk (Z.of_nat i + 1) (Entry.player e) (Entry.total e)) <$>
    arraySort (compareEntries localeCompare)
      ((λ '(p, t), Entry.mk p t) <$> totalsMap) !! i.
Proof. unfold createRankedArray. apply list_lookup_imap. Qed.

Lemma createRankedArray_pairs (totalsMap : JsMap) :
  (λ r, (Ranked.player r, Ranked.total r)) <$> createRankedArray localeCompare totalsMap
  ≡ₚ totalsMap.
Proof.
  unfold createRankedArray. rewrite fmap_imap.
  erewrite imap_ext; [| intros; reflexivity].
  rewrite (imap_const (λ e, (Entry.player e, Entry.total e))).
  rewrite arraySort_perm. rewrite <- list_fmap_compose.
  erewrite list_fmap_ext; [rewrite list_fmap_id; reflexivity |].
  by intros i [p t] _.
Qed.

(** C10. The ranked array is a rearrangement of the entries of the totals
    map: as many entries as the map has keys, every key on exactly one
    entry, and on it the total the map holds for that key, unchanged. *)
Theorem createRankedArray_permutation (totalsMap : JsMap) :
  NoDup (map_keys totalsMap) →
  (λ r, (Ranked.player r, Ranked.total r)) <$> createRankedArray localeCompare totalsMap
    ≡ₚ totalsMap
  ∧ length (createRankedArray localeCompare totalsMap) = length totalsMap
  ∧ Ranked.player <$> createRankedArray localeCompare totalsMap ≡ₚ map_keys totalsMap
  ∧ NoDup (Ranked.player <$> createRankedArray localeCompare totalsMap)
  ∧ (∀ r, r ∈ createRankedArray localeCompare totalsMap →
          map_get totalsMap (Ranked.player r) = Some (Ranked.total r)).
Proof.
  intros Hnd. pose proof (createRankedArray_pairs totalsMap) as Hp.
  assert (Hk : Ranked.player <$> createRankedArray localeCompare totalsMap
               ≡ₚ map_keys totalsMap).
  { unfold map_keys. etrans; [| apply (fmap_Permutation fst), Hp].
    by rewrite <- list_fmap_compose. }
  split_and!.
  - done.
  - rewrite <- (Permutation_length Hp). by rewrite length_fmap.
  - done.
  - by rewrite Hk.
  - intros r Hr. apply map_get_elem_of; [done |].
    rewrite <- Hp. apply list_elem_of_fmap. by exists r.
Qed.

End RankerFacts.

Section RankerOrder.
Variable localeCompare : jsstring → jsstring → number.

(** On totals that are numbers the comparator orders by total, descending,
    and then by name. *)
Lemma compareEntries_sign a b :
  hasNumber a → hasNumber b →
  sortSign (compareEntries localeCompare a b) =
  match ordZ (Entry.total b) ?= ordZ (Entry.total a) with
  | Eq => sortSign (localeCompare (Entry.player a) (Entry.player b))
  | c => c
  end.
Proof.
  unfold hasNumber, compareEntries. intros Ha Hb.
  rewrite eqb_ordZ by done.
  destruct (Z.eqb_spec (ordZ (Entry.total b)) (ordZ (Entry.total a))) as [E|E]; simpl.
  - by rewrite E, Z.compare_refl.
  - rewrite sortSign_sub by done.
    destruct (Z.compare_spec (ordZ (Entry.total b)) (ordZ (Entry.total a))); done.
Qed.

Lemma notAfter_compareEntries a b :
  hasNumber a → hasNumber b →
  notAfter (compareEntries localeCompare) a b ↔
  ordZ (Entry.total b) < ordZ (Entry.total a)
  ∨ (ordZ (Entry.total b) = ordZ (Entry.total a)
     ∧ sortSign (localeCompare (Entry.player a) (Entry.player b)) ≠ Gt).
Proof.
  intros Ha Hb. unfold notAfter. rewrite compareEntries_sign by done.
  destruct (Z.compare_spec (ordZ (Entry.total b)) (ordZ (Entry.total a))) as [E|E|E].
  - split; [by right | by intros [?|[_ ?]]; [lia |]].
  - split; [by left | done].
  - split; [done | intros [?|[? _]]; lia].
Qed.

Hypothesis collation : consistentCollation localeCompare.

Lemma compareEntries_anti a b :
  hasNumber a → hasNumber b →
  sortSign (compareEntries localeCompare a b) =
  CompOpp (sortSign (compareEntries localeCompare b a)).
Proof.
  intros Ha Hb. rewrite !compareEntries_sign by done.
  rewrite (Z.compare_antisym (ordZ (Entry.total b))).
  destruct (ordZ (Entry.total b) ?= ordZ (Entry.total a)); simpl; try done.
  apply collation.
Qed.

Lemma compareEntries_trans a b c :
  hasNumber a → hasNumber b → hasNumber c →
  notAfter (compareEntries localeCompare) a b →
  notAfter (compareEntries localeCompare) b c →
  notAfter (compareEntries localeCompare) a c.
Proof.
  intros Ha Hb Hc. rewrite !notAfter_compareEntries by done.
  intros [?|[? Hab]] [?|[? Hbc]]; try (left; lia).
  right. split; [lia |]. destruct collation as [_ Ht]. by apply (Ht _ (Entry.player b)).
Qed.

Lemma sortedEntries_sorted (totalsMap : JsMap) :
  noNaNTotals totalsMap →
  StronglySorted (notAfter (compareEntries localeCompare))
    (arraySort (compareEntries localeCompare) ((λ '(p, t), Entry.mk p t) <$> totalsMap))
  ∧ Forall hasNumber
      (arraySort (compareEntries localeCompare) ((λ '(p, t), Entry.mk p t) <$> totalsMap)).
Proof.
  intros Hn.
  assert (Hd : Forall hasNumber ((λ '(p, t), Entry.mk p t) <$> totalsMap)).
  { apply Forall_fmap, Forall_forall. intros [p t] Hin. by apply (Hn p t). }
  split.
  - apply (arraySort_sorted _ hasNumber);
      [apply compareEntries_anti | apply compareEntries_trans | done].
  - by rewrite arraySort_perm.
Qed.

(** C1 (amended). On a totals map none of whose totals is [NaN], under a
    collation that is a consistent comparator, the ranked array is in
    descending order of total; of two entries with equal totals the earlier
    one does not collate after the later one; and the rank of each entry is
    its 1-based position, ties included. When ["A"] collates before ["B"],
    [{B:5, A:5}] is ranked [A] first, [B] second. *)
Theorem createRankedArray_sorted (totalsMap : JsMap) :
  noNaNTotals totalsMap →
  sortedDescendingByTotal (createRankedArray localeCompare totalsMap)
  ∧ tiesBrokenByName localeCompare (createRankedArray localeCompare totalsMap)
  ∧ ranksArePositions (createRankedArray localeCompare totalsMap)
  ∧ (sortSign (localeCompare (str "A") (str "B")) = Lt →
     createRankedArray localeCompare [(str "B", 5%float); (str "A", 5%float)] =
     [Ranked.mk 1 (str "A") 5; Ranked.mk 2 (str "B") 5]).
Proof.
  intros Hn. destruct (sortedEntries_sorted totalsMap Hn) as [Hs Hd].
  assert (Hpair : ∀ i j ri rj, (i < j)%nat →
            createRankedArray localeCompare totalsMap !! i = Some ri →
            createRankedArray localeCompare totalsMap !! j = Some rj →
            ordZ (Ranked.total rj) < ordZ (Ranked.total ri)
            ∨ (ordZ (Ranked.total rj) = ordZ (Ranked.total ri)
               ∧ sortSign (localeCompare (Ranked.player ri) (Ranked.player rj)) ≠ Gt)).
  { intros i j ri rj Hij Hi Hj.
    rewrite createRankedArray_lookup in Hi, Hj.
    apply fmap_Some in Hi as (ei & Hi & ->). apply fmap_Some in Hj as (ej & Hj & ->).
    simpl. rewrite Forall_forall in Hd.
    apply notAfter_compareEntries.
    - apply Hd. by apply list_elem_of_lookup_2 in Hi.
    - apply Hd. by apply list_elem_of_lookup_2 in Hj.
    - eapply (StronglySorted_lookup _ _ i j); eauto. }
  assert (Hnum : ∀ i r, createRankedArray localeCompare totalsMap !! i = Some r →
            is_nan (Ranked.total r) = false).
  { intros i r Hi. rewrite createRankedArray_lookup in Hi.
    apply fmap_Some in Hi as (e & Hi & ->). simpl.
    rewrite Forall_forall in Hd. apply Hd. by apply list_elem_of_lookup_2 in Hi. }
  split_and!.
  - intros i j ri rj Hij Hi Hj.
    rewrite leb_ordZ by eauto. apply Z.leb_le.
    destruct (Hpair i j ri rj Hij Hi Hj) as [?|[? _]]; lia.
  - intros i j ri rj Hij Hi Hj Heq.
    rewrite eqb_ordZ in Heq by eauto. apply Z.eqb_eq in Heq.
    destruct (Hpair i j ri rj Hij Hi Hj) as [?|[_ ?]]; [lia | done].
  - intros i r Hi. rewrite createRankedArray_lookup in Hi.
    by apply fmap_Some in Hi as (e & Hi & ->).
  - generalize (str "A") (str "B"). intros a b HAB.
    unfold createRankedArray, arraySort. cbn [fmap list_fmap fold_left sortInsert].
    assert (E : sortSign (compareEntries localeCompare (Entry.mk a 5) (Entry.mk b 5)) = Lt).
    { unfold compareEntries. cbn [Entry.total Entry.player].
      change (5 =? 5)%float with true. cbn [negb]. exact HAB. }
    by rewrite E.
Qed.

End RankerOrder.

(** *** Code-unit order is a consistent comparator *)

Lemma codeUnitCompare_sign a b : sortSign (codeUnitCompare a b) = codeUnitOrder a b.
Proof.
  revert b. induction a as [|x a IH]; intros [|y b]; simpl; try reflexivity.
  destruct (x ?= y)%N; [apply IH | reflexivity | reflexivity].
Qed.

Lemma codeUnitOrder_anti a b : codeUnitOrder a b = CompOpp (codeUnitOrder b a).
Proof.
  revert b. induction a as [|x a IH]; intros [|y b]; simpl; try reflexivity.
  rewrite (N.compare_antisym x y).
  destruct (x ?= y)%N; simpl; [apply IH | reflexivity | reflexivity].
Qed.

Lemma codeUnitOrder_trans a b c :
  codeUnitOrder a b ≠ Gt → codeUnitOrder b c ≠ Gt → codeUnitOrder a c ≠ Gt.
Proof.
  revert b c. induction a as [|x a IH]; intros [|y b] [|z c]; simpl; try done.
  destruct (N.compare_spec x y) as [->|Hxy|Hxy]; [| | done].
  - destruct (N.compare_spec y z) as [->|Hyz|Hyz]; [apply IH | done | done].
  - destruct (N.compare_spec y z) as [->|Hyz|Hyz]; [| | done]; intros _ _.
    + by rewrite (proj2 (N.compare_lt_iff x z) Hxy).
    + by rewrite (proj2 (N.compare_lt_iff x z) ltac:(lia)).
Qed.

Lemma codeUnitCompare_consistent : consistentCollation codeUnitCompare.
Proof.
  split.
  - intros a b. rewrite !codeUnitCompare_sign. apply codeUnitOrder_anti.
  - intros a b c. rewrite !codeUnitCompare_sign. apply codeUnitOrder_trans.
Qed.

Lemma createRankedArray_sorted_witness :
  noNaNTotals [(str "B", 5%float); (str "C", 7%float); (str "A", 5%float)]
  ∧ sortedDescendingByTotal
      (createRankedArray codeUnitCompare [(str "B", 5%float); (str "C", 7%float); (str "A", 5%float)])
  ∧ createRankedArray codeUnitCompare [(str "B", 5%float); (str "C", 7%float); (str "A", 5%float)]
    = [Ranked.mk 1 (str "C") 7; Ranked.mk 2 (str "A") 5; Ranked.mk 3 (str "B") 5]
  ∧ createRankedArray codeUnitCompare [(str "B", 5%float); (str "A", 5%float)]
    = [Ranked.mk 1 (str "A") 5; Ranked.mk 2 (str "B") 5].
Proof.
  assert (Hn : noNaNTotals [(str "B", 5%float); (str "C", 7%float); (str "A", 5%float)]).
  { intros p t Hin. repeat (apply elem_of_cons in Hin as [[= -> ->]|Hin]; [reflexivity |]).
    by apply elem_of_nil in Hin. }
  split; [exact Hn |]. split; [| split; [vm_compute; reflexivity |]].
  - exact (proj1 (createRankedArray_sorted codeUnitCompare codeUnitCompare_consistent _ Hn)).
  - exact (proj2 (proj2 (proj2
             (createRankedArray_sorted codeUnitCompare codeUnitCompare_consistent _ Hn)))
             ltac:(vm_compute; reflexivity)).
Defined.

(** With a [NaN] among the totals the comparator answers [NaN] whenever it
    meets it, the sort takes that for a tie, and the array is left in an
    order that is not descending. Such a total comes out of the parser and
    the tally themselves: a score of 400 digits is read as [Infinity], its
    opposite as [-Infinity], and their sum is [NaN]. *)
Lemma createRankedArray_nan_unsorted :
  tallyScores
    (parseCsv (str "PlayerID,Score,Game"
               ++ LF :: str "A," ++ replicate 400 57%N ++ str ",x"
               ++ LF :: str "A,-" ++ replicate 400 57%N ++ str ",x"
               ++ LF :: str "B,5,x"))
  = [(str "A", nan); (str "B", 5%float)]
  ∧ createRankedArray codeUnitCompare [(str "A", nan); (str "B", 5%float)]
    = [Ranked.mk 1 (str "A") nan; Ranked.mk 2 (str "B") 5]
  ∧ ¬ sortedDescendingByTotal
        (createRankedArray codeUnitCompare [(str "A", nan); (str "B", 5%float)]).
Proof.
  split_and!; [vm_compute; reflexivity | vm_compute; reflexivity |].
  intros H.
  specialize (H 0%nat 1%nat (Ranked.mk 1 (str "A") nan) (Ranked.mk 2 (str "B") 5)
                ltac:(lia) ltac:(vm_compute; reflexivity) ltac:(vm_compute; reflexivity)).
  vm_compute in H. discriminate.
Qed.

Lemma createRankedArray_permutation_witness :
  NoDup (map_keys [(str "B", 5%float); (str "A", 5%float)])
  ∧ length (createRankedArray codeUnitCompare [(str "B", 5%float); (str "A", 5%float)]) = 2%nat.
Proof.
  assert (Hnd : NoDup (map_keys [(str "B", 5%float); (str "A", 5%float)])).
  { vm_compute. repeat constructor; rewrite ?elem_of_cons, ?elem_of_nil; naive_solver. }
  split; [exact Hnd |].
  exact (proj1 (proj2 (createRankedArray_permutation codeUnitCompare _ Hnd))).
Defined.

(* ------------------------------------------------------------------ *)
(** ** Strings: searching, slicing, matching *)
(* ------------------------------------------------------------------ *)

Lemma indexOfFrom_spec c s pos :
  ((c ∉ s) ∧ indexOfFrom c s pos = -1)
  ∨ (∃ a rest, s = a ++ c :: rest ∧ (c ∉ a)
               ∧ indexOfFrom c s pos = pos + Z.of_nat (length a)).
Proof.
  revert pos. induction s as [|x s IH]; intros pos; simpl.
  - left. split; [apply not_elem_of_nil | done].
  - destruct (N.eqb_spec x c) as [->|Hne].
    + right. exists [], s. split_and!; [done | apply not_elem_of_nil | simpl; lia].
    + destruct (IH (pos + 1)) as [[Hnot ->]|(a & rest & -> & Hnot & ->)].
      * left. split; [| done]. rewrite not_elem_of_cons. split; [congruence | done].
      * right. exists (x :: a), rest. split_and!; [done | | simpl length; lia].
        rewrite not_elem_of_cons. split; [congruence | done].
Qed.

Lemma indexOf_from_start s c :
  indexOf s c 0 = indexOfFrom c s 0.
Proof.
  unfold indexOf. replace (Z.to_nat _) with 0%nat by lia. by rewrite drop_0.
Qed.

Lemma indexOf_after (a rest : jsstring) c :
  indexOf (a ++ c :: rest) c (Z.of_nat (length a) + 1) =
  indexOfFrom c rest (Z.of_nat (length a) + 1).
Proof.
  unfold indexOf. rewrite length_app. simpl length.
  replace (Z.to_nat _) with (length a + 1)%nat by lia.
  rewrite <- drop_drop, drop_app_length. simpl drop. rewrite drop_0.
  f_equal. lia.
Qed.

Lemma slice_prefix (a rest : jsstring) :
  slice (a ++ rest) 0 (Z.of_nat (length a)) = a.
Proof.
  unfold slice. rewrite length_app. cbn [Z.ltb Z.compare].
  destruct (Z.ltb_spec (Z.of_nat (length a)) 0) as [|_]; [lia |].
  replace (Z.to_nat (0 `min` _)) with 0%nat by lia.
  replace (Z.to_nat _) with (length a) by lia.
  by rewrite drop_0, take_app_length.
Qed.

Lemma slice_middle (a b rest : jsstring) c :
  slice (a ++ c :: b ++ rest) (Z.of_nat (length a) + 1)
        (Z.of_nat (length a) + 1 + Z.of_nat (length b)) = b.
Proof.
  unfold slice. rewrite !length_app. simpl length. rewrite length_app.
  destruct (Z.ltb_spec (Z.of_nat (length a) + 1) 0) as [|_]; [lia |].
  destruct (Z.ltb_spec (Z.of_nat (length a) + 1 + Z.of_nat (length b)) 0) as [|_]; [lia |].
  rewrite !Z.min_l by lia.
  replace (Z.to_nat (Z.of_nat (length a) + 1)) with (length a + 1)%nat by lia.
  replace (Z.to_nat _) with (length b) by lia.
  rewrite <- drop_drop, drop_app_length. simpl drop. rewrite drop_0.
  by rewrite take_app_length.
Qed.

Section Runs.
Context {A : Type} (f : A → bool).

Lemma takeWhile_dropWhile l : takeWhile f l ++ dropWhile f l = l.
Proof. induction l as [|x l IH]; simpl; [done |]. destruct (f x); simpl; congruence. Qed.

Lemma takeWhile_Forall l : Forall (λ x, f x = true) (takeWhile f l).
Proof.
  induction l as [|x l IH]; simpl; [constructor |].
  destruct (f x) eqn:E; by constructor.
Qed.

Lemma dropWhile_head l x r : dropWhile f l = x :: r → f x = false.
Proof.
  induction l as [|y l IH]; simpl; [done |].
  destruct (f y) eqn:E; [done |]. by intros [= -> _].
Qed.

(** A run of elements that pass, followed by nothing or by one that fails,
    is what [takeWhile] takes. *)
Lemma takeWhile_run l r :
  Forall (λ x, f x = true) l → (∀ x, head r = Some x → f x = false) →
  takeWhile f (l ++ r) = l ∧ dropWhile f (l ++ r) = r.
Proof.
  intros Hl Hr. induction Hl as [|x l Hx Hl IH]; simpl.
  - destruct r as [|y r]; simpl; [done |]. by rewrite (Hr y).
  - rewrite Hx. destruct IH as [-> ->]. done.
Qed.

(** Any prefix of elements that pass is within what [takeWhile] takes. *)
Lemma takeWhile_longest l r :
  Forall (λ x, f x = true) l → (length l ≤ length (takeWhile f (l ++ r)))%nat.
Proof.
  intros Hl. induction Hl as [|x l Hx Hl IH]; simpl; [lia |].
  rewrite Hx. simpl. lia.
Qed.

End Runs.

Lemma isDigit_DOT : isDigit DOT = false.
Proof. reflexivity. Qed.

Lemma isDigit_MINUS : isDigit MINUS = false.
Proof. reflexivity. Qed.

Lemma UnsignedToken_head t : UnsignedToken t → ∃ c r, t = c :: r ∧ isDigit c = true.
Proof.
  intros [ds [Hne Hd]|ds fs [Hne Hd] _]; destruct Hd as [|c r Hc _]; try done.
  - by exists c, r.
  - by exists c, (r ++ DOT :: fs).
Qed.

(** What [matchDigits] returns is an unsigned token at the head of the
    string, and the longest one there. *)
Lemma matchDigits_Some s t :
  matchDigits s = Some t →
  ∃ post, s = t ++ post ∧ UnsignedToken t
          ∧ ∀ t' post', s = t' ++ post' → UnsignedToken t' → (length t' ≤ length t)%nat.
Proof.
  unfold matchDigits. intros H.
  pose proof (takeWhile_dropWhile isDigit s) as Hs.
  pose proof (takeWhile_Forall isDigit s) as Hds.
  remember (takeWhile isDigit s) as D eqn:ED0.
  remember (dropWhile isDigit s) as R eqn:ER0.
  assert (HR : ∀ x, head R = Some x → isDigit x = false).
  { intros x Hx. destruct R as [|y R']; [done |].
    injection Hx as ->. by apply (dropWhile_head isDigit s x R'). }
  destruct D as [|d D'] eqn:ED; [done |].
  assert (HD : digitRun (d :: D')) by (split; done).
  (* what an unsigned token at the head of [s] looks like *)
  assert (Hint : ∀ ds post', s = ds ++ post' → digitRun ds →
                 (length ds ≤ length (d :: D'))%nat).
  { intros ds post' E [_ Hd]. rewrite ED0, E. by apply takeWhile_longest. }
  assert (Hfrac : ∀ ds fs post', s = (ds ++ DOT :: fs) ++ post' → digitRun ds → digitRun fs →
                  ds = d :: D' ∧ R = DOT :: fs ++ post').
  { intros ds fs post' E [_ Hd] _. rewrite <- app_assoc in E. simpl in E.
    destruct (takeWhile_run isDigit ds (DOT :: fs ++ post') Hd) as [E1 E2].
    { intros x [= <-]. reflexivity. }
    rewrite <- E, <- ED0 in E1. rewrite <- E, <- ER0 in E2. done. }
  destruct R as [|c r] eqn:ER.
  - (* nothing after the digits *)
    injection H as <-. exists []. split_and!; [by rewrite <- Hs | by constructor |].
    intros t' post' E Ht; destruct Ht as [ds Hd|ds fs Hd Hf]; [exact (Hint _ _ E Hd) |].
    by destruct (Hfrac ds fs post' E Hd Hf) as [_ ?].
  - destruct (N.eqb_spec c DOT) as [->|Hc].
    + destruct (takeWhile isDigit r) as [|f0 F'] eqn:EF.
      * (* a point, but no digit after it *)
        injection H as <-. exists (DOT :: r). split_and!; [by rewrite <- Hs | by constructor |].
        intros t' post' E Ht; destruct Ht as [ds Hd|ds fs Hd Hf]; [exact (Hint _ _ E Hd) |].
        destruct (Hfrac ds fs post' E Hd Hf) as [_ [= ->]].
        destruct Hf as [Hne Hf]. destruct Hf as [|x fs Hx Hf]; [done |].
        simpl in EF. by rewrite Hx in EF.
      * (* a point and digits *)
        injection H as <-.
        pose proof (takeWhile_dropWhile isDigit r) as Hr. rewrite EF in Hr.
        pose proof (takeWhile_Forall isDigit r) as HF. rewrite EF in HF.
        exists (dropWhile isDigit r). split_and!.
        -- rewrite <- Hs. simpl. f_equal. rewrite <- app_assoc. simpl.
           simpl in Hr. by rewrite Hr.
        -- apply (unsigned_fraction (d :: D') (f0 :: F')); [done | split; done].
        -- intros t' post' E Ht; destruct Ht as [ds Hd|ds fs Hd Hf].
           ++ specialize (Hint ds post' E Hd).
              change (d :: D' ++ DOT :: f0 :: F') with ((d :: D') ++ DOT :: f0 :: F').
              rewrite length_app. lia.
           ++ destruct (Hfrac ds fs post' E Hd Hf) as [-> [= ->]].
              change (d :: D' ++ DOT :: f0 :: F') with ((d :: D') ++ DOT :: f0 :: F').
              rewrite !length_app. simpl length.
              destruct Hf as [_ Hf].
              pose proof (takeWhile_longest isDigit fs post' Hf) as Hl.
              rewrite EF in Hl. simpl in Hl. lia.
    + (* something else after the digits *)
      injection H as <-. exists (c :: r). split_and!; [by rewrite <- Hs | by constructor |].
      intros t' post' E Ht; destruct Ht as [ds Hd|ds fs Hd Hf]; [exact (Hint _ _ E Hd) |].
      destruct (Hfrac ds fs post' E Hd Hf) as [_ [= -> _]]. done.
Qed.

Lemma matchDigits_None s t post :
  matchDigits s = None → s = t ++ post → ¬ UnsignedToken t.
Proof.
  unfold matchDigits. intros H -> Ht.
  apply UnsignedToken_head in Ht as (c & r & -> & Hc).
  simpl in H. rewrite Hc in H.
  destruct (dropWhile isDigit (r ++ post)) as [|x y]; [done |].
  destruct (x =? DOT)%N; [| done].
  by destruct (takeWhile isDigit y).
Qed.

Lemma NumberToken_head t :
  NumberToken t →
  ∃ c r, t = c :: r ∧ ((c = MINUS ∧ UnsignedToken r) ∨ (c ≠ MINUS ∧ UnsignedToken t)).
Proof.
  intros [u Hu|u Hu].
  - destruct (UnsignedToken_head u Hu) as (c & r & -> & Hc).
    exists c, r. split; [done |]. right. split; [| done].
    intros ->. by rewrite isDigit_MINUS in Hc.
  - exists MINUS, u. split; [done |]. by left.
Qed.

(** The pattern anchored at the head of [s]: the longest token there. *)
Lemma matchNumberAt_Some s t :
  matchNumberAt s = Some t →
  ∃ post, s = t ++ post ∧ NumberToken t
          ∧ ∀ t' post', s = t' ++ post' → NumberToken t' → (length t' ≤ length t)%nat.
Proof.
  unfold matchNumberAt. destruct s as [|c r]; [done |].
  assert (Hplain : matchDigits (c :: r) = Some t → c ≠ MINUS →
            ∃ post, c :: r = t ++ post ∧ NumberToken t
              ∧ ∀ t' post', c :: r = t' ++ post' → NumberToken t' →
                            (length t' ≤ length t)%nat).
  { intros H Hc. destruct (matchDigits_Some _ _ H) as (post & E & Ht & Hmax).
    exists post. split_and!; [done | by constructor |].
    intros t' post' E' Ht'.
    destruct (NumberToken_head t' Ht') as (c' & r' & -> & [[-> _]|[_ Hu]]).
    - by injection E' as ->.
    - by apply (Hmax _ post'). }
  destruct (N.eqb_spec c MINUS) as [->|Hc]; [| by intros H; apply Hplain].
  destruct (matchDigits r) as [u|] eqn:Er.
  - intros [= <-]. destruct (matchDigits_Some _ _ Er) as (post & -> & Hu & Hmax).
    exists post. split_and!; [done | by constructor |].
    intros t' post' E' Ht'.
    destruct (NumberToken_head t' Ht') as (c' & r' & -> & [[-> Hr']|[Hc' _]]).
    + injection E' as E'. simpl. specialize (Hmax r' post' E' Hr'). lia.
    + by injection E' as <-.
  - intros H. exfalso.
    destruct (matchDigits_Some _ _ H) as (post' & E' & Ht & _).
    apply UnsignedToken_head in Ht as (c' & r' & -> & Hc').
    injection E' as <-. by rewrite isDigit_MINUS in Hc'.
Qed.

Lemma matchNumberAt_None s t post :
  matchNumberAt s = None → s = t ++ post → ¬ NumberToken t.
Proof.
  unfold matchNumberAt. intros H -> Ht.
  destruct (NumberToken_head t Ht) as (c & r & -> & [[-> Hu]|[Hc Hu]]); simpl in H.
  - destruct (matchDigits (r ++ post)) eqn:E; [done |].
    by apply (matchDigits_None _ r post E).
  - destruct (N.eqb_spec c MINUS) as [|_]; [done |].
    by apply (matchDigits_None _ (c :: r) post H).
Qed.

Lemma NumberToken_nonempty t : NumberToken t → t ≠ [].
Proof. intros Ht. by destruct (NumberToken_head t Ht) as (c & r & -> & _). Qed.

(** [matchNumber] finds the first match of the pattern, or none where there
    is none. *)
Lemma matchNumber_spec s :
  match matchNumber s with
  | Some t => FirstMatch s t
  | None => NoMatch s
  end.
Proof.
  induction s as [|x s IH].
  - simpl. intros pre t post E Ht.
    symmetry in E. apply app_eq_nil in E as [_ E]. apply app_eq_nil in E as [E _].
    by apply NumberToken_nonempty in Ht.
  - cbn [matchNumber]. destruct (matchNumberAt (x :: s)) as [t|] eqn:Eat.
    + destruct (matchNumberAt_Some _ _ Eat) as (post & E & Ht & Hmax).
      exists [], post. split_and!; [done | done |].
      intros pre' t' post' E' Ht'. split; [simpl; lia |].
      intros Hl. destruct pre' as [|? ?]; [| done]. by apply (Hmax t' post').
    + destruct (matchNumber s) as [t|].
      * destruct IH as (pre & post & -> & Ht & Hfirst).
        exists (x :: pre), post. split_and!; [done | done |].
        intros pre' t' post' E' Ht'. destruct pre' as [|y pre'].
        -- exfalso. by apply (matchNumberAt_None _ t' post' Eat).
        -- injection E' as <- E'. destruct (Hfirst pre' t' post' E' Ht') as [H1 H2].
           simpl. split; [lia |]. intros Hl. apply H2. lia.
      * intros pre t post E Ht. destruct pre as [|y pre].
        -- by apply (matchNumberAt_None _ t post Eat).
        -- injection E as <- E. by apply (IH pre t post).
Qed.

Lemma FirstMatch_unique s t1 t2 : FirstMatch s t1 → FirstMatch s t2 → t1 = t2.
Proof.
  intros (pre1 & post1 & E1 & Ht1 & H1) (pre2 & post2 & E2 & Ht2 & H2).
  destruct (H1 pre2 t2 post2 E2 Ht2) as [Hle1 Hlen1].
  destruct (H2 pre1 t1 post1 E1 Ht1) as [Hle2 Hlen2].
  assert (Hpre : length pre1 = length pre2) by lia.
  rewrite E1 in E2. apply app_inj_1 in E2 as [_ E2]; [| done].
  apply app_inj_1 in E2 as [E2 _]; [done |].
  specialize (Hlen1 ltac:(lia)). specialize (Hlen2 ltac:(lia)). lia.
Qed.

Lemma FirstMatch_NoMatch s t : FirstMatch s t → NoMatch s → False.
Proof. intros (pre & post & E & Ht & _) Hn. by apply (Hn pre t post). Qed.

Lemma matchNumber_FirstMatch s t : matchNumber s = Some t ↔ FirstMatch s t.
Proof.
  pose proof (matchNumber_spec s) as H. split.
  - intros E. by rewrite E in H.
  - intros Ht. destruct (matchNumber s) as [t0|].
    + f_equal. by apply (FirstMatch_unique s).
    + by destruct (FirstMatch_NoMatch s t).
Qed.

Lemma matchNumber_NoMatch s : matchNumber s = None ↔ NoMatch s.
Proof.
  pose proof (matchNumber_spec s) as H. split.
  - intros E. by rewrite E in H.
  - intros Hn. destruct (matchNumber s) as [t0|]; [| done].
    by destruct (FirstMatch_NoMatch s t0).
Qed.

(* ------------------------------------------------------------------ *)
(** ** [Number] on the matches of the pattern *)
(* ------------------------------------------------------------------ *)

Lemma allDigits_digitRun ds : digitRun ds → allDigits ds = true.
Proof.
  intros [Hne Hd]. unfold allDigits. destruct ds as [|c ds]; [done |]. simpl negb.
  rewrite andb_true_l. apply forallb_forall. intros x Hx.
  rewrite Forall_forall in Hd. apply Hd. by apply list_elem_of_In.
Qed.

Lemma digitsValue_nonneg ds :
  Forall (λ c, isDigit c = true) ds → 0 ≤ digitsValue ds.
Proof.
  unfold digitsValue. intros Hd.
  assert (H : ∀ acc, 0 ≤ acc →
            0 ≤ fold_left (λ acc c, 10 * acc + (Z.of_N c - 48)) ds acc).
  { induction Hd as [|c ds Hc Hd IH]; intros acc Hacc; simpl; [done |].
    apply IH. unfold isDigit in Hc. apply andb_true_iff in Hc as [Hc _].
    apply N.leb_le in Hc. lia. }
  by apply H.
Qed.

Lemma NumberOfUnsigned_token neg u :
  UnsignedToken u → is_nan (NumberOfUnsigned neg u) = false.
Proof.
  intros [ds Hd|ds fs Hd Hf]; unfold NumberOfUnsigned.
  - destruct (takeWhile_run isDigit ds [] (proj2 Hd)) as [E1 E2]; [done |].
    rewrite app_nil_r in E1, E2. rewrite E1, E2, (allDigits_digitRun ds Hd).
    apply SF2Prim_not_nan, roundRatio_not_nan; [| lia].
    apply digitsValue_nonneg, Hd.
  - destruct (takeWhile_run isDigit ds (DOT :: fs) (proj2 Hd)) as [E1 E2].
    { by intros x [= <-]. }
    rewrite E1, E2, N.eqb_refl, (allDigits_digitRun ds Hd), (allDigits_digitRun fs Hf).
    simpl andb. cbv iota.
    apply SF2Prim_not_nan, roundRatio_not_nan.
    + apply digitsValue_nonneg, Forall_app. split; [apply Hd | apply Hf].
    + apply Z.pow_pos_nonneg; lia.
Qed.

(** The conversion on samples: exact values, the sign of zero, a tie broken
    to the even neighbour, the nearest value to a decimal fraction, overflow
    and underflow. *)
Lemma Number_samples :
  Number (str "2.5") = 2.5%float
  ∧ Number (str "-12.50") = (-12.5)%float
  ∧ Number (str "-0") = (-0)%float
  ∧ Number (str "9007199254740993") = 9007199254740992%float
  ∧ Number (str "0.1") = (1 / 10)%float
  ∧ Number (str "0.30000000000000004") = (Number (str "0.1") + Number (str "0.2"))%float
  ∧ (Number (str "0.3") =? Number (str "0.1") + Number (str "0.2"))%float = false
  ∧ Number (replicate 400 57%N) = infinity
  ∧ Number (str "0." ++ replicate 400 48%N ++ str "1") = 0%float.
Proof. split_and!; vm_compute; reflexivity. Qed.

(** The conversion of a match is never [NaN]: the test [Number.isNaN(score)]
    of [parseCsv] never drops a line. *)
Lemma Number_token t : NumberToken t → is_nan (Number t) = false.
Proof.
  intros [u Hu|u Hu]; unfold Number.
  - destruct (UnsignedToken_head u Hu) as (c & r & -> & Hc).
    destruct (N.eqb_spec c MINUS) as [->|_]; [by rewrite isDigit_MINUS in Hc |].
    by apply NumberOfUnsigned_token.
  - rewrite N.eqb_refl. by apply NumberOfUnsigned_token.
Qed.

(* ------------------------------------------------------------------ *)
(** ** The parser, line by line *)
(* ------------------------------------------------------------------ *)

Lemma split_at_first_unique (c : N) a r a' r' :
  c ∉ a → c ∉ a' → a ++ c :: r = a' ++ c :: r' → a = a' ∧ r = r'.
Proof.
  revert a'. induction a as [|x a IH]; intros [|y a'] Ha Ha' E; simpl in E.
  - by injection E as ->.
  - injection E as <- _. exfalso. apply Ha'. left.
  - injection E as -> _. exfalso. apply Ha. left.
  - injection E as -> E. rewrite not_elem_of_cons in Ha, Ha'.
    destruct (IH a' (proj2 Ha) (proj2 Ha') E) as [-> ->]. done.
Qed.

(** What [parseLine] does, by the commas of the trimmed line. *)
Lemma parseLine_cases raw :
  ((COMMA ∉ trim raw) ∧ parseLine raw = None)
  ∨ (∃ a b, trim raw = a ++ COMMA :: b ∧ (COMMA ∉ a) ∧ (COMMA ∉ b)
            ∧ parseLine raw = None)
  ∨ (∃ a b c, trim raw = a ++ COMMA :: b ++ COMMA :: c ∧ (COMMA ∉ a) ∧ (COMMA ∉ b)
              ∧ parseLine raw =
                if isEmpty (trim a) then None
                else match matchNumber (trim b) with
                     | None => None
                     | Some t => Some {| player := trim a; score := Number t |}
                     end).
Proof.
  unfold parseLine. rewrite indexOf_from_start.
  destruct (indexOfFrom_spec COMMA (trim raw) 0) as [[Hno ->]|(a & rest & E & Ha & ->)].
  - left. split; [done |]. by destruct (isEmpty (trim raw)).
  - right. rewrite E. replace (isEmpty (a ++ COMMA :: rest)) with false by by destruct a.
    destruct (Z.eqb_spec (0 + Z.of_nat (length a)) (-1)) as [|_]; [lia |].
    rewrite Z.add_0_l, indexOf_after.
    destruct (indexOfFrom_spec COMMA rest (Z.of_nat (length a) + 1))
      as [[Hno ->]|(b & c & -> & Hb & ->)].
    + left. by exists a, rest.
    + right. exists a, b, c. split_and!; [done | done | done |].
      destruct (Z.eqb_spec (Z.of_nat (length a) + 1 + Z.of_nat (length b)) (-1)) as [|_]; [lia |].
      rewrite slice_prefix.
      rewrite (slice_middle a b (COMMA :: c) COMMA).
      destruct (isEmpty (trim a)); [done |].
      destruct (matchNumber (trim b)) as [t|] eqn:Em; [| done].
      apply matchNumber_FirstMatch in Em as (_ & _ & _ & Ht & _).
      by rewrite (Number_token t Ht).
Qed.

Lemma isEmpty_true s : isEmpty s = true ↔ s = [].
Proof. by destruct s. Qed.

Lemma parseLine_None raw : parseLine raw = None ↔ SkippedLine (trim raw).
Proof.
  destruct (parseLine_cases raw)
    as [[Hno E]|[(a & b & El & Ha & Hb & E)|(a & b & c & El & Ha & Hb & E)]].
  - split; [by left | done].
  - split; [intros _; right; left; by exists a, b | done].
  - rewrite E. split.
    + intros H. right. right. exists a, b, c. split_and!; [done | done | done |].
      destruct (isEmpty (trim a)) eqn:Ee; [left; by apply isEmpty_true |].
      right. apply matchNumber_NoMatch. by destruct (matchNumber (trim b)).
    + intros [Hno|[(a' & b' & El' & Ha' & Hb')|(a' & b' & c' & El' & Ha' & Hb' & H)]].
      * exfalso. apply Hno. rewrite El. set_solver.
      * exfalso. rewrite El in El'.
        destruct (split_at_first_unique COMMA _ _ _ _ Ha Ha' El') as [_ <-].
        apply Hb'. set_solver.
      * rewrite El in El'.
        destruct (split_at_first_unique COMMA _ _ _ _ Ha Ha' El') as [<- El''].
        destruct (split_at_first_unique COMMA _ _ _ _ Hb Hb' El'') as [<- _].
        destruct H as [->|Hn]; [done |].
        apply matchNumber_NoMatch in Hn. rewrite Hn. by destruct (isEmpty (trim a)).
Qed.

Lemma parseLine_Some raw r :
  parseLine raw = Some r ↔
  ∃ token, ReadsAs (trim raw) (player r) token ∧ score r = Number token.
Proof.
  destruct (parseLine_cases raw)
    as [[Hno E]|[(a & b & El & Ha & Hb & E)|(a & b & c & El & Ha & Hb & E)]].
  - rewrite E. split; [done |].
    intros (t & (a' & b' & c' & El' & _) & _). exfalso. apply Hno. rewrite El'. set_solver.
  - rewrite E. split; [done |].
    intros (t & (a' & b' & c' & El' & Ha' & Hb' & _) & _). exfalso.
    rewrite El in El'.
    destruct (split_at_first_unique COMMA _ _ _ _ Ha Ha' El') as [_ ->].
    apply Hb. set_solver.
  - rewrite E. split.
    + destruct (isEmpty (trim a)) eqn:Ee; [done |].
      destruct (matchNumber (trim b)) as [t|] eqn:Em; [| done].
      intros [= <-]. exists t. split; [| done].
      exists a, b, c. split_and!; try done.
      * intros Hnil. by rewrite Hnil in Ee.
      * by apply matchNumber_FirstMatch.
    + intros (t & (a' & b' & c' & El' & Ha' & Hb' & Hne & Hp & Hm) & Hs).
      rewrite El in El'.
      destruct (split_at_first_unique COMMA _ _ _ _ Ha Ha' El') as [<- El''].
      destruct (split_at_first_unique COMMA _ _ _ _ Hb Hb' El'') as [<- _].
      apply matchNumber_FirstMatch in Hm. rewrite Hm.
      destruct (isEmpty (trim a)) eqn:Ee; [by apply isEmpty_true in Ee |].
      destruct r as [p s]. simpl in Hp, Hs. by subst.
Qed.

(** [parseCsv] keeps, in order, what the lines after the first contribute. *)
Lemma parseCsv_fold lines acc :
  fold_left parseStep lines acc = acc ++ omap parseLine lines.
Proof.
  revert acc. induction lines as [|l lines IH]; intros acc; simpl.
  - by rewrite app_nil_r.
  - rewrite IH. unfold parseStep. destruct (parseLine l); [| done].
    by rewrite <- app_assoc.
Qed.

Lemma splitLines_nonempty s : splitLines s ≠ [].
Proof.
  destruct s as [|c s]; simpl; [done |].
  destruct (c =? LF)%N; [done |].
  destruct s as [|c2 s]; [by destruct (splitLines []) |].
  destruct ((c =? CR) && (c2 =? LF))%N; [done |].
  by destruct (splitLines (c2 :: s)).
Qed.

Lemma parseCsv_lines text :
  parseCsv text = omap parseLine (drop 1 (splitLines (trim text))).
Proof.
  unfold parseCsv.
  destruct (splitLines (trim text)) as [|header [|l lines]] eqn:E; simpl; try done.
  rewrite (parseCsv_fold lines). unfold parseStep. by destruct (parseLine l).
Qed.

(** C3. A data line, once trimmed, is dropped exactly when it has no comma,
    or no second comma after the first, or nothing but white space before
    the first comma, or no match of the pattern between the first two
    commas; otherwise it yields the record whose player is the trimmed text
    before the first comma and whose score is [Number] of the first match of
    the pattern in the trimmed text between the two commas, whatever comes
    after the second comma. Nothing is raised: [parseLine] is a total
    function, and [parseCsv] collects what it returns on the data lines.
    ["X"] and ["Y,"] are dropped; ["Z,abc2.5xyz,note"] gives [2.5] to [Z]. *)
Theorem parseLine_spec (raw : jsstring) :
  (parseLine raw = None ↔ SkippedLine (trim raw))
  ∧ (∀ r, parseLine raw = Some r ↔
          ∃ token, ReadsAs (trim raw) (player r) token ∧ score r = Number token)
  ∧ (∀ text, parseCsv text = omap parseLine (drop 1 (splitLines (trim text))))
  ∧ parseLine (str "X") = None
  ∧ parseLine (str "Y,") = None
  ∧ parseLine (str "Z,abc2.5xyz,note") = Some (mkScore (str "Z") 2.5)
  ∧ parseCsv (str "PlayerID,Score,Game" ++ LF :: str "X" ++ LF :: str "Y,"
              ++ LF :: str "Z,abc2.5xyz,note")
    = [mkScore (str "Z") 2.5].
Proof.
  split_and!.
  - apply parseLine_None.
  - apply parseLine_Some.
  - apply parseCsv_lines.
  - vm_compute; reflexivity.
  - vm_compute; reflexivity.
  - vm_compute; reflexivity.
  - vm_compute; reflexivity.
Qed.

(* ------------------------------------------------------------------ *)
(** ** [Promise.all] *)
(* ------------------------------------------------------------------ *)

Lemma elem_of_rev {A} (x : A) l : x ∈ rev l ↔ x ∈ l.
Proof. rewrite !list_elem_of_In. symmetry. apply in_rev. Qed.

Section PromiseAll.
Context {A : Type}.

Lemma slotsAfter_nil (values : list A) :
  replicate (length values) None = slotsAfter [] values.
Proof.
  apply list_eq. intros i. unfold slotsAfter. rewrite list_lookup_imap.
  destruct (values !! i) as [v|] eqn:E; simpl.
  - by rewrite lookup_replicate_2; [| by apply lookup_lt_Some in E].
  - apply lookup_replicate_None. by apply lookup_ge_None.
Qed.

Lemma slotsAfter_insert (settled : list nat) (values : list A) i v :
  values !! i = Some v →
  <[i := Some v]> (slotsAfter settled values) = slotsAfter (i :: settled) values.
Proof.
  intros Hi. apply list_eq. intros j. unfold slotsAfter.
  rewrite list_lookup_imap.
  destruct (decide (i = j)) as [<-|Hne].
  - rewrite list_lookup_insert_eq.
    + rewrite Hi. simpl. rewrite decide_True; [done | left].
    + rewrite length_imap. by apply lookup_lt_Some in Hi.
  - rewrite list_lookup_insert_ne by done. rewrite list_lookup_imap.
    destruct (values !! j) as [vj|]; simpl; [| done].
    destruct (decide (j ∈ settled)) as [Hin|Hin].
    + rewrite decide_True; [done | by right].
    + rewrite decide_False; [done |]. rewrite not_elem_of_cons. by split.
Qed.

Lemma slotsAfter_skip (settled : list nat) (values : list A) i :
  values !! i = None → slotsAfter settled values = slotsAfter (i :: settled) values.
Proof.
  intros Hi. apply list_eq. intros j. unfold slotsAfter. rewrite !list_lookup_imap.
  destruct (values !! j) as [vj|] eqn:Ej; simpl; [| done].
  destruct (decide (j ∈ settled)) as [Hin|Hin].
  - rewrite decide_True; [done | by right].
  - rewrite decide_False; [done |]. rewrite not_elem_of_cons. split; [| done].
    intros ->. congruence.
Qed.

(** When every promise is fulfilled, whatever the order in which they
    settle, each value lands in the slot of its own index. *)
Lemma settleAll_fulfilled (values : list A) order settled :
  settleAll (Fulfilled <$> values) order (slotsAfter settled values) =
  Fulfilled (slotsAfter (rev order ++ settled) values).
Proof.
  revert settled. induction order as [|i order IH]; intros settled; simpl; [done |].
  rewrite list_lookup_fmap. destruct (values !! i) as [v|] eqn:Ei; simpl.
  - rewrite (slotsAfter_insert _ _ _ _ Ei), IH. by rewrite <- app_assoc.
  - rewrite (slotsAfter_skip _ _ _ Ei), IH. by rewrite <- app_assoc.
Qed.

Lemma slotsAfter_mapM (settled : list nat) (values vs : list A) :
  mapM id (slotsAfter settled values) = Some vs → vs = values.
Proof.
  intros H. apply mapM_Some in H. apply list_eq. intros i.
  destruct (values !! i) as [v|] eqn:Ev.
  - assert (Hs : slotsAfter settled values !! i =
                 Some (if decide (i ∈ settled) then Some v else None)).
    { unfold slotsAfter. by rewrite list_lookup_imap, Ev. }
    destruct (Forall2_lookup_l _ _ _ i _ H Hs) as (y & Hy & Hid).
    rewrite Hy. destruct (decide (i ∈ settled)); simpl in Hid; congruence.
  - destruct (vs !! i) as [y|] eqn:Ey; [| done].
    destruct (Forall2_lookup_r _ _ _ i _ H Ey) as (x & Hx & _).
    unfold slotsAfter in Hx. rewrite list_lookup_imap, Ev in Hx. done.
Qed.

Lemma slotsAfter_all (settled : list nat) (values : list A) :
  (∀ i, (i < length values)%nat → i ∈ settled) →
  slotsAfter settled values = Some <$> values.
Proof.
  intros Hall. apply list_eq. intros i. unfold slotsAfter.
  rewrite list_lookup_imap, list_lookup_fmap.
  destruct (values !! i) as [v|] eqn:Ev; simpl; [| done].
  rewrite decide_True; [done |]. apply Hall. by apply lookup_lt_Some in Ev.
Qed.

Lemma mapM_id_Some (values : list A) : mapM id (Some <$> values) = Some values.
Proof.
  apply mapM_Some. apply Forall2_fmap_l. by apply Forall_Forall2_diag, Forall_forall.
Qed.

(** [Promise.all] over tasks that are all fulfilled: the result, if any, is
    the list of their values in the order of the tasks; and there is one as
    soon as every task settles. *)
Lemma promiseAll_fulfilled (tasks : list (Async A)) (values : list A) w log log' :
  startAll tasks w log = (Fulfilled <$> values, log') →
  length values = length tasks →
  snd (promiseAll tasks w log) = log'
  ∧ (fst (promiseAll tasks w log) = Fulfilled values
     ∨ fst (promiseAll tasks w log) = Pending)
  ∧ (settleOrder w (length tasks) ≡ₚ seq 0 (length tasks) →
     fst (promiseAll tasks w log) = Fulfilled values).
Proof.
  intros Hstart Hlen. unfold promiseAll. rewrite Hstart, <- Hlen.
  rewrite slotsAfter_nil, settleAll_fulfilled.
  destruct (mapM id _) as [vs|] eqn:Em; simpl.
  - apply slotsAfter_mapM in Em as ->. split_and!; [done | by left | done].
  - split_and!; [done | by right |].
    intros Hperm. exfalso. rewrite slotsAfter_all, mapM_id_Some in Em; [done |].
    intros i Hi. rewrite app_nil_r, elem_of_rev, Hperm.
    apply elem_of_seq. lia.
Qed.

End PromiseAll.

(* ------------------------------------------------------------------ *)
(** ** The Hall of Fame *)
(* ------------------------------------------------------------------ *)

Lemma tallyScores_nonempty r records : tallyScores (r :: records) ≠ [].
Proof.
  intros H.
  pose proof (tally_fold_get (r :: records) [] (player r)) as Hg.
  fold (tallyScores (r :: records)) in Hg. rewrite H in Hg. simpl map_get in Hg.
  unfold scoresOf in Hg. rewrite filter_cons, decide_True in Hg by done.
  rewrite fmap_cons in Hg. simpl in Hg. by rewrite sum_option_fold in Hg.
Qed.

Section HallOfFame.
Variable localeCompare : jsstring → jsstring → number.

Lemma createRankedArray_length (totalsMap : JsMap) :
  length (createRankedArray localeCompare totalsMap) = length totalsMap.
Proof.
  rewrite <- (Permutation_length (createRankedArray_pairs localeCompare totalsMap)).
  by rewrite length_fmap.
Qed.

Lemma rankedOf_nil csv : rankedOf localeCompare csv = [] ↔ parseCsv csv = [].
Proof.
  unfold rankedOf. split.
  - intros H. destruct (parseCsv csv) as [|r records]; [done |].
    pose proof (createRankedArray_length (tallyScores (r :: records))) as Hl.
    rewrite H in Hl. simpl in Hl.
    destruct (tallyScores (r :: records)) eqn:E; [| done].
    by apply tallyScores_nonempty in E.
  - by intros ->.
Qed.

Lemma isCurrentSplit_decide (s currentInfo : SplitInfo.t) :
  (SplitInfo.year s =? SplitInfo.year currentInfo)
  && (SplitInfo.split s =? SplitInfo.split currentInfo)
  = bool_decide (s = currentInfo).
Proof.
  destruct s as [y sp], currentInfo as [cy cs]. simpl.
  destruct (Z.eqb_spec y cy) as [->|Hy], (Z.eqb_spec sp cs) as [->|Hs]; simpl;
    symmetry; first [by apply bool_decide_eq_true | apply bool_decide_eq_false; congruence].
Qed.

(** One summary: what it is and what it requests, for any world. *)
Lemma summarise_run G currentInfo w log (s : SplitInfo.t) :
  summariseSplitForHallOfFame localeCompare G (SplitInfo.year s) (SplitInfo.split s)
    currentInfo w log
  = (Fulfilled (summaryFor localeCompare G currentInfo w s),
     log ++ requestsFor G currentInfo s).
Proof.
  unfold summariseSplitForHallOfFame, summaryFor, requestsFor.
  rewrite isCurrentSplit_decide.
  destruct (decide (s = currentInfo)) as [->|Hne].
  - rewrite bool_decide_eq_true_2 by done. by rewrite app_nil_r.
  - rewrite bool_decide_eq_false_2 by done.
    unfold tryCatch, mbind, async_bind, bind, fetch, classifyAnswer.
    destruct (network w _) as [[[] st [csv|]]|]; simpl; try done.
    pose proof (rankedOf_nil csv) as Hnil. unfold rankedOf in *.
    destruct (parseCsv csv) as [|r records] eqn:Ep; simpl; [done |].
    destruct (createRankedArray localeCompare (tallyScores (r :: records)))
      as [|r1 ranked] eqn:Er; [| done].
    by destruct (proj1 Hnil eq_refl).
Qed.

Lemma startAll_summaries G currentInfo w (splits : list SplitInfo.t) log :
  startAll ((λ s, summariseSplitForHallOfFame localeCompare G (SplitInfo.year s)
                    (SplitInfo.split s) currentInfo) <$> splits) w log
  = (Fulfilled <$> (summaryFor localeCompare G currentInfo w <$> splits),
     log ++ (splits ≫= requestsFor G currentInfo)).
Proof.
  revert log. induction splits as [|s splits IH]; intros log; simpl.
  - by rewrite app_nil_r.
  - rewrite summarise_run, IH. by rewrite <- app_assoc.
Qed.

(** The whole build: the requests are those of the splits other than the
    current one, in enumeration order; the content, once there is one, is
    the message for an empty enumeration and otherwise the summaries of the
    enumerated splits, in enumeration order; and there is one as soon as
    every fetch settles. *)
Lemma buildHallOfFame_run G currentInfo w log :
  snd (buildHallOfFame localeCompare G currentInfo w log)
    = log ++ (splitsToCheck G currentInfo ≫= requestsFor G currentInfo)
  ∧ (∀ content,
       fst (buildHallOfFame localeCompare G currentInfo w log) = Fulfilled content →
       content =
         match splitsToCheck G currentInfo with
         | [] => HofMessage (str "No splits recorded yet.")
         | splits => HofEntries (summaryFor localeCompare G currentInfo w <$> splits)
         end)
  ∧ (settleOrder w (length (splitsToCheck G currentInfo))
       ≡ₚ seq 0 (length (splitsToCheck G currentInfo)) →
     ∃ content,
       fst (buildHallOfFame localeCompare G currentInfo w log) = Fulfilled content).
Proof.
  unfold buildHallOfFame.
  destruct (splitsToCheck G currentInfo) as [|s0 splits] eqn:Es.
  - simpl. split_and!; [by rewrite app_nil_r | by intros ? [= <-] | by eexists].
  - set (all := s0 :: splits) in *.
    replace (length all =? 0)%nat with false by done.
    pose proof (startAll_summaries G currentInfo w all log) as Hstart.
    destruct (promiseAll_fulfilled _ _ w log _ Hstart) as (Hlog & Hres & Hperm).
    { by rewrite !length_fmap. }
    rewrite length_fmap in Hperm.
    unfold tryCatch, mbind, async_bind, bind.
    destruct (promiseAll _ w log) as [res log'] eqn:Ep. simpl in Hlog, Hres, Hperm.
    subst log'. split_and!.
    + by destruct res.
    + intros content. destruct Hres as [->| ->]; simpl; [| done].
      by intros [= <-].
    + intros Hp. rewrite (Hperm Hp). by eexists.
Qed.

End HallOfFame.

(** *** The enumeration of the splits *)

Lemma seqZ_sorted m n : StronglySorted Z.lt (seqZ m n).
Proof.
  remember (Z.to_nat n) as k eqn:Hk. revert m n Hk.
  induction k as [|k IH]; intros m n Hk.
  - rewrite seqZ_nil by lia. constructor.
  - rewrite seqZ_cons by lia. constructor.
    + apply IH. lia.
    + apply Forall_forall. intros y Hy. apply elem_of_seqZ in Hy. lia.
Qed.

Lemma splitAfter_bool (currentInfo : SplitInfo.t) year split :
  (SplitInfo.year currentInfo <? year)
  || ((year =? SplitInfo.year currentInfo) && (SplitInfo.split currentInfo <? split))
  = bool_decide (splitAfter (SplitInfo.mk year split) currentInfo).
Proof.
  unfold splitAfter. simpl.
  destruct (Z.ltb_spec (SplitInfo.year currentInfo) year),
           (Z.eqb_spec year (SplitInfo.year currentInfo)),
           (Z.ltb_spec (SplitInfo.split currentInfo) split); simpl; symmetry;
    first [apply bool_decide_eq_true; lia | apply bool_decide_eq_false; lia].
Qed.

Lemma splitsToCheck_fold currentInfo years acc :
  fold_left
    (λ acc year,
       fold_left
         (λ acc split,
            if (SplitInfo.year currentInfo <? year)
               || ((year =? SplitInfo.year currentInfo)
                   && (SplitInfo.split currentInfo <? split))
            then acc else acc ++ [SplitInfo.mk year split])
         [1; 2] acc)
    years acc
  = acc ++ (years ≫= splitsOfYear currentInfo).
Proof.
  revert acc. induction years as [|y years IH]; intros acc.
  - simpl. by rewrite app_nil_r.
  - cbn [fold_left]. rewrite IH, !splitAfter_bool. unfold splitsOfYear.
    rewrite bind_cons, !filter_cons, filter_nil.
    destruct (decide (splitAfter (SplitInfo.mk y 1) currentInfo)) as [H1|H1],
             (decide (splitAfter (SplitInfo.mk y 2) currentInfo)) as [H2|H2];
      rewrite ?(bool_decide_eq_true_2 _ H1), ?(bool_decide_eq_true_2 _ H2),
              ?(bool_decide_eq_false_2 _ H1), ?(bool_decide_eq_false_2 _ H2);
      repeat case_decide; try tauto; by rewrite <- ?app_assoc.
Qed.

Lemma splitsToCheck_bind G currentInfo :
  splitsToCheck G currentInfo =
  yearsUpTo (SCOREBOARD_FIRST_YEAR G) (SplitInfo.year currentInfo)
    ≫= splitsOfYear currentInfo.
Proof. unfold splitsToCheck. by rewrite splitsToCheck_fold. Qed.

Lemma elem_of_splitsOfYear currentInfo year s :
  s ∈ splitsOfYear currentInfo year ↔
  SplitInfo.year s = year ∧ (SplitInfo.split s = 1 ∨ SplitInfo.split s = 2)
  ∧ ¬ splitAfter s currentInfo.
Proof.
  unfold splitsOfYear. rewrite list_elem_of_filter, !elem_of_cons, elem_of_nil.
  destruct s as [y sp]. simpl. split.
  - intros [Hn [[= -> ->]|[[= -> ->]|[]]]]; auto.
  - intros (-> & [->| ->] & Hn); auto.
Qed.

(** The enumerated splits are those of the years from the first year to the
    current year, splits 1 and 2, that are not after the current split. *)
Lemma elem_of_splitsToCheck G currentInfo s :
  s ∈ splitsToCheck G currentInfo ↔
  SCOREBOARD_FIRST_YEAR G ≤ SplitInfo.year s ≤ SplitInfo.year currentInfo
  ∧ (SplitInfo.split s = 1 ∨ SplitInfo.split s = 2)
  ∧ ¬ splitAfter s currentInfo.
Proof.
  rewrite splitsToCheck_bind, list_elem_of_bind. unfold yearsUpTo. split.
  - intros (y & Hs & Hy). apply elem_of_splitsOfYear in Hs as (<- & Hsp & Hn).
    apply elem_of_seqZ in Hy. split_and!; [lia | lia | done | done].
  - intros (Hy & Hsp & Hn). exists (SplitInfo.year s). split.
    + by apply elem_of_splitsOfYear.
    + apply elem_of_seqZ. lia.
Qed.

(** They come year by year, split 1 before split 2. *)
Lemma splitsToCheck_sorted G currentInfo :
  StronglySorted (flip splitAfter) (splitsToCheck G currentInfo).
Proof.
  rewrite splitsToCheck_bind. unfold yearsUpTo.
  generalize (seqZ_sorted (SCOREBOARD_FIRST_YEAR G)
                (SplitInfo.year currentInfo - SCOREBOARD_FIRST_YEAR G + 1)).
  generalize (seqZ (SCOREBOARD_FIRST_YEAR G)
                (SplitInfo.year currentInfo - SCOREBOARD_FIRST_YEAR G + 1)).
  intros years Hs. induction Hs as [|y years Hs IH Hy].
  - constructor.
  - rewrite bind_cons. apply StronglySorted_app_2; [| | done].
    + intros a b Ha Hb. apply elem_of_splitsOfYear in Ha as (Hya & _).
      apply list_elem_of_bind in Hb as (y' & Hb & Hy').
      apply elem_of_splitsOfYear in Hb as (Hyb & _).
      rewrite Forall_forall in Hy. specialize (Hy y' Hy').
      unfold flip, splitAfter. lia.
    + unfold splitsOfYear. rewrite !filter_cons, filter_nil.
      repeat case_decide;
        repeat first [apply SSorted_nil | apply SSorted_cons
                     | apply List.Forall_nil | apply List.Forall_cons].
      unfold flip, splitAfter. simpl. lia.
Qed.

(** *** The path of a split's file *)

Lemma str_inj s1 s2 : str s1 = str s2 → s1 = s2.
Proof.
  unfold str. intros H.
  assert (Hl : list_ascii_of_string s1 = list_ascii_of_string s2).
  { revert H. generalize (list_ascii_of_string s1) (list_ascii_of_string s2).
    intros l1. induction l1 as [|a l1 IH]; intros [|b l2] H; try done.
    rewrite !fmap_cons in H. injection H as Hab H.
    f_equal; [| by apply IH].
    by rewrite <- (ascii_N_embedding a), <- (ascii_N_embedding b), Hab. }
  by rewrite <- (string_of_list_ascii_of_string s1),
             <- (string_of_list_ascii_of_string s2), Hl.
Qed.

Lemma numToString_inj z1 z2 : numToString z1 = numToString z2 → z1 = z2.
Proof.
  unfold numToString. intros H. apply str_inj in H.
  apply DecimalZ.to_int_inj.
  assert (Hok : ∀ z, NilZero.int_of_string (NilZero.string_of_int (Z.to_int z))
                     = Some (Z.to_int z)).
  { intros z. apply NilZero.isi; destruct z; simpl; try done;
      intros [= E]; by apply DecimalPos.Unsigned.to_uint_nonnil in E. }
  pose proof (Hok z1) as H1. rewrite H, Hok in H1. by injection H1.
Qed.

(** Within one data folder, the files of the splits 1 and 2 of all years
    have different paths. *)
Lemma buildCsvPath_inj G (a b : SplitInfo.t) :
  (SplitInfo.split a = 1 ∨ SplitInfo.split a = 2) →
  (SplitInfo.split b = 1 ∨ SplitInfo.split b = 2) →
  buildCsvPath G (SplitInfo.year a) (SplitInfo.split a)
  = buildCsvPath G (SplitInfo.year b) (SplitInfo.split b) →
  a = b.
Proof.
  destruct a as [ya sa], b as [yb sb]. simpl. intros Ha Hb. unfold buildCsvPath.
  set (tail s := str "_Split" ++ numToString s ++ str ".csv").
  assert (Hlen : ∀ s, s = 1 ∨ s = 2 → length (tail s) = 11%nat).
  { by intros s [->| ->]. }
  assert (Hinj : numToString ya ++ tail sa = numToString yb ++ tail sb →
                 ya = yb ∧ sa = sb).
  { intros E. apply app_inj_2 in E as [Ey Et]; [| by rewrite !Hlen].
    split; [by apply numToString_inj |].
    destruct Ha as [->| ->], Hb as [->| ->]; try done; by vm_compute in Et. }
  intros E. destruct (isEmpty _).
  - apply Hinj in E as [-> ->]. done.
  - apply app_inv_head in E. injection E as E. apply Hinj in E as [-> ->]. done.
Qed.

Lemma splitAfter_irrefl s : ¬ splitAfter s s.
Proof. unfold splitAfter. lia. Qed.

Lemma splitsToCheck_NoDup G currentInfo : NoDup (splitsToCheck G currentInfo).
Proof.
  pose proof (splitsToCheck_sorted G currentInfo) as Hs.
  induction Hs as [|s l Hs IH Hl]; constructor; [| done].
  intros Hin. rewrite Forall_forall in Hl. by apply (splitAfter_irrefl s), Hl.
Qed.

Lemma requests_of_splits G currentInfo (splits : list SplitInfo.t) :
  splits ≫= requestsFor G currentInfo =
  (λ s, buildCsvPath G (SplitInfo.year s) (SplitInfo.split s))
    <$> filter (λ s, s ≠ currentInfo) splits.
Proof.
  induction splits as [|s splits IH]; [done |].
  rewrite bind_cons, filter_cons, IH. unfold requestsFor at 1.
  destruct (decide (s = currentInfo)) as [->|Hne].
  - by rewrite decide_False by auto.
  - by rewrite decide_True by done.
Qed.

Section HallOfFameClaims.
Variable localeCompare : jsstring → jsstring → number.

Lemma summaryFor_id G currentInfo w s :
  summaryId (summaryFor localeCompare G currentInfo w s) = s.
Proof.
  unfold summaryFor, classifyAnswer. destruct s as [y sp].
  destruct (decide _); [done |]. simpl.
  destruct (network w _) as [[[] st [csv|]]|]; try done.
  by destruct (rankedOf localeCompare csv).
Qed.

Lemma summaryFor_ids G currentInfo w (splits : list SplitInfo.t) :
  summaryId <$> (summaryFor localeCompare G currentInfo w <$> splits) = splits.
Proof.
  induction splits as [|s splits IH]; [done |].
  rewrite !fmap_cons, IH. by rewrite summaryFor_id.
Qed.

(** C5. The enumerated splits are exactly the pairs with a year from the
    first year to the current year and a split 1 or 2 that are not after the
    current split, each once, year by year and split 1 before split 2. Once
    every fetch has settled, in whatever order, the Hall of Fame holds one
    summary per enumerated split, in enumeration order; and for an empty
    enumeration, as when the current year precedes the first year, it holds
    no summary but the message that nothing is recorded. From 2024 with
    current split (2025, 1) the splits are (2024,1), (2024,2), (2025,1). *)
Theorem buildHallOfFame_enumeration G currentInfo w log :
  settleOrder w (length (splitsToCheck G currentInfo))
    ≡ₚ seq 0 (length (splitsToCheck G currentInfo)) →
  (∀ s, s ∈ splitsToCheck G currentInfo ↔
        SCOREBOARD_FIRST_YEAR G ≤ SplitInfo.year s ≤ SplitInfo.year currentInfo
        ∧ (SplitInfo.split s = 1 ∨ SplitInfo.split s = 2)
        ∧ ¬ splitAfter s currentInfo)
  ∧ NoDup (splitsToCheck G currentInfo)
  ∧ StronglySorted (flip splitAfter) (splitsToCheck G currentInfo)
  ∧ (∃ content,
       fst (buildHallOfFame localeCompare G currentInfo w log) = Fulfilled content
       ∧ summaryId <$> summariesOf content = splitsToCheck G currentInfo
       ∧ (splitsToCheck G currentInfo = [] →
          content = HofMessage (str "No splits recorded yet.")))
  ∧ (SplitInfo.year currentInfo < SCOREBOARD_FIRST_YEAR G →
     splitsToCheck G currentInfo = [])
  ∧ splitsToCheck globals (SplitInfo.mk 2025 1)
    = [SplitInfo.mk 2024 1; SplitInfo.mk 2024 2; SplitInfo.mk 2025 1].
Proof.
  intros Hperm. split_and!.
  - apply elem_of_splitsToCheck.
  - apply splitsToCheck_NoDup.
  - apply splitsToCheck_sorted.
  - destruct (buildHallOfFame_run localeCompare G currentInfo w log)
      as (_ & Hcontent & Hsettled).
    destruct (Hsettled Hperm) as [content Hc]. exists content.
    pose proof (Hcontent content Hc) as Hm. split_and!; [exact Hc | |].
    + rewrite Hm. destruct (splitsToCheck G currentInfo) as [|s0 splits]; [done |].
      apply summaryFor_ids.
    + intros E. by rewrite E in Hm.
  - intros Hlt. rewrite splitsToCheck_bind. unfold yearsUpTo.
    by rewrite seqZ_nil by lia.
  - vm_compute. reflexivity.
Qed.

(** C6. The summary of the current split is "in-progress", with no players,
    for every world: making it requests nothing. A build requests the files
    of the enumerated splits other than the current one, and no other, so
    never the file of the current split; and in what it shows, the entry of
    the current split is "in-progress", whatever the network would have
    answered for its file. *)
Theorem current_split_in_progress G currentInfo w log :
  summariseSplitForHallOfFame localeCompare G (SplitInfo.year currentInfo)
    (SplitInfo.split currentInfo) currentInfo w log
  = (Fulfilled (mkSummary (SplitInfo.year currentInfo) (SplitInfo.split currentInfo)
                          InProgress None), log)
  ∧ snd (buildHallOfFame localeCompare G currentInfo w log)
    = log ++ ((λ s, buildCsvPath G (SplitInfo.year s) (SplitInfo.split s))
                <$> filter (λ s, s ≠ currentInfo) (splitsToCheck G currentInfo))
  ∧ ((SplitInfo.split currentInfo = 1 ∨ SplitInfo.split currentInfo = 2) →
     buildCsvPath G (SplitInfo.year currentInfo) (SplitInfo.split currentInfo)
     ∉ (λ s, buildCsvPath G (SplitInfo.year s) (SplitInfo.split s))
         <$> filter (λ s, s ≠ currentInfo) (splitsToCheck G currentInfo))
  ∧ (∀ content summary,
       fst (buildHallOfFame localeCompare G currentInfo w log) = Fulfilled content →
       summary ∈ summariesOf content →
       summaryId summary = currentInfo →
       status summary = InProgress ∧ players summary = None).
Proof.
  destruct (buildHallOfFame_run localeCompare G currentInfo w log)
    as (Hlog & Hcontent & _).
  split_and!.
  - rewrite summarise_run. unfold summaryFor, requestsFor.
    rewrite !decide_True by done. by rewrite app_nil_r.
  - by rewrite Hlog, requests_of_splits.
  - intros Hcur Hin. apply list_elem_of_fmap in Hin as (s & Hpath & Hs).
    apply list_elem_of_filter in Hs as [Hne Hs].
    apply elem_of_splitsToCheck in Hs as (_ & Hsp & _).
    apply Hne. symmetry. by apply (buildCsvPath_inj G).
  - intros content summary Hc Hin Hid. rewrite (Hcontent content Hc) in Hin.
    destruct (splitsToCheck G currentInfo) as [|s0 splits]; cbn [summariesOf] in Hin.
    + by apply elem_of_nil in Hin.
    + apply list_elem_of_fmap in Hin as (s & -> & _).
      rewrite summaryFor_id in Hid. subst s.
      unfold summaryFor. by rewrite decide_True.
Qed.

Lemma classifyAnswer_facts year split (answer : option Response) :
  summaryYear (classifyAnswer localeCompare year split answer) = year
  ∧ summarySplit (classifyAnswer localeCompare year split answer) = split
  ∧ (status (classifyAnswer localeCompare year split answer) = Completed ↔
     ∃ st csv, answer = Some (mkResponse true st (Some csv))
               ∧ rankedOf localeCompare csv ≠ [])
  ∧ (status (classifyAnswer localeCompare year split answer) = OffSplit ↔
     answer = None
     ∨ ∃ r, answer = Some r
            ∧ (ok r = false ∨ text r = None
               ∨ ∃ csv, text r = Some csv
                        ∧ (parseCsv csv = [] ∨ rankedOf localeCompare csv = [])))
  ∧ (∀ st csv, answer = Some (mkResponse true st (Some csv)) →
               rankedOf localeCompare csv ≠ [] →
               players (classifyAnswer localeCompare year split answer)
               = Some (take 2 (rankedOf localeCompare csv)))
  ∧ (status (classifyAnswer localeCompare year split answer) = OffSplit →
     players (classifyAnswer localeCompare year split answer) = None).
Proof.
  unfold classifyAnswer.
  destruct answer as [[[] st [csv|]]|]; simpl.
  1: {
    pose proof (rankedOf_nil localeCompare csv) as Hnil.
    destruct (rankedOf localeCompare csv) as [|r1 ranked] eqn:Er; simpl.
    + split_and!; try done.
      * split; [done |]. intros (? & ? & [= <- <-] & Hr). by rewrite Er in Hr.
      * split; [| done]. intros _. right. eexists. split; [done |].
        right. right. exists csv. split; [done |]. right. done.
      * intros ? ? [= <- <-] Hr. by rewrite Er in Hr.
    + split_and!; try done.
      * split; [| done]. intros _. exists st, csv. by rewrite Er.
      * split; [done |].
        intros [|(r & [= <-] & [|[|(csv' & [= <-] & [Hp|Hr])]])]; try done.
        -- by apply Hnil in Hp.
        -- by rewrite Er in Hr.
      * intros ? ? [= <- <-] _. by rewrite Er.
  }
  all: split_and!; try done;
    [ split; [done | by intros (? & ? & ? & ?)]
    | split; [| done]; intros _;
      first [ by left
            | right; eexists; split; [done |]; first [by left | right; by left] ] ].
Qed.

(** C7. For a split other than the current one, the file of the split is
    requested, once, and the summary follows from the answer alone: it is
    "completed", with the first two entries of the ranking as players (all of
    them when there are fewer), exactly when the answer is a success whose
    body is read and ranks at least one player; it is "off-split", without
    players, exactly when the request fails, or the answer is not a success,
    or reading the body fails, or the text has no record, or the ranking is
    empty. An answer 404 for (2024, 1) gives off-split. Two worlds that
    answer alike for the file of the split give the same summary, whatever
    they answer for other files, and the files of different splits are
    different files. *)
Theorem past_split_classified G currentInfo w log (s : SplitInfo.t) :
  s ≠ currentInfo →
  summariseSplitForHallOfFame localeCompare G (SplitInfo.year s) (SplitInfo.split s)
    currentInfo w log
  = (Fulfilled (classifyAnswer localeCompare (SplitInfo.year s) (SplitInfo.split s)
                  (network w (buildCsvPath G (SplitInfo.year s) (SplitInfo.split s)))),
     log ++ [buildCsvPath G (SplitInfo.year s) (SplitInfo.split s)])
  ∧ (∀ year split answer,
       summaryYear (classifyAnswer localeCompare year split answer) = year
       ∧ summarySplit (classifyAnswer localeCompare year split answer) = split
       ∧ (status (classifyAnswer localeCompare year split answer) = Completed ↔
          ∃ st csv, answer = Some (mkResponse true st (Some csv))
                    ∧ rankedOf localeCompare csv ≠ [])
       ∧ (status (classifyAnswer localeCompare year split answer) = OffSplit ↔
          answer = None
          ∨ ∃ r, answer = Some r
                 ∧ (ok r = false ∨ text r = None
                    ∨ ∃ csv, text r = Some csv
                             ∧ (parseCsv csv = [] ∨ rankedOf localeCompare csv = [])))
       ∧ (∀ st csv, answer = Some (mkResponse true st (Some csv)) →
                    rankedOf localeCompare csv ≠ [] →
                    players (classifyAnswer localeCompare year split answer)
                    = Some (take 2 (rankedOf localeCompare csv)))
       ∧ (status (classifyAnswer localeCompare year split answer) = OffSplit →
          players (classifyAnswer localeCompare year split answer) = None))
  ∧ (∀ body, classifyAnswer localeCompare 2024 1 (Some (mkResponse false 404 body))
             = mkSummary 2024 1 OffSplit None)
  ∧ (∀ w' log',
       network w' (buildCsvPath G (SplitInfo.year s) (SplitInfo.split s))
       = network w (buildCsvPath G (SplitInfo.year s) (SplitInfo.split s)) →
       fst (summariseSplitForHallOfFame localeCompare G (SplitInfo.year s)
              (SplitInfo.split s) currentInfo w' log')
       = fst (summariseSplitForHallOfFame localeCompare G (SplitInfo.year s)
                (SplitInfo.split s) currentInfo w log))
  ∧ (∀ s', (SplitInfo.split s = 1 ∨ SplitInfo.split s = 2) →
           (SplitInfo.split s' = 1 ∨ SplitInfo.split s' = 2) →
           buildCsvPath G (SplitInfo.year s') (SplitInfo.split s')
           = buildCsvPath G (SplitInfo.year s) (SplitInfo.split s) →
           s' = s).
Proof.
  intros Hne.
  assert (Hrun : ∀ w log,
    summariseSplitForHallOfFame localeCompare G (SplitInfo.year s) (SplitInfo.split s)
      currentInfo w log
    = (Fulfilled (classifyAnswer localeCompare (SplitInfo.year s) (SplitInfo.split s)
                    (network w (buildCsvPath G (SplitInfo.year s) (SplitInfo.split s)))),
       log ++ [buildCsvPath G (SplitInfo.year s) (SplitInfo.split s)])).
  { intros w0 log0. rewrite summarise_run. unfold summaryFor, requestsFor.
    by rewrite !decide_False by done. }
  split_and!.
  - apply Hrun.
  - apply classifyAnswer_facts.
  - done.
  - intros w' log' Hw. rewrite !Hrun. simpl. by rewrite Hw.
  - intros s' Hs Hs' E. by apply (buildCsvPath_inj G).
Qed.

End HallOfFameClaims.

(* ------------------------------------------------------------------ *)
(** ** The split resolver *)
(* ------------------------------------------------------------------ *)

(** C8. The current split carries the calendar year of the date, and is
    split 2 when the calendar month, counted from 1, is at least 7, split 1
    otherwise. July 1 is in split 2 of its year, June 30 in split 1. *)
Theorem getCurrentSplitInfo_spec (today : Date) :
  SplitInfo.year (getCurrentSplitInfo today) = getFullYear today
  ∧ (7 ≤ getMonth today + 1 → SplitInfo.split (getCurrentSplitInfo today) = 2)
  ∧ (getMonth today + 1 < 7 → SplitInfo.split (getCurrentSplitInfo today) = 1)
  ∧ (∀ y, getCurrentSplitInfo (mkDate y 6 1) = SplitInfo.mk y 2)
  ∧ (∀ y, getCurrentSplitInfo (mkDate y 5 30) = SplitInfo.mk y 1).
Proof.
  unfold getCurrentSplitInfo. split_and!; try done; simpl; intros H.
  - by destruct (Z.leb_spec 7 (getMonth today + 1)); [| lia].
  - by destruct (Z.leb_spec 7 (getMonth today + 1)); [lia |].
Qed.

(* ------------------------------------------------------------------ *)
(** ** Aliases *)
(* ------------------------------------------------------------------ *)

Section Aliases.
Variable localeCompare : jsstring → jsstring → number.

Lemma loadSplitIntoMainTable_run G csvPath w log :
  loadSplitIntoMainTable localeCompare G csvPath w log
  = (Fulfilled (renderData G (mainDataFor localeCompare csvPath (network w csvPath))),
     log ++ [csvPath]).
Proof.
  unfold loadSplitIntoMainTable, tryCatch, mbind, async_bind, bind, fetch, mainDataFor.
  destruct (network w csvPath) as [[[] st [csv|]]|]; simpl; try done.
  unfold rankedOf. by destruct (parseCsv csv).
Qed.

(** C9. The alias table is read where names are displayed and nowhere else.
    Under two sets of globals that differ in the alias table only, the Hall
    of Fame is the same, players, totals and ranks included; the main table
    is made from the same data (the same message, the same ranking of the
    same records), so that its rank and score cells are the same, and only
    its name cells, which are [getDisplayName] of the players of that
    ranking, may differ. [tallyScores] keeps ["Nainoa"] as its key while the
    table displays ["Rat"]. *)
Theorem aliases_only_at_render (firstYear : Z) (folder : jsstring)
    (aliases1 aliases2 : gmap jsstring jsstring)
    (currentInfo : SplitInfo.t) (csvPath : jsstring) (w : World) (log : list jsstring) :
  buildHallOfFame localeCompare (mkGlobals firstYear folder aliases1) currentInfo w log
  = buildHallOfFame localeCompare (mkGlobals firstYear folder aliases2) currentInfo w log
  ∧ (∃ data,
       loadSplitIntoMainTable localeCompare (mkGlobals firstYear folder aliases1) csvPath w log
       = (Fulfilled (renderData (mkGlobals firstYear folder aliases1) data), log ++ [csvPath])
       ∧ loadSplitIntoMainTable localeCompare (mkGlobals firstYear folder aliases2) csvPath w log
         = (Fulfilled (renderData (mkGlobals firstYear folder aliases2) data), log ++ [csvPath]))
  ∧ (∀ G ranked,
       (λ row, (rankCell row, scoreCell row)) <$> renderMainTableRows G ranked
       = (λ r, (Ranked.rank r, Ranked.total r)) <$> ranked
       ∧ nameCell <$> renderMainTableRows G ranked
         = getDisplayName G <$> (Ranked.player <$> ranked))
  ∧ tallyScores [mkScore (str "Nainoa") 1] = [(str "Nainoa", 1%float)]
  ∧ renderMainTableRows globals
      (createRankedArray localeCompare (tallyScores [mkScore (str "Nainoa") 1]))
    = [mkRow 1 (VString (str "Rat")) 1].
Proof.
  split_and!.
  - reflexivity.
  - exists (mainDataFor localeCompare csvPath (network w csvPath)).
    by rewrite !loadSplitIntoMainTable_run.
  - intros G ranked. unfold renderMainTableRows. by rewrite <- !list_fmap_compose.
  - vm_compute. reflexivity.
  - vm_compute. reflexivity.
Qed.

End Aliases.

(* ------------------------------------------------------------------ *)
(** ** Lines: splitting and trimming *)
(* ------------------------------------------------------------------ *)

Lemma splitLines_cons_LF s : splitLines (LF :: s) = [] :: splitLines s.
Proof. reflexivity. Qed.

Lemma splitLines_cons_CRLF s : splitLines (CR :: LF :: s) = [] :: splitLines s.
Proof. reflexivity. Qed.

(** A unit that is not part of a separator stays at the head of the first
    piece. *)
Lemma splitLines_cons_other c s :
  c ≠ LF → (c = CR → head s ≠ Some LF) →
  ∃ piece pieces, splitLines s = piece :: pieces
                  ∧ splitLines (c :: s) = (c :: piece) :: pieces.
Proof.
  intros Hc Hcr.
  destruct (splitLines s) as [|piece pieces] eqn:E; [by apply splitLines_nonempty in E |].
  exists piece, pieces. split; [done |].
  cbn [splitLines]. rewrite E.
  destruct (N.eqb_spec c LF) as [|_]; [done |].
  destruct s as [|c2 s]; [done |].
  destruct (N.eqb_spec c CR) as [->|_]; [| done].
  destruct (N.eqb_spec c2 LF) as [->|_]; [| done].
  by destruct (Hcr eq_refl).
Qed.

(** A text without line feed is one line. *)
Lemma splitLines_single a : LF ∉ a → splitLines a = [a].
Proof.
  induction a as [|x a IH]; intros Ha; [done |].
  rewrite not_elem_of_cons in Ha. destruct Ha as [Hx Ha].
  destruct (splitLines_cons_other x a) as (piece & pieces & E & ->); [done | |].
  - intros _. destruct a as [|y a]; [done |]. simpl. intros [= ->]. apply Ha. left.
  - rewrite (IH Ha) in E. by injection E as <- <-.
Qed.

(** A line feed ends a line. *)
Lemma splitLines_at_LF a b :
  LF ∉ a → last a ≠ Some CR → splitLines (a ++ LF :: b) = a :: splitLines b.
Proof.
  induction a as [|x a IH]; intros Ha Hlast; [done |].
  rewrite not_elem_of_cons in Ha. destruct Ha as [Hx Ha].
  destruct (splitLines_cons_other x (a ++ LF :: b)) as (piece & pieces & E & Ec); [done | |].
  - intros ->. destruct a as [|y a]; [done |]. simpl. intros [= ->]. apply Ha. left.
  - rewrite <- app_comm_cons, Ec. rewrite IH in E; [by injection E as <- <- | done |].
    destruct a as [|y a]; [done |]. by rewrite last_cons_cons in Hlast.
Qed.

(** A carriage return and a line feed together end a line. *)
Lemma splitLines_at_CRLF a b :
  LF ∉ a → splitLines (a ++ CR :: LF :: b) = a :: splitLines b.
Proof.
  induction a as [|x a IH]; intros Ha; [done |].
  rewrite not_elem_of_cons in Ha. destruct Ha as [Hx Ha].
  destruct (splitLines_cons_other x (a ++ CR :: LF :: b)) as (piece & pieces & E & Ec); [done | |].
  - intros _. destruct a as [|y a]; [done |]. simpl. intros [= ->]. apply Ha. left.
  - rewrite <- app_comm_cons, Ec. rewrite IH in E; [by injection E as <- <- | done].
Qed.

Lemma trimStart_ws_cons c s : isWhiteSpace c = true → trimStart (c :: s) = trimStart s.
Proof. unfold trimStart. simpl. by intros ->. Qed.

Lemma trim_ws_cons c s : isWhiteSpace c = true → trim (c :: s) = trim s.
Proof. intros Hc. unfold trim. by rewrite trimStart_ws_cons. Qed.

Lemma trimEnd_ws_snoc c s : isWhiteSpace c = true → trimEnd (s ++ [c]) = trimEnd s.
Proof. unfold trimEnd. rewrite rev_app_distr. simpl. by intros ->. Qed.

Lemma trimStart_snoc c s :
  trimStart (s ++ [c]) = if isEmpty (trimStart s) then trimStart [c] else trimStart s ++ [c].
Proof.
  unfold trimStart. induction s as [|x s IH]; [done |].
  simpl. destruct (isWhiteSpace x); [exact IH | done].
Qed.

Lemma trim_ws_snoc c s : isWhiteSpace c = true → trim (s ++ [c]) = trim s.
Proof.
  intros Hc. unfold trim. rewrite trimStart_snoc.
  destruct (trimStart s) as [|y r] eqn:E; simpl.
  - unfold trimStart. simpl. by rewrite Hc.
  - change (y :: r ++ [c]) with ((y :: r) ++ [c]). by apply trimEnd_ws_snoc.
Qed.

Lemma isWhiteSpace_LF : isWhiteSpace LF = true.
Proof. reflexivity. Qed.

Lemma isWhiteSpace_CR : isWhiteSpace CR = true.
Proof. reflexivity. Qed.

(** White space in front of a text adds blank lines in front of its lines,
    and white space in front of its first line. *)
Lemma splitLines_ws_cons c s :
  isWhiteSpace c = true →
  trim <$> splitLines (c :: s) = trim <$> splitLines s
  ∨ trim <$> splitLines (c :: s) = [] :: (trim <$> splitLines s).
Proof.
  intros Hc. destruct (decide (c = LF)) as [->|Hlf].
  { right. by rewrite splitLines_cons_LF. }
  destruct (decide (c = CR ∧ head s = Some LF)) as [[-> Hs]|Hcr].
  { left. destruct s as [|y s]; [done |]. injection Hs as ->.
    by rewrite splitLines_cons_CRLF, splitLines_cons_LF. }
  left. destruct (splitLines_cons_other c s) as (piece & pieces & -> & ->); [done | tauto |].
  rewrite !fmap_cons. by rewrite trim_ws_cons.
Qed.

Lemma splitLines_ws_prefix w s :
  Forall (λ c, isWhiteSpace c = true) w →
  ∃ k, trim <$> splitLines (w ++ s) = replicate k [] ++ (trim <$> splitLines s).
Proof.
  intros Hw. induction Hw as [|c w Hc Hw [k IH]]; [by exists 0%nat |].
  simpl app. destruct (splitLines_ws_cons c (w ++ s) Hc) as [-> | ->]; rewrite IH.
  - by exists k.
  - by exists (S k).
Qed.

(** White space behind a text adds white space behind its last line, or ends
    that line and adds an empty one. *)
Lemma splitLines_ws_snoc s c :
  isWhiteSpace c = true →
  ∃ init last last' extra,
    splitLines s = init ++ [last]
    ∧ splitLines (s ++ [c]) = init ++ last' :: extra
    ∧ (last' = last ++ [c] ∨ last' = last ∨ last = last' ++ [CR])
    ∧ (extra = [] ∨ extra = [[]]).
Proof.
  intros Hc. induction s as [|x s IH].
  - destruct (decide (c = LF)) as [->|Hlf].
    + exists [], [], [], [[]]. split_and!; [done | done | by right; left | by right].
    + exists [], [], [c], []. split_and!; [done | | by left | by left].
      destruct (splitLines_cons_other c []) as (? & ? & [= <- <-] & Ec); [done | done |].
      exact Ec.
  - destruct IH as (init & last & last' & extra & E & E' & HR & Hextra).
    destruct (decide (x = LF)) as [->|Hx].
    { exists ([] :: init), last, last', extra.
      change ((LF :: s) ++ [c]) with (LF :: (s ++ [c])).
      rewrite !splitLines_cons_LF, E, E'. done. }
    destruct (decide (x = CR ∧ head s = Some LF)) as [[-> Hs]|Hcr].
    { destruct s as [|y s]; [done |]. injection Hs as ->.
      exists init, last, last', extra.
      change ((CR :: LF :: s) ++ [c]) with (CR :: LF :: (s ++ [c])).
      change ((LF :: s) ++ [c]) with (LF :: (s ++ [c])) in E'.
      rewrite !splitLines_cons_CRLF.
      rewrite splitLines_cons_LF in E, E'. done. }
    destruct (decide (x = CR ∧ s = [] ∧ c = LF)) as [(-> & -> & ->)|Hcr'].
    { exists [], [CR], [], [[]]. split_and!; [done | done | by right; right | by right]. }
    destruct (splitLines_cons_other x s) as (p & ps & Ep & ->); [done | tauto |].
    destruct (splitLines_cons_other x (s ++ [c])) as (p' & ps' & Ep' & Ec'); [done | |].
    { intros ->. destruct s as [|y s]; simpl; [| tauto].
      intros [= ->]. tauto. }
    change ((x :: s) ++ [c]) with (x :: (s ++ [c])).
    rewrite Ec'. rewrite E in Ep. rewrite E' in Ep'.
    destruct init as [|i0 init].
    + injection Ep as <- <-. injection Ep' as <- <-.
      exists [], (x :: last), (x :: last'), extra.
      split_and!; [done | done | | done].
      destruct HR as [-> | [-> | ->]]; [by left | by right; left | by right; right].
    + injection Ep as <- <-. injection Ep' as <- <-.
      exists ((x :: i0) :: init), last, last', extra. done.
Qed.

Lemma splitLines_ws_suffix s w :
  Forall (λ c, isWhiteSpace c = true) w →
  ∃ k, trim <$> splitLines (s ++ w) = (trim <$> splitLines s) ++ replicate k [].
Proof.
  intros Hw. revert s. induction Hw as [|c w Hc Hw IH]; intros s.
  - exists 0%nat. by rewrite !app_nil_r.
  - destruct (IH (s ++ [c])) as [k Hk]. rewrite <- app_assoc in Hk. simpl in Hk.
    destruct (splitLines_ws_snoc s c Hc)
      as (init & last & last' & extra & E & E' & HR & Hextra).
    rewrite Hk, E, E'. rewrite !fmap_app, !fmap_cons, fmap_nil.
    assert (Ht : trim last' = trim last).
    { destruct HR as [-> | [-> | ->]]; [by apply trim_ws_snoc | done |].
      symmetry. by apply trim_ws_snoc. }
    rewrite Ht. destruct Hextra as [->| ->].
    + exists k. by rewrite <- !app_assoc.
    + exists (S k). by rewrite <- !app_assoc.
Qed.

(** What [trim] removes is white space, in front and behind. *)
Lemma trim_decompose s :
  ∃ w1 w2, s = w1 ++ trim s ++ w2
           ∧ Forall (λ c, isWhiteSpace c = true) w1
           ∧ Forall (λ c, isWhiteSpace c = true) w2.
Proof.
  exists (takeWhile isWhiteSpace s),
         (rev (takeWhile isWhiteSpace (rev (trimStart s)))).
  split_and!.
  - unfold trim, trimEnd. rewrite <- rev_app_distr, takeWhile_dropWhile, rev_involutive.
    unfold trimStart. by rewrite takeWhile_dropWhile.
  - apply takeWhile_Forall.
  - apply Forall_forall. intros c Hc. rewrite elem_of_rev in Hc.
    pose proof (takeWhile_Forall isWhiteSpace (rev (trimStart s))) as H.
    rewrite Forall_forall in H. exact (H c Hc).
Qed.

(** The lines of the trimmed text are the lines of the text, without the
    blank lines that precede the first line with something on it and follow
    the last. *)
Lemma splitLines_trim text :
  ∃ k1 k2,
    trim <$> splitLines text =
    replicate k1 [] ++ (trim <$> splitLines (trim text)) ++ replicate k2 [].
Proof.
  destruct (trim_decompose text) as (w1 & w2 & E & Hw1 & Hw2).
  destruct (splitLines_ws_prefix w1 (trim text ++ w2) Hw1) as [k1 H1].
  destruct (splitLines_ws_suffix (trim text) w2 Hw2) as [k2 H2].
  exists k1, k2. rewrite E at 1. by rewrite H1, H2.
Qed.

Lemma parseLine_trim raw raw' : trim raw = trim raw' → parseLine raw = parseLine raw'.
Proof. unfold parseLine. by intros ->. Qed.

(** C4 (amended). [parseCsv] trims the whole text, then splits it at every
    line feed, taking a carriage return right before the line feed into the
    separator, and trims each line as it reads it. The split has at least
    one line; with one line only the result is empty; otherwise the first
    line of the trimmed text is discarded, whatever it holds, and the
    records are what the lines after it yield, in order. The lines of the
    trimmed text are the lines of the input without the blank lines in front
    of the first line that holds something and behind the last one, so every
    record comes from a line after the first line of the input. *)
Theorem parseCsv_header (text : jsstring) :
  parseCsv text = omap parseLine (drop 1 (splitLines (trim text)))
  ∧ (1 ≤ length (splitLines (trim text)))%nat
  ∧ ((length (splitLines (trim text)) ≤ 1)%nat → parseCsv text = [])
  ∧ (∀ a b, (LF ∉ a) → splitLines (a ++ CR :: LF :: b) = a :: splitLines b)
  ∧ (∀ a b, (LF ∉ a) → last a ≠ Some CR → splitLines (a ++ LF :: b) = a :: splitLines b)
  ∧ (∀ a, (LF ∉ a) → splitLines a = [a])
  ∧ (∃ k1 k2,
       trim <$> splitLines text =
       replicate k1 [] ++ (trim <$> splitLines (trim text)) ++ replicate k2 [])
  ∧ (∀ r, r ∈ parseCsv text →
          ∃ i line, (1 ≤ i)%nat ∧ splitLines text !! i = Some line
                    ∧ parseLine line = Some r).
Proof.
  split_and!.
  - apply parseCsv_lines.
  - pose proof (splitLines_nonempty (trim text)).
    destruct (splitLines (trim text)); [done | simpl; lia].
  - intros Hl. rewrite parseCsv_lines.
    destruct (splitLines (trim text)) as [|h [|l ls]]; simpl in *; [done | done | lia].
  - intros a b Ha. by apply splitLines_at_CRLF.
  - intros a b Ha Hl. by apply splitLines_at_LF.
  - apply splitLines_single.
  - apply splitLines_trim.
  - intros r Hr. rewrite parseCsv_lines in Hr.
    apply list_elem_of_omap in Hr as (line & Hline & Hp).
    apply list_elem_of_lookup in Hline as [j Hj]. rewrite lookup_drop in Hj.
    destruct (splitLines_trim text) as (k1 & k2 & E).
    assert (Ht : (trim <$> splitLines text) !! (k1 + (1 + j))%nat = Some (trim line)).
    { rewrite E, lookup_app_r by (rewrite length_replicate; lia).
      rewrite length_replicate. replace (k1 + (1 + j) - k1)%nat with (1 + j)%nat by lia.
      rewrite lookup_app_l by (rewrite length_fmap; by apply lookup_lt_Some in Hj).
      by rewrite list_lookup_fmap, Hj. }
    rewrite list_lookup_fmap in Ht.
    destruct (splitLines text !! (k1 + (1 + j))%nat) as [line0|] eqn:E0; [| done].
    injection Ht as Ht. exists (k1 + (1 + j))%nat, line0.
    split_and!; [lia | done |]. by rewrite (parseLine_trim line0 line).
Qed.

(** A blank line in front of the header: the text is trimmed before it is
    split, so the line discarded as the header is ["A,1,x"], the second line
    of the input, and its record is lost; splitting first would have
    discarded the blank line and kept both records. *)
Lemma parseCsv_leading_blank_line :
  splitLines (LF :: str "A,1,x" ++ LF :: str "B,2,y")
  = [[]; str "A,1,x"; str "B,2,y"]
  ∧ parseCsv (LF :: str "A,1,x" ++ LF :: str "B,2,y") = [mkScore (str "B") 2]
  ∧ parseCsvSplitFirst (LF :: str "A,1,x" ++ LF :: str "B,2,y")
    = [mkScore (str "A") 1; mkScore (str "B") 2].
Proof. split_and!; vm_compute; reflexivity. Qed.

(* ------------------------------------------------------------------ *)
(** ** The theorems at work on examples *)
(* ------------------------------------------------------------------ *)

Lemma buildHallOfFame_enumeration_witness :
  settleOrder offlineWorld (length (splitsToCheck globals (SplitInfo.mk 2025 1)))
    ≡ₚ seq 0 (length (splitsToCheck globals (SplitInfo.mk 2025 1)))
  ∧ ∃ content,
      fst (buildHallOfFame codeUnitCompare globals (SplitInfo.mk 2025 1) offlineWorld [])
      = Fulfilled content
      ∧ summaryId <$> summariesOf content = splitsToCheck globals (SplitInfo.mk 2025 1)
      ∧ (splitsToCheck globals (SplitInfo.mk 2025 1) = [] →
         content = HofMessage (str "No splits recorded yet.")).
Proof.
  assert (Hperm :
    settleOrder offlineWorld (length (splitsToCheck globals (SplitInfo.mk 2025 1)))
      ≡ₚ seq 0 (length (splitsToCheck globals (SplitInfo.mk 2025 1)))).
  { simpl settleOrder. symmetry. apply Permutation_rev. }
  split; [exact Hperm |].
  exact (proj1 (proj2 (proj2 (proj2
           (buildHallOfFame_enumeration codeUnitCompare globals (SplitInfo.mk 2025 1)
              offlineWorld [] Hperm))))).
Defined.

Lemma past_split_classified_witness :
  SplitInfo.mk 2024 1 ≠ SplitInfo.mk 2025 1
  ∧ summariseSplitForHallOfFame codeUnitCompare globals 2024 1 (SplitInfo.mk 2025 1)
      offlineWorld []
    = (Fulfilled (classifyAnswer codeUnitCompare 2024 1
                    (network offlineWorld (buildCsvPath globals 2024 1))),
       [] ++ [buildCsvPath globals 2024 1]).
Proof.
  assert (Hne : SplitInfo.mk 2024 1 ≠ SplitInfo.mk 2025 1) by (intros [= ?]).
  split; [exact Hne |].
  exact (proj1 (past_split_classified codeUnitCompare globals (SplitInfo.mk 2025 1)
                  offlineWorld [] (SplitInfo.mk 2024 1) Hne)).
Defined.

(* ------------------------------------------------------------------ *)
(** ** Further properties of the tally and of the ranker *)
(* ------------------------------------------------------------------ *)

Lemma map_keys_tallyStep m r :
  map_keys (tallyStep m r) =
  if decide (player r ∈ map_keys m) then map_keys m else map_keys m ++ [player r].
Proof. apply map_keys_set. Qed.

Lemma tally_fold_key_order records m :
  map_keys (fold_left tallyStep records m) =
  map_keys m ++ filter (λ q, q ∉ map_keys m) (firstOccurrences (player <$> records)).
Proof.
  revert m. induction records as [|r records IH]; intros m.
  - simpl. by rewrite filter_nil, app_nil_r.
  - cbn [fold_left]. rewrite IH, map_keys_tallyStep.
    rewrite fmap_cons. cbn [firstOccurrences]. rewrite filter_cons.
    destruct (decide (player r ∈ map_keys m)) as [Hin|Hin].
    + rewrite decide_False by auto. f_equal.
      rewrite list_filter_filter. apply list_filter_iff. intros q.
      split; [| tauto]. intros Hq. split; [done |]. by intros ->.
    + rewrite decide_True by done. rewrite <- app_assoc. f_equal. simpl. f_equal.
      rewrite list_filter_filter. apply list_filter_iff. intros q.
      rewrite not_elem_of_app, list_elem_of_singleton. tauto.
Qed.

Lemma elem_of_firstOccurrences l p : p ∈ firstOccurrences l ↔ p ∈ l.
Proof.
  induction l as [|q l IH]; [done |]. cbn [firstOccurrences].
  rewrite !elem_of_cons, list_elem_of_filter, IH.
  destruct (decide (p = q)); tauto.
Qed.

Lemma firstOccurrences_NoDup l : NoDup (firstOccurrences l).
Proof.
  induction l as [|q l IH]; cbn [firstOccurrences]; constructor.
  - rewrite list_elem_of_filter. tauto.
  - by apply NoDup_filter.
Qed.

Lemma firstOccurrences_length l : (length (firstOccurrences l) ≤ length l)%nat.
Proof.
  induction l as [|q l IH]; [done |]. cbn [firstOccurrences length].
  pose proof (length_filter (λ x, x ≠ q) (firstOccurrences l)). lia.
Qed.

Lemma tallyScores_keys records :
  map_keys (tallyScores records) = firstOccurrences (player <$> records).
Proof.
  unfold tallyScores. rewrite tally_fold_key_order. simpl.
  generalize (firstOccurrences (player <$> records)). intros l.
  induction l as [|q l IH]; [done |].
  rewrite filter_cons_True by apply not_elem_of_nil. by rewrite IH.
Qed.

(** X1. The keys of the tally are the players of the records, each once, in the
    order in which they first appear: this is the order in which the [Map]
    lists its entries, and so the order the ranker starts from. There are
    no more keys than records. *)
Theorem tallyScores_key_order (records : list ScoreRecord) :
  map_keys (tallyScores records) = firstOccurrences (player <$> records)
  ∧ (∀ p, p ∈ map_keys (tallyScores records) ↔ ∃ r, r ∈ records ∧ player r = p)
  ∧ (length (tallyScores records) ≤ length records)%nat.
Proof.
  pose proof (tallyScores_keys records) as Hk.
  split_and!.
  - done.
  - intros p. rewrite Hk, elem_of_firstOccurrences, list_elem_of_fmap.
    split; [intros (r & -> & Hr); by exists r | intros (r & Hr & <-); by exists r].
  - rewrite <- (length_fmap fst), <- (length_fmap player records).
    fold (map_keys (tallyScores records)). rewrite Hk. apply firstOccurrences_length.
Qed.

Lemma createRankedArray_rank_seq (localeCompare : jsstring → jsstring → number)
    (totalsMap : JsMap) :
  Ranked.rank <$> createRankedArray localeCompare totalsMap
  = seqZ 1 (Z.of_nat (length totalsMap)).
Proof.
  pose proof (createRankedArray_length localeCompare totalsMap) as Hl.
  apply list_eq. intros i. rewrite list_lookup_fmap.
  destruct (createRankedArray localeCompare totalsMap !! i) as [r|] eqn:E; simpl.
  - apply lookup_lt_Some in E as Hi. rewrite Hl in Hi.
    rewrite createRankedArray_lookup in E. apply fmap_Some in E as (e & _ & ->).
    simpl. symmetry. rewrite lookup_seqZ. lia.
  - apply lookup_ge_None in E. rewrite Hl in E.
    symmetry. apply lookup_seqZ_ge. lia.
Qed.


(* ------------------------------------------------------------------ *)
(** ** Further properties of the paths *)
(* ------------------------------------------------------------------ *)

Lemma stripTrailingSlashes_snoc folder :
  stripTrailingSlashes (folder ++ [SLASH]) = stripTrailingSlashes folder.
Proof. unfold stripTrailingSlashes. by rewrite rev_unit. Qed.

Lemma stripTrailingSlashes_slashes folder n :
  stripTrailingSlashes (folder ++ replicate n SLASH) = stripTrailingSlashes folder.
Proof.
  revert folder. induction n as [|n IH]; intros folder; simpl.
  - by rewrite app_nil_r.
  - rewrite cons_middle, app_assoc, IH. apply stripTrailingSlashes_snoc.
Qed.

Lemma stripTrailingSlashes_kept folder c :
  last folder = Some c → c ≠ SLASH → stripTrailingSlashes folder = folder.
Proof.
  intros Hl Hc. apply last_Some in Hl as [l ->].
  unfold stripTrailingSlashes. rewrite rev_unit. simpl.
  destruct (N.eqb_spec c SLASH) as [|_]; [done |].
  simpl. by rewrite rev_involutive.
Qed.

Lemma all_slashes_replicate folder :
  Forall (λ c, c = SLASH) folder → folder = replicate (length folder) SLASH.
Proof. induction 1 as [|c l -> _ IH]; simpl; [done | by rewrite <- IH]. Qed.

(** X3. Trailing slashes of the data folder do not show in the path: the folder
    is joined to the file name by one slash, however many it ends with. A
    folder made of slashes only, the root ["/"] among them, counts as no
    folder at all, and the path is then the bare file name. *)
Theorem buildCsvPath_folder (firstYear : Z) (aliases : gmap jsstring jsstring)
    (folder : jsstring) (year split : Z) :
  (∀ n, buildCsvPath (mkGlobals firstYear (folder ++ replicate n SLASH) aliases) year split
        = buildCsvPath (mkGlobals firstYear folder aliases) year split)
  ∧ (Forall (λ c, c = SLASH) folder →
     buildCsvPath (mkGlobals firstYear folder aliases) year split = csvFileName year split)
  ∧ (∀ c, last folder = Some c → c ≠ SLASH →
          buildCsvPath (mkGlobals firstYear folder aliases) year split
          = folder ++ SLASH :: csvFileName year split)
  ∧ buildCsvPath globals 2024 1 = str "data/2024_Split1.csv"
  ∧ buildCsvPath (mkGlobals 2024 (str "/") ∅) 2024 1 = str "2024_Split1.csv".
Proof.
  unfold buildCsvPath. cbn [SCOREBOARD_DATA_FOLDER]. split_and!.
  - intros n. by rewrite stripTrailingSlashes_slashes.
  - intros Hall. rewrite (all_slashes_replicate folder Hall).
    change (replicate (length folder) SLASH) with ([] ++ replicate (length folder) SLASH).
    by rewrite (stripTrailingSlashes_slashes [] (length folder)).
  - intros c Hl Hc. rewrite (stripTrailingSlashes_kept folder c Hl Hc).
    apply last_Some in Hl as [l ->]. by destruct l.
  - vm_compute. reflexivity.
  - vm_compute. reflexivity.
Qed.

(* ------------------------------------------------------------------ *)
(** ** Further properties of the Hall of Fame and of the main table *)
(* ------------------------------------------------------------------ *)

Lemma bind_ext_Forall {A B} (f g : A → list B) (l : list A) :
  Forall (λ x, f x = g x) l → l ≫= f = l ≫= g.
Proof. induction 1 as [|x l E _ IH]; [done |]. by rewrite !bind_cons, E, IH. Qed.

Lemma length_bind_pairs {A B} (f g : A → B) (l : list A) :
  length (l ≫= λ x, [f x; g x]) = (2 * length l)%nat.
Proof. induction l as [|x l IH]; [done |]. rewrite bind_cons. simpl. rewrite IH. lia. Qed.

Lemma splitsOfYear_past currentInfo y :
  y < SplitInfo.year currentInfo →
  splitsOfYear currentInfo y = [SplitInfo.mk y 1; SplitInfo.mk y 2].
Proof.
  intros Hy. unfold splitsOfYear.
  rewrite !filter_cons_True, filter_nil; [done | |]; unfold splitAfter; simpl; lia.
Qed.

Lemma splitsOfYear_current (currentInfo : SplitInfo.t) :
  SplitInfo.split currentInfo = 1 ∨ SplitInfo.split currentInfo = 2 →
  ∃ before, splitsOfYear currentInfo (SplitInfo.year currentInfo)
            = SplitInfo.mk (SplitInfo.year currentInfo) 1 :: before
            ∧ last (SplitInfo.mk (SplitInfo.year currentInfo) 1 :: before) = Some currentInfo
            ∧ Z.of_nat (length (SplitInfo.mk (SplitInfo.year currentInfo) 1 :: before))
              = SplitInfo.split currentInfo.
Proof.
  destruct currentInfo as [Y sp]. simpl. unfold splitsOfYear.
  intros [->| ->].
  - exists []. rewrite filter_cons_True by (unfold splitAfter; simpl; lia).
    rewrite filter_cons_False by (unfold splitAfter; simpl; lia).
    by rewrite filter_nil.
  - exists [SplitInfo.mk Y 2].
    rewrite !filter_cons_True by (unfold splitAfter; simpl; lia).
    by rewrite filter_nil.
Qed.

(** The enumeration, in closed form: the two splits of every year before the
    current one, then the splits of the current year up to the current
    split. *)
Lemma splitsToCheck_closed G (currentInfo : SplitInfo.t) :
  SCOREBOARD_FIRST_YEAR G ≤ SplitInfo.year currentInfo →
  splitsToCheck G currentInfo =
  (seqZ (SCOREBOARD_FIRST_YEAR G) (SplitInfo.year currentInfo - SCOREBOARD_FIRST_YEAR G)
     ≫= λ y, [SplitInfo.mk y 1; SplitInfo.mk y 2])
  ++ splitsOfYear currentInfo (SplitInfo.year currentInfo).
Proof.
  intros Hy. rewrite splitsToCheck_bind. unfold yearsUpTo.
  rewrite seqZ_app by lia. rewrite bind_app. f_equal.
  - apply bind_ext_Forall, Forall_forall. intros y Hin.
    apply elem_of_seqZ in Hin. apply splitsOfYear_past. lia.
  - replace (SCOREBOARD_FIRST_YEAR G + (SplitInfo.year currentInfo - SCOREBOARD_FIRST_YEAR G))
      with (SplitInfo.year currentInfo) by lia.
    change (seqZ (SplitInfo.year currentInfo) 1) with [SplitInfo.year currentInfo].
    rewrite bind_cons. apply app_nil_r.
Qed.

Lemma length_filter_ne `{EqDecision A} (x : A) (l : list A) :
  NoDup l → x ∈ l → S (length (filter (λ y, y ≠ x) l)) = length l.
Proof.
  induction 1 as [|y l Hy Hnd IH]; intros Hin; [by apply elem_of_nil in Hin |].
  apply elem_of_cons in Hin as [->|Hin].
  - rewrite filter_cons_False by auto. simpl. f_equal.
    clear IH Hnd. induction l as [|z l IH]; [done |].
    apply not_elem_of_cons in Hy as [Hz Hy].
    rewrite filter_cons_True by auto. simpl. f_equal. by apply IH.
  - rewrite filter_cons_True by (intros ->; done). simpl. f_equal. by apply IH.
Qed.

Section Views.
Variable localeCompare : jsstring → jsstring → number.

(** X4. Making a summary never fails, and neither does building the Hall of
    Fame: whatever the network does, the promise of [buildHallOfFame] is not
    rejected and its [catch] is not entered, so the container never shows
    that the data could not be loaded. The promise stays pending only while
    some fetch has not settled. *)
Theorem hallOfFame_never_fails G currentInfo w log :
  (∀ year split, ∃ summary,
     fst (summariseSplitForHallOfFame localeCompare G year split currentInfo w log)
     = Fulfilled summary)
  ∧ fst (buildHallOfFame localeCompare G currentInfo w log) ≠ Rejected
  ∧ fst (buildHallOfFame localeCompare G currentInfo w log)
    ≠ Fulfilled (HofMessage (str "Unable to load Hall of Fame data."))
  ∧ (fst (buildHallOfFame localeCompare G currentInfo w log) = Pending →
     ¬ settleOrder w (length (splitsToCheck G currentInfo))
       ≡ₚ seq 0 (length (splitsToCheck G currentInfo))).
Proof.
  split_and!.
  - intros year split. pose proof (summarise_run localeCompare G currentInfo w log
                                     (SplitInfo.mk year split)) as H.
    simpl in H. rewrite H. by eexists.
  - unfold buildHallOfFame.
    destruct (splitsToCheck G currentInfo) as [|s0 splits] eqn:Es; [done |].
    set (all := s0 :: splits) in *.
    replace (length all =? 0)%nat with false by done.
    pose proof (startAll_summaries localeCompare G currentInfo w all log) as Hstart.
    destruct (promiseAll_fulfilled _ _ w log _ Hstart) as (_ & Hres & _).
    { by rewrite !length_fmap. }
    unfold tryCatch, mbind, async_bind, bind.
    destruct (promiseAll _ w log) as [res log'] eqn:Ep. simpl in Hres.
    by destruct Hres as [->| ->].
  - intros H.
    destruct (buildHallOfFame_run localeCompare G currentInfo w log) as (_ & Hc & _).
    apply Hc in H. by destruct (splitsToCheck G currentInfo).
  - intros Hp Hperm.
    destruct (buildHallOfFame_run localeCompare G currentInfo w log) as (_ & _ & Hs).
    destruct (Hs Hperm) as [content Hc]. by rewrite Hp in Hc.
Qed.


(** X5. On any date of a year not before the first year, the Hall of Fame has two
    entries for each year before the current one and one or two for the
    current year: the first entry is split 1 of the first year, the last one
    is the current split; and building it requests one file less than it has
    entries, the current split costing no request. *)
Theorem splitsToCheck_count G (today : Date) (w : World) :
  SCOREBOARD_FIRST_YEAR G ≤ getFullYear today →
  Z.of_nat (length (splitsToCheck G (getCurrentSplitInfo today)))
  = 2 * (getFullYear today - SCOREBOARD_FIRST_YEAR G)
    + SplitInfo.split (getCurrentSplitInfo today)
  ∧ head (splitsToCheck G (getCurrentSplitInfo today))
    = Some (SplitInfo.mk (SCOREBOARD_FIRST_YEAR G) 1)
  ∧ last (splitsToCheck G (getCurrentSplitInfo today)) = Some (getCurrentSplitInfo today)
  ∧ S (length (snd (buildHallOfFame localeCompare G (getCurrentSplitInfo today) w [])))
    = length (splitsToCheck G (getCurrentSplitInfo today)).
Proof.
  intros Hy.
  set (currentInfo := getCurrentSplitInfo today).
  assert (HY : SplitInfo.year currentInfo = getFullYear today) by done.
  assert (Hsp : SplitInfo.split currentInfo = 1 ∨ SplitInfo.split currentInfo = 2).
  { unfold currentInfo, getCurrentSplitInfo. simpl. destruct (7 <=? _); auto. }
  rewrite <- HY in *.
  destruct (splitsOfYear_current currentInfo Hsp) as (before & Ecur & Hlast & Hlen).
  pose proof (splitsToCheck_closed G currentInfo Hy) as Eall. rewrite Ecur in Eall.
  assert (Hin : currentInfo ∈ splitsToCheck G currentInfo).
  { rewrite Eall. apply elem_of_app. right. by apply last_Some_elem_of. }
  split_and!.
  - rewrite Eall, length_app, length_bind_pairs, length_seqZ. lia.
  - rewrite Eall.
    destruct (Z.eq_dec (SplitInfo.year currentInfo) (SCOREBOARD_FIRST_YEAR G)) as [E|Hne].
    + rewrite E, Z.sub_diag. by rewrite seqZ_nil.
    + by rewrite seqZ_cons by lia.
  - rewrite Eall, last_app. by rewrite Hlast.
  - destruct (buildHallOfFame_run localeCompare G currentInfo w []) as (Hlog & _ & _).
    rewrite Hlog, requests_of_splits. simpl. rewrite length_fmap.
    apply length_filter_ne; [apply splitsToCheck_NoDup | done].
Qed.

(** X6. A summary is always made, for the year and split asked; when its status
    is "completed" it carries one or two players, ranked 1 and 2 in this
    order and with different names; with any other status it carries none.
    So what reads a summary finds players exactly on the completed ones. *)
Theorem summary_players_shape G currentInfo w log year split :
  ∃ summary,
    fst (summariseSplitForHallOfFame localeCompare G year split currentInfo w log)
    = Fulfilled summary
    ∧ summaryYear summary = year ∧ summarySplit summary = split
    ∧ match status summary with
      | Completed =>
          ∃ top, players summary = Some top
                 ∧ (1 ≤ length top ≤ 2)%nat
                 ∧ Ranked.rank <$> top = seqZ 1 (Z.of_nat (length top))
                 ∧ NoDup (Ranked.player <$> top)
      | _ => players summary = None
      end.
Proof.
  pose proof (summarise_run localeCompare G currentInfo w log (SplitInfo.mk year split)) as H.
  simpl in H. rewrite H. eexists. split; [done |].
  unfold summaryFor, classifyAnswer. cbn [SplitInfo.year SplitInfo.split].
  destruct (decide _); [done |].
  destruct (network w _) as [[[] st [csv|]]|]; try done.
  destruct (rankedOf localeCompare csv) as [|r1 ranked] eqn:Er; [done |].
  cbn [summaryYear summarySplit status players]. split_and!; [done | done |].
  eexists. split; [done |].
  assert (Hranks : Ranked.rank <$> (r1 :: ranked)
                   = seqZ 1 (Z.of_nat (length (r1 :: ranked)))).
  { rewrite <- Er. unfold rankedOf.
    rewrite createRankedArray_rank_seq. by rewrite createRankedArray_length. }
  assert (Hnd : NoDup (Ranked.player <$> (r1 :: ranked))).
  { rewrite <- Er. unfold rankedOf.
    pose proof (createRankedArray_pairs localeCompare (tallyScores (parseCsv csv))) as Hp.
    apply (fmap_Permutation fst) in Hp. rewrite <- list_fmap_compose in Hp.
    change (fst ∘ _) with Ranked.player in Hp. rewrite Hp.
    apply (tally_fold_keys (parseCsv csv) []). constructor. }
  split_and!.
  - simpl. lia.
  - destruct ranked as [|r2 ranked]; simpl; lia.
  - destruct ranked as [|r2 ranked]; [exact Hranks |].
    rewrite !fmap_cons in Hranks. simpl length in Hranks.
    rewrite seqZ_cons in Hranks by lia. rewrite seqZ_cons in Hranks by lia.
    injection Hranks as E1 E2 _. simpl. by rewrite E1, E2.
  - rewrite fmap_take. exact (sublist_NoDup _ _ Hnd (sublist_take _ 2)).
Qed.

End Views.

(* ------------------------------------------------------------------ *)
(** ** Further properties of the parser *)
(* ------------------------------------------------------------------ *)

Lemma dropWhile_snoc_stop {A} (f : A → bool) l x :
  f x = false → dropWhile f (l ++ [x]) = dropWhile f l ++ [x].
Proof.
  intros Hx. induction l as [|y l IH]; simpl; [by rewrite Hx |].
  by destruct (f y).
Qed.

Lemma dropWhile_idem {A} (f : A → bool) l : dropWhile f (dropWhile f l) = dropWhile f l.
Proof.
  destruct (dropWhile f l) as [|x r] eqn:E; [done |].
  apply dropWhile_head in E. simpl. by rewrite E.
Qed.

(** A trimmed string has no white space at either end: trimming it again
    changes nothing. *)
Lemma trim_idem s : trim (trim s) = trim s.
Proof.
  unfold trim, trimEnd, trimStart.
  destruct (dropWhile isWhiteSpace s) as [|x d] eqn:E; [done |].
  apply dropWhile_head in E.
  assert (H1 : rev (dropWhile isWhiteSpace (rev (x :: d)))
               = x :: rev (dropWhile isWhiteSpace (rev d))).
  { simpl rev. rewrite dropWhile_snoc_stop by done. by rewrite rev_unit. }
  rewrite H1. cbn [dropWhile]. rewrite E.
  simpl rev. rewrite rev_involutive, dropWhile_snoc_stop by done.
  by rewrite dropWhile_idem, rev_unit.
Qed.

Lemma elem_of_trim c s : c ∈ trim s → c ∈ s.
Proof.
  intros Hc. destruct (trim_decompose s) as (w1 & w2 & E & _). rewrite E.
  rewrite !elem_of_app. auto.
Qed.

Lemma parseLine_record raw r :
  parseLine raw = Some r →
  player r ≠ [] ∧ trim (player r) = player r ∧ (COMMA ∉ player r)
  ∧ is_nan (score r) = false.
Proof.
  intros H.
  destruct (parseLine_cases raw)
    as [[_ E]|[(a & b & _ & _ & _ & E)|(a & b & c & _ & Ha & _ & E)]];
    rewrite H in E; try done.
  destruct (isEmpty (trim a)) eqn:Ee; [done |].
  destruct (matchNumber (trim b)) as [t|] eqn:Em; [| done].
  injection E as ->. simpl. split_and!.
  - intros Hnil. by rewrite Hnil in Ee.
  - apply trim_idem.
  - intros Hc. by apply Ha, elem_of_trim.
  - apply matchNumber_FirstMatch in Em as (_ & _ & _ & Ht & _).
    by apply Number_token.
Qed.

Lemma length_omap_le {A B} (f : A → option B) (l : list A) :
  (length (omap f l) ≤ length l)%nat.
Proof.
  induction l as [|x l IH]; [done |].
  cbn [omap list_omap]. destruct (f x); cbn [length]; lia.
Qed.

Lemma parseCsv_records_aux text :
  Forall (λ r, player r ≠ []) (parseCsv text)
  ∧ Forall (λ r, player r ≠ [] ∧ trim (player r) = player r ∧ (COMMA ∉ player r)
                 ∧ is_nan (score r) = false)
           (parseCsv text).
Proof.
  assert (H : Forall (λ r, player r ≠ [] ∧ trim (player r) = player r
                           ∧ (COMMA ∉ player r) ∧ is_nan (score r) = false)
                     (parseCsv text)).
  { apply Forall_forall. intros r Hr. rewrite parseCsv_lines in Hr.
    apply list_elem_of_omap in Hr as (line & _ & Hp). by apply parseLine_record in Hp. }
  split; [| done]. eapply Forall_impl; [exact H |]. by intros r (? & _).
Qed.

(** X7. Every record [parseCsv] returns has a player that is not empty, has no
    white space at either end and no comma, and a score that is a number,
    not [NaN]; an infinite score is possible, for a literal too large for a
    double. There are fewer records than the text has lines. *)
Theorem parseCsv_records (text : jsstring) :
  Forall (λ r, player r ≠ [] ∧ trim (player r) = player r ∧ (COMMA ∉ player r)
               ∧ is_nan (score r) = false)
         (parseCsv text)
  ∧ (length (parseCsv text) < length (splitLines text))%nat
  ∧ parseCsv (str "PlayerID,Score" ++ LF :: str "A," ++ replicate 400 57%N ++ str ",x")
    = [mkScore (str "A") infinity].
Proof.
  split_and!.
  - apply parseCsv_records_aux.
  - rewrite parseCsv_lines.
    destruct (splitLines_trim text) as (k1 & k2 & E).
    apply (f_equal length) in E.
    rewrite !length_app, !length_replicate, !length_fmap in E.
    pose proof (length_omap_le parseLine (drop 1 (splitLines (trim text)))) as Hl.
    rewrite length_drop in Hl.
    pose proof (splitLines_nonempty (trim text)) as Hne.
    destruct (splitLines (trim text)); [done |]. simpl in *. lia.
  - vm_compute. reflexivity.
Qed.

(* ------------------------------------------------------------------ *)
(** ** Further properties of the main table *)
(* ------------------------------------------------------------------ *)

Lemma getDisplayName_nonempty G p : p ≠ [] → getDisplayName G p ≠ VString [].
Proof.
  intros Hp. unfold getDisplayName.
  destruct (PLAYER_ALIASES G !! p) as [alias|].
  - destruct alias; simpl; congruence.
  - case_bool_decide; congruence.
Qed.

Section MainTable.
Variable localeCompare : jsstring → jsstring → number.

(** X8. Loading the main table requests the file once and never fails: the
    promise is fulfilled whatever the network does. A request that fails and
    a body that cannot be read give the short error message; an answer that
    is not a success gives the message that asks to check the file; a text
    without records gives the message that no scores are recorded; any other
    text gives the rows of its ranking and the message that names the
    file. *)
Theorem loadSplitIntoMainTable_outcomes G csvPath w log :
  ∃ table,
    loadSplitIntoMainTable localeCompare G csvPath w log
    = (Fulfilled table, log ++ [csvPath])
    ∧ (network w csvPath = None →
       table = MainError (str "Unable to load scores for this split."))
    ∧ (∀ r, network w csvPath = Some r → ok r = false →
         table = MainError (str "Unable to load scores for this split. Please check that the CSV file exists."))
    ∧ (∀ r, network w csvPath = Some r → ok r = true → text r = None →
         table = MainError (str "Unable to load scores for this split."))
    ∧ (∀ r csv, network w csvPath = Some r → ok r = true → text r = Some csv →
         parseCsv csv = [] →
         table = MainEmpty (str "No scores recorded for this split yet."))
    ∧ (∀ r csv, network w csvPath = Some r → ok r = true → text r = Some csv →
         parseCsv csv ≠ [] →
         table = MainLoaded (str "Scores loaded from " ++ csvPath ++ str ".")
                   (renderMainTableRows G
                      (createRankedArray localeCompare (tallyScores (parseCsv csv))))).
Proof.
  rewrite loadSplitIntoMainTable_run. eexists. split; [done |].
  unfold mainDataFor, rankedOf.
  destruct (network w csvPath) as [[[] st [csv|]]|]; simpl.
  all: split_and!; try done.
  all: try (intros r [= <-]; simpl; intros; done).
  all: try (intros r csv' [= <-]; simpl; intros; done).
  - intros r csv' [= <-]. simpl. intros _ [= <-] ->. done.
  - intros r csv' [= <-]. simpl. intros _ [= <-] Hne.
    by destruct (parseCsv csv).
Qed.

(** X9. The rows of the main table made from a CSV text: one row per distinct
    player of its records, numbered 1, 2, ... from the top; no row has an
    empty name; and each row shows, under the display name of one of the
    players, the total the tally holds for that player. *)
Theorem main_table_rows G (csv : jsstring) :
  length (renderMainTableRows G (rankedOf localeCompare csv))
  = length (firstOccurrences (player <$> parseCsv csv))
  ∧ rankCell <$> renderMainTableRows G (rankedOf localeCompare csv)
    = seqZ 1 (Z.of_nat (length (renderMainTableRows G (rankedOf localeCompare csv))))
  ∧ Forall (λ row, nameCell row ≠ VString [])
           (renderMainTableRows G (rankedOf localeCompare csv))
  ∧ Forall (λ row, ∃ p, p ∈ player <$> parseCsv csv
                        ∧ nameCell row = getDisplayName G p
                        ∧ map_get (tallyScores (parseCsv csv)) p = Some (scoreCell row))
           (renderMainTableRows G (rankedOf localeCompare csv))
  ∧ (parseCsv csv ≠ [] → renderMainTableRows G (rankedOf localeCompare csv) ≠ []).
Proof.
  pose proof (tallyScores_keys (parseCsv csv)) as Hk.
  pose proof (createRankedArray_length localeCompare (tallyScores (parseCsv csv))) as Hl.
  pose proof (createRankedArray_pairs localeCompare (tallyScores (parseCsv csv))) as Hp.
  assert (Hlen : length (renderMainTableRows G (rankedOf localeCompare csv))
                 = length (firstOccurrences (player <$> parseCsv csv))).
  { unfold renderMainTableRows, rankedOf. rewrite length_fmap, Hl, <- Hk.
    unfold map_keys. by rewrite length_fmap. }
  assert (Hrow : ∀ row, row ∈ renderMainTableRows G (rankedOf localeCompare csv) →
            ∃ p, p ∈ player <$> parseCsv csv
                 ∧ nameCell row = getDisplayName G p
                 ∧ map_get (tallyScores (parseCsv csv)) p = Some (scoreCell row)).
  { intros row Hrow. unfold renderMainTableRows in Hrow.
    apply list_elem_of_fmap in Hrow as (r & -> & Hr). simpl.
    exists (Ranked.player r). split_and!; [| done |].
    - apply elem_of_firstOccurrences. rewrite <- Hk. unfold map_keys.
      apply list_elem_of_fmap. exists (Ranked.player r, Ranked.total r).
      split; [done |]. rewrite <- Hp. apply list_elem_of_fmap. by exists r.
    - apply map_get_elem_of.
      + apply (tally_fold_keys (parseCsv csv) []). constructor.
      + rewrite <- Hp. apply list_elem_of_fmap. by exists r. }
  split_and!.
  - done.
  - unfold renderMainTableRows at 1. rewrite <- list_fmap_compose.
    change (rankCell ∘ _) with Ranked.rank.
    unfold rankedOf at 1. rewrite createRankedArray_rank_seq.
    unfold renderMainTableRows, rankedOf. by rewrite length_fmap, Hl.
  - apply Forall_forall. intros row Hin.
    destruct (Hrow row Hin) as (p & Hp' & -> & _).
    apply getDisplayName_nonempty.
    apply list_elem_of_fmap in Hp' as (r & -> & Hr).
    pose proof (proj1 (parseCsv_records_aux csv)) as Hall.
    rewrite Forall_forall in Hall. by apply Hall.
  - by apply Forall_forall.
  - intros Hne E. rewrite E in Hlen. simpl in Hlen.
    destruct (parseCsv csv) as [|r rs]; [done |]. done.
Qed.

End MainTable.

(* ------------------------------------------------------------------ *)
(** ** The main table and the Hall of Fame on the same file *)
(* ------------------------------------------------------------------ *)

Section TwoViews.
Variable localeCompare : jsstring → jsstring → number.

(** X10. For a split other than the current one, the Hall of Fame and the main
    table read the file alike: the split is "completed" exactly when the
    main table of its file would be loaded, and its players are then the
    entries of the first two rows of that table (of its only row when there
    is one); when the table would show an error or no scores, the split is
    "off-split". *)
Theorem hallOfFame_agrees_with_table G currentInfo w log log' (s : SplitInfo.t) :
  s ≠ currentInfo →
  ∃ table summary,
    fst (loadSplitIntoMainTable localeCompare G
           (buildCsvPath G (SplitInfo.year s) (SplitInfo.split s)) w log)
    = Fulfilled table
    ∧ fst (summariseSplitForHallOfFame localeCompare G (SplitInfo.year s)
             (SplitInfo.split s) currentInfo w log')
      = Fulfilled summary
    ∧ match table with
      | MainLoaded _ rows =>
          status summary = Completed
          ∧ renderMainTableRows G <$> players summary = Some (take 2 rows)
      | MainEmpty _ | MainError _ =>
          status summary = OffSplit ∧ players summary = None
      end.
Proof.
  intros Hne. rewrite loadSplitIntoMainTable_run, summarise_run.
  eexists. eexists. split; [done |]. split; [done |].
  unfold summaryFor. rewrite decide_False by done.
  unfold mainDataFor, classifyAnswer.
  destruct (network w _) as [[[] st [csv|]]|]; simpl; try done.
  pose proof (rankedOf_nil localeCompare csv) as Hnil.
  destruct (parseCsv csv) as [|r records] eqn:Ep; simpl.
  - by rewrite (proj2 Hnil eq_refl).
  - destruct (rankedOf localeCompare csv) as [|r1 ranked] eqn:Er.
    + by pose proof (proj1 Hnil eq_refl).
    + simpl. split; [done |]. unfold renderMainTableRows.
      by rewrite fmap_take.
Qed.

End TwoViews.

Lemma hallOfFame_agrees_with_table_witness :
  SplitInfo.mk 2024 1 ≠ SplitInfo.mk 2025 1
  ∧ ∃ table summary,
      fst (loadSplitIntoMainTable codeUnitCompare globals
             (buildCsvPath globals 2024 1) offlineWorld [])
      = Fulfilled table
      ∧ fst (summariseSplitForHallOfFame codeUnitCompare globals 2024 1
               (SplitInfo.mk 2025 1) offlineWorld [])
        = Fulfilled summary
      ∧ match table with
        | MainLoaded _ rows =>
            status summary = Completed
            ∧ renderMainTableRows globals <$> players summary = Some (take 2 rows)
        | MainEmpty _ | MainError _ =>
            status summary = OffSplit ∧ players summary = None
        end.
Proof.
  assert (Hne : SplitInfo.mk 2024 1 ≠ SplitInfo.mk 2025 1) by (intros [= ?]).
  split; [exact Hne |].
  exact (hallOfFame_agrees_with_table codeUnitCompare globals (SplitInfo.mk 2025 1)
           offlineWorld [] [] (SplitInfo.mk 2024 1) Hne).
Defined.

Lemma splitsToCheck_count_witness :
  SCOREBOARD_FIRST_YEAR globals ≤ getFullYear (mkDate 2025 10 2)
  ∧ Z.of_nat (length (splitsToCheck globals (getCurrentSplitInfo (mkDate 2025 10 2))))
    = 2 * (getFullYear (mkDate 2025 10 2) - SCOREBOARD_FIRST_YEAR globals)
      + SplitInfo.split (getCurrentSplitInfo (mkDate 2025 10 2))
  ∧ head (splitsToCheck globals (getCurrentSplitInfo (mkDate 2025 10 2)))
    = Some (SplitInfo.mk (SCOREBOARD_FIRST_YEAR globals) 1)
  ∧ last (splitsToCheck globals (getCurrentSplitInfo (mkDate 2025 10 2)))
    = Some (getCurrentSplitInfo (mkDate 2025 10 2))
  ∧ S (length (snd (buildHallOfFame codeUnitCompare globals
                      (getCurrentSplitInfo (mkDate 2025 10 2)) offlineWorld [])))
    = length (splitsToCheck globals (getCurrentSplitInfo (mkDate 2025 10 2))).
Proof.
  assert (Hy : SCOREBOARD_FIRST_YEAR globals ≤ getFullYear (mkDate 2025 10 2))
    by (simpl; lia).
  split; [exact Hy |].
  exact (splitsToCheck_count codeUnitCompare globals (mkDate 2025 10 2) offlineWorld Hy).
Defined.

(* ------------------------------------------------------------------ *)
(** ** Fields, line endings and added rows *)
(* ------------------------------------------------------------------ *)

Lemma dropWhile_app_stop {A} (f : A → bool) l x r :
  f x = false → dropWhile f (l ++ x :: r) = dropWhile f l ++ x :: r.
Proof.
  intros Hx. induction l as [|y l IH]; simpl; [by rewrite Hx |].
  by destruct (f y).
Qed.

Lemma trim_two_commas a b c :
  trim (a ++ COMMA :: b ++ COMMA :: c)
  = trimStart a ++ COMMA :: b ++ COMMA :: trimEnd c.
Proof.
  unfold trim, trimStart. rewrite dropWhile_app_stop by done.
  unfold trimEnd.
  replace (dropWhile isWhiteSpace a ++ COMMA :: b ++ COMMA :: c)
    with ((dropWhile isWhiteSpace a ++ COMMA :: b) ++ COMMA :: c)
    by (by rewrite <- app_assoc).
  rewrite rev_app_distr. simpl rev at 1.
  rewrite <- app_assoc. simpl app at 2.
  rewrite dropWhile_app_stop by done.
  rewrite rev_app_distr. cbn [rev].
  rewrite rev_involutive, <- !app_assoc. done.
Qed.

Lemma trim_trimStart s : trim (trimStart s) = trim s.
Proof. unfold trim, trimStart. by rewrite dropWhile_idem. Qed.

Lemma elem_of_dropWhile {A} (f : A → bool) x l : x ∈ dropWhile f l → x ∈ l.
Proof.
  induction l as [|y l IH]; simpl; [done |].
  destruct (f y); [intros H; right; by apply IH | done].
Qed.

(** A line with two commas is read from its first two fields alone. *)
Lemma parseLine_fields a b c :
  (COMMA ∉ a) → (COMMA ∉ b) →
  parseLine (a ++ COMMA :: b ++ COMMA :: c) =
  if isEmpty (trim a) then None
  else match matchNumber (trim b) with
       | None => None
       | Some t => Some {| player := trim a; score := Number t |}
       end.
Proof.
  intros Ha Hb.
  destruct (parseLine_cases (a ++ COMMA :: b ++ COMMA :: c))
    as [[Hno _]|[(a' & b' & El & Ha' & Hb' & _)|(a' & b' & c' & El & Ha' & Hb' & E)]].
  - exfalso. apply Hno. rewrite trim_two_commas. set_solver.
  - exfalso. rewrite trim_two_commas in El.
    assert (Hs : COMMA ∉ trimStart a).
    { intros H. by apply Ha, (elem_of_dropWhile isWhiteSpace). }
    destruct (split_at_first_unique COMMA _ _ _ _ Hs Ha' El) as [_ <-].
    apply Hb'. set_solver.
  - rewrite trim_two_commas in El.
    assert (Hs : COMMA ∉ trimStart a).
    { intros H. by apply Ha, (elem_of_dropWhile isWhiteSpace). }
    destruct (split_at_first_unique COMMA _ _ _ _ Hs Ha' El) as [<- El'].
    destruct (split_at_first_unique COMMA _ _ _ _ Hb Hb' El') as [<- _].
    rewrite E. by rewrite trim_trimStart.
Qed.

(** X11. What follows the second comma of a line is ignored, commas included: the
    record of the line, or its absence, depends on the first two fields
    only, and white space around either field changes nothing. *)
Theorem parseLine_ignores_rest (a b c c' : jsstring) :
  (COMMA ∉ a) → (COMMA ∉ b) →
  parseLine (a ++ COMMA :: b ++ COMMA :: c) = parseLine (a ++ COMMA :: b ++ COMMA :: c')
  ∧ parseLine (a ++ COMMA :: b ++ COMMA :: c)
    = parseLine (trim a ++ COMMA :: trim b ++ [COMMA]).
Proof.
  intros Ha Hb. split.
  - by rewrite !parseLine_fields.
  - rewrite (parseLine_fields a b c Ha Hb).
    rewrite (parseLine_fields (trim a) (trim b) []).
    + by rewrite !trim_idem.
    + intros H. by apply Ha, elem_of_trim.
    + intros H. by apply Hb, elem_of_trim.
Qed.

Lemma parseLine_ignores_rest_witness :
  (COMMA ∉ str " Alex E. ") ∧ (COMMA ∉ str " 2.0 ")
  ∧ parseLine (str " Alex E. , 2.0 ,Clue,07/20/2024,")
    = parseLine (str " Alex E. , 2.0 ,a note, with commas")
  ∧ parseLine (str " Alex E. , 2.0 ,Clue,07/20/2024,") = parseLine (str "Alex E.,2.0,").
Proof.
  assert (Ha : COMMA ∉ str " Alex E. ") by (apply (bool_decide_unpack _); exact I).
  assert (Hb : COMMA ∉ str " 2.0 ") by (apply (bool_decide_unpack _); exact I).
  split; [exact Ha |]. split; [exact Hb |].
  exact (parseLine_ignores_rest (str " Alex E. ") (str " 2.0 ")
           (str "Clue,07/20/2024,") (str "a note, with commas") Ha Hb).
Defined.

Lemma trim_ws_prefix w s :
  Forall (λ c, isWhiteSpace c = true) w → trim (w ++ s) = trim s.
Proof. induction 1 as [|c w Hc _ IH]; [done |]. simpl. by rewrite trim_ws_cons. Qed.

Lemma trim_ws_suffix w s :
  Forall (λ c, isWhiteSpace c = true) w → trim (s ++ w) = trim s.
Proof.
  intros Hw. revert s. induction Hw as [|c w Hc _ IH]; intros s.
  - by rewrite app_nil_r.
  - rewrite cons_middle, app_assoc, IH. by apply trim_ws_snoc.
Qed.

(** A string with no white space at either end is its own trim. *)
Lemma trim_fixed s :
  (∀ c, head s = Some c → isWhiteSpace c = false) →
  (∀ c, last s = Some c → isWhiteSpace c = false) →
  trim s = s.
Proof.
  intros Hh Hl. unfold trim, trimStart, trimEnd.
  destruct s as [|x s]; [done |].
  simpl dropWhile. rewrite (Hh x eq_refl).
  destruct (last (x :: s)) as [y|] eqn:E; [| by rewrite last_None in E].
  apply last_Some in E as Es. destruct Es as [l' Es]. rewrite Es.
  rewrite rev_unit. simpl. rewrite (Hl y eq_refl). simpl.
  by rewrite rev_involutive.
Qed.

Lemma trim_ends s :
  (∀ c, head (trim s) = Some c → isWhiteSpace c = false)
  ∧ (∀ c, last (trim s) = Some c → isWhiteSpace c = false).
Proof.
  unfold trim, trimEnd, trimStart.
  destruct (dropWhile isWhiteSpace s) as [|x d] eqn:E; [done |].
  apply dropWhile_head in E.
  assert (H1 : rev (dropWhile isWhiteSpace (rev (x :: d)))
               = x :: rev (dropWhile isWhiteSpace (rev d))).
  { simpl rev. rewrite dropWhile_snoc_stop by done. by rewrite rev_unit. }
  rewrite H1. split.
  - by intros c [= <-].
  - intros c. destruct (dropWhile isWhiteSpace (rev d)) as [|y e] eqn:Ee.
    + by intros [= <-].
    + apply dropWhile_head in Ee. simpl rev.
      rewrite app_comm_cons, last_snoc. by intros [= <-].
Qed.

Lemma toCRLF_app a b : toCRLF (a ++ b) = toCRLF a ++ toCRLF b.
Proof. apply bind_app. Qed.

Lemma toCRLF_cons c s :
  toCRLF (c :: s) = (if (c =? LF)%N then [CR; LF] else [c]) ++ toCRLF s.
Proof. reflexivity. Qed.

Lemma toCRLF_ws w :
  Forall (λ c, isWhiteSpace c = true) w → Forall (λ c, isWhiteSpace c = true) (toCRLF w).
Proof.
  induction 1 as [|c w Hc _ IH]; [constructor |].
  rewrite toCRLF_cons. apply Forall_app. split; [| done].
  destruct (c =? LF)%N; repeat constructor; done.
Qed.

Lemma trim_toCRLF s : trim (toCRLF s) = toCRLF (trim s).
Proof.
  destruct (trim_decompose s) as (w1 & w2 & E & Hw1 & Hw2).
  rewrite E at 1. rewrite !toCRLF_app.
  rewrite trim_ws_prefix by by apply toCRLF_ws.
  rewrite trim_ws_suffix by by apply toCRLF_ws.
  destruct (trim_ends s) as [Hh Hl]. apply trim_fixed.
  - destruct (trim s) as [|x r]; [done |].
    specialize (Hh x eq_refl). rewrite toCRLF_cons.
    destruct (N.eqb_spec x LF) as [->|_]; [done |]. simpl. by intros c [= <-].
  - destruct (last (trim s)) as [y|] eqn:El.
    + specialize (Hl y eq_refl). apply last_Some in El as [l' ->].
      rewrite toCRLF_app, (toCRLF_cons y []).
      destruct (N.eqb_spec y LF) as [->|_]; [done |].
      change (toCRLF []) with (@nil N). rewrite app_nil_r.
      rewrite last_snoc. by intros c [= <-].
    + apply last_None in El. by rewrite El.
Qed.

Lemma head_toCRLF s : head (toCRLF s) ≠ Some LF.
Proof.
  destruct s as [|c s]; [done |]. rewrite toCRLF_cons.
  destruct (N.eqb_spec c LF); simpl; [by intros [= ?] | congruence].
Qed.

Lemma splitLines_toCRLF t : Forall2 sameLine (splitLines (toCRLF t)) (splitLines t).
Proof.
  induction t as [|c s IH].
  - repeat constructor.
  - rewrite toCRLF_cons.
    destruct (N.eqb_spec c LF) as [->|Hc].
    { simpl app. rewrite splitLines_cons_CRLF, splitLines_cons_LF.
      constructor; [by left | done]. }
    simpl app.
    destruct (decide (c = CR ∧ head s = Some LF)) as [[-> Hs]|Hcr].
    + destruct s as [|y s]; [done |]. injection Hs as ->.
      rewrite splitLines_cons_CRLF.
      rewrite toCRLF_cons in IH |- *. simpl app in IH |- *.
      rewrite splitLines_cons_CRLF, splitLines_cons_LF in IH.
      apply Forall2_cons in IH as [_ IH].
      destruct (splitLines_cons_other CR (CR :: LF :: toCRLF s))
        as (piece & pieces & E & ->); [done | done |].
      rewrite splitLines_cons_CRLF in E. injection E as <- <-.
      constructor; [by right | done].
    + destruct (splitLines_cons_other c s) as (p & ps & Ep & ->); [done | tauto |].
      destruct (splitLines_cons_other c (toCRLF s)) as (p' & ps' & Ep' & ->);
        [done | intros _; apply head_toCRLF |].
      rewrite Ep, Ep' in IH. apply Forall2_cons in IH as [HR IH].
      constructor; [| done].
      destruct HR as [->| ->]; [by left | by right].
Qed.

Lemma sameLine_trim l1 l2 : sameLine l1 l2 → trim l1 = trim l2.
Proof. intros [->| ->]; [done |]. by apply trim_ws_snoc. Qed.

Lemma omap_parseLine_sameLine lines1 lines2 :
  Forall2 sameLine lines1 lines2 → omap parseLine lines1 = omap parseLine lines2.
Proof.
  induction 1 as [|l1 l2 lines1 lines2 HR _ IH]; [done |].
  cbn [omap list_omap]. rewrite (parseLine_trim l1 l2) by by apply sameLine_trim.
  fold (omap parseLine lines1). fold (omap parseLine lines2). by rewrite IH.
Qed.

(** X12. Line endings do not matter: a text whose lines end with a line feed and
    the same text with every line feed made a carriage return and a line
    feed give the same records, also when some of its lines ended that way
    already. *)
Theorem parseCsv_line_endings (text : jsstring) :
  parseCsv (toCRLF text) = parseCsv text
  ∧ length (splitLines (toCRLF text)) = length (splitLines text)
  ∧ parseCsv (str "PlayerID,Score,Game" ++ CR :: LF :: str "A,1,x" ++ CR :: LF :: str "B,2,y")
    = [mkScore (str "A") 1; mkScore (str "B") 2].
Proof.
  split_and!.
  - rewrite !parseCsv_lines, trim_toCRLF.
    apply omap_parseLine_sameLine, Forall2_drop, splitLines_toCRLF.
  - apply (Forall2_length _ _ _ (splitLines_toCRLF text)).
  - vm_compute. reflexivity.
Qed.

(** A line feed put between two texts: the lines of the first, then the
    lines of the second, the last line of the first without the carriage
    return it may end with. *)
Lemma splitLines_app_LF a b :
  ∃ init last last',
    splitLines a = init ++ [last]
    ∧ splitLines (a ++ LF :: b) = init ++ last' :: splitLines b
    ∧ sameLine last last'.
Proof.
  induction a as [|x a IH].
  - exists [], [], []. split_and!; [done | done | by left].
  - destruct IH as (init & last & last' & E & E' & HR).
    rewrite <- app_comm_cons.
    destruct (decide (x = LF)) as [->|Hx].
    { exists ([] :: init), last, last'.
      rewrite !splitLines_cons_LF, E, E'. done. }
    destruct (decide (x = CR ∧ head a = Some LF)) as [[-> Hs]|Hcr].
    { destruct a as [|y a]; [done |]. injection Hs as ->.
      exists init, last, last'. rewrite <- app_comm_cons.
      rewrite !splitLines_cons_CRLF.
      rewrite <- app_comm_cons in E'.
      rewrite splitLines_cons_LF in E, E'. done. }
    destruct (decide (x = CR ∧ a = [])) as [[-> ->]|Hcr'].
    { exists [], [CR], []. split_and!; [done | done | by right]. }
    destruct (splitLines_cons_other x a) as (p & ps & Ep & ->); [done | tauto |].
    destruct (splitLines_cons_other x (a ++ LF :: b)) as (p' & ps' & Ep' & ->); [done | |].
    { intros ->. destruct a as [|y a]; simpl; [tauto |]. intros [= ->]. tauto. }
    rewrite E in Ep. rewrite E' in Ep'.
    destruct init as [|i0 init].
    + injection Ep as <- <-. injection Ep' as <- <-.
      exists [], (x :: last), (x :: last').
      split_and!; [done | done |].
      destruct HR as [->| ->]; [by left | by right].
    + injection Ep as <- <-. injection Ep' as <- <-.
      exists ((x :: i0) :: init), last, last'. done.
Qed.

Lemma trim_nil_iff s : trim s = [] ↔ Forall (λ c, isWhiteSpace c = true) s.
Proof.
  split.
  - intros E. destruct (trim_decompose s) as (w1 & w2 & Es & Hw1 & Hw2).
    rewrite E in Es. rewrite Es. simpl. by apply Forall_app.
  - intros Hw. rewrite <- (app_nil_r s). by rewrite trim_ws_prefix.
Qed.

Lemma parseLine_blank raw : trim raw = [] → parseLine raw = None.
Proof. unfold parseLine. by intros ->. Qed.

Lemma omap_parseLine_trim (lines : list jsstring) :
  omap parseLine (trim <$> lines) = omap parseLine lines.
Proof.
  induction lines as [|l lines IH]; [done |].
  rewrite fmap_cons. cbn [omap list_omap].
  rewrite (parseLine_trim (trim l) l) by apply trim_idem.
  fold (omap parseLine lines). fold (omap parseLine (trim <$> lines)). by rewrite IH.
Qed.

Lemma omap_parseLine_blanks k : omap parseLine (replicate k []) = [].
Proof. induction k as [|k IH]; [done |]. simpl. exact IH. Qed.

Lemma dropWhile_blanks k (lines : list jsstring) :
  dropWhile isEmpty (replicate k [] ++ lines) = dropWhile isEmpty lines.
Proof. induction k as [|k IH]; [done |]. simpl. exact IH. Qed.

Lemma first_line_nonblank t :
  t ≠ [] → (∀ c, head t = Some c → isWhiteSpace c = false) →
  ∃ l0 rest, splitLines t = l0 :: rest ∧ trim l0 ≠ [].
Proof.
  intros Hne Hh. destruct t as [|x r]; [done |].
  specialize (Hh x eq_refl).
  destruct (splitLines_cons_other x r) as (piece & pieces & _ & ->).
  - intros ->. done.
  - intros ->. done.
  - exists (x :: piece), pieces. split; [done |].
    rewrite trim_nil_iff. intros Hall. apply Forall_cons in Hall as [Hx _]. congruence.
Qed.

(** When the text holds something, the header is the first line that is not
    blank, and the records are those of the lines after it. *)
Lemma content_lines text :
  trim text ≠ [] →
  ∃ header rest,
    dropWhile isEmpty (trim <$> splitLines text) = header :: rest
    ∧ parseCsv text = omap parseLine rest.
Proof.
  intros Hne.
  destruct (splitLines_trim text) as (k1 & k2 & E).
  destruct (first_line_nonblank (trim text) Hne (proj1 (trim_ends text)))
    as (l0 & rest & El & Hl0).
  exists (trim l0), ((trim <$> rest) ++ replicate k2 []).
  rewrite E, dropWhile_blanks, El, fmap_cons. split.
  - simpl. by destruct (trim l0).
  - rewrite parseCsv_lines, El. simpl drop.
    by rewrite omap_app, omap_parseLine_blanks, app_nil_r, omap_parseLine_trim.
Qed.

Lemma dropWhile_app_cons {A} (f : A → bool) l m y r :
  dropWhile f l = y :: r → dropWhile f (l ++ m) = y :: r ++ m.
Proof.
  induction l as [|x l IH]; simpl; [done |].
  destruct (f x); [exact IH | by intros [= <- <-]].
Qed.

(** X13. A row added at the end of a file adds its record at the end of the
    records, and changes nothing to those of the rows before it: for a text
    that holds a header and a line written after a line feed, the records
    are those of the text followed by the record of the line, if it yields
    one. *)
Theorem parseCsv_append_row (text line : jsstring) :
  trim text ≠ [] → (LF ∉ line) →
  parseCsv (text ++ LF :: line) = parseCsv text ++ option_list (parseLine line).
Proof.
  intros Hne Hline.
  assert (Hne' : trim (text ++ LF :: line) ≠ []).
  { rewrite trim_nil_iff, Forall_app. intros [Hw _]. by apply Hne, trim_nil_iff. }
  destruct (content_lines text Hne) as (header & rest & Ed & ->).
  destruct (content_lines _ Hne') as (header' & rest' & Ed' & ->).
  destruct (splitLines_app_LF text line) as (init & last & last' & E & E' & HR).
  rewrite (splitLines_single line Hline) in E'.
  assert (Elines : trim <$> splitLines (text ++ LF :: line)
                   = (trim <$> splitLines text) ++ [trim line]).
  { rewrite E, E', !fmap_app, !fmap_cons, !fmap_nil.
    rewrite (sameLine_trim _ _ HR). by rewrite <- app_assoc. }
  rewrite Elines, (dropWhile_app_cons _ _ _ _ _ Ed) in Ed'.
  injection Ed' as _ <-.
  rewrite omap_app. f_equal. cbn [omap list_omap].
  rewrite (parseLine_trim (trim line) line) by apply trim_idem.
  by destruct (parseLine line).
Qed.

Lemma parseCsv_append_row_witness :
  trim (str "PlayerID,Score,Game" ++ LF :: str "A,1,x") ≠ []
  ∧ (LF ∉ str "B,2,y")
  ∧ parseCsv ((str "PlayerID,Score,Game" ++ LF :: str "A,1,x") ++ LF :: str "B,2,y")
    = parseCsv (str "PlayerID,Score,Game" ++ LF :: str "A,1,x")
      ++ option_list (parseLine (str "B,2,y")).
Proof.
  assert (H1 : trim (str "PlayerID,Score,Game" ++ LF :: str "A,1,x") ≠ [])
    by (vm_compute; congruence).
  assert (H2 : LF ∉ str "B,2,y") by (apply (bool_decide_unpack _); exact I).
  split; [exact H1 |]. split; [exact H2 |].
  exact (parseCsv_append_row _ _ H1 H2).
Defined.

(* ------------------------------------------------------------------ *)
(** ** The scoreboard page *)
(* ------------------------------------------------------------------ *)

Section PageFacts.
Variable localeCompare : jsstring → jsstring → number.

Lemma getCurrentSplitInfo_split today :
  SplitInfo.split (getCurrentSplitInfo today) = 1
  ∨ SplitInfo.split (getCurrentSplitInfo today) = 2.
Proof. unfold getCurrentSplitInfo. simpl. destruct (7 <=? _); auto. Qed.

Lemma past_paths_NoDup G (currentInfo : SplitInfo.t) :
  SplitInfo.split currentInfo = 1 ∨ SplitInfo.split currentInfo = 2 →
  NoDup (buildCsvPath G (SplitInfo.year currentInfo) (SplitInfo.split currentInfo)
         :: ((λ s, buildCsvPath G (SplitInfo.year s) (SplitInfo.split s))
               <$> filter (λ s, s ≠ currentInfo) (splitsToCheck G currentInfo))).
Proof.
  intros Hcur. constructor.
  - intros Hin. apply list_elem_of_fmap in Hin as (s & Hpath & Hs).
    apply list_elem_of_filter in Hs as [Hne Hs].
    apply elem_of_splitsToCheck in Hs as (_ & Hsp & _).
    apply Hne. symmetry. by apply (buildCsvPath_inj G).
  - apply NoDup_fmap_2_strong.
    + intros a b Ha Hb E.
      apply list_elem_of_filter in Ha as [_ Ha]. apply list_elem_of_filter in Hb as [_ Hb].
      apply elem_of_splitsToCheck in Ha as (_ & Ha & _).
      apply elem_of_splitsToCheck in Hb as (_ & Hb & _).
      by apply (buildCsvPath_inj G).
    + apply NoDup_filter, splitsToCheck_NoDup.
Qed.

(** X14. A page load asks for each file once: first the file of the current
    split, for the main table, then the files of the splits before it, for
    the Hall of Fame, no path twice. The year and the split shown above the
    table are those of the date. On a page where one of the five elements
    is missing, nothing is requested and nothing changes. *)
Theorem initScoreboardPage_requests G (today : Date) (w : World) (log : list jsstring)
    (year0 split0 : jsstring) (status0 : StatusLine) (tbody0 : list TableRow)
    (hof0 : HofDisplay) :
  snd (initScoreboardPage localeCompare G today
         (mkPage (Some year0) (Some split0) (Some status0) (Some tbody0) (Some hof0)) w log)
  = log ++ buildCsvPath G (getFullYear today) (SplitInfo.split (getCurrentSplitInfo today))
           :: ((λ s, buildCsvPath G (SplitInfo.year s) (SplitInfo.split s))
                 <$> filter (λ s, s ≠ getCurrentSplitInfo today)
                            (splitsToCheck G (getCurrentSplitInfo today)))
  ∧ NoDup (buildCsvPath G (getFullYear today) (SplitInfo.split (getCurrentSplitInfo today))
           :: ((λ s, buildCsvPath G (SplitInfo.year s) (SplitInfo.split s))
                 <$> filter (λ s, s ≠ getCurrentSplitInfo today)
                            (splitsToCheck G (getCurrentSplitInfo today))))
  ∧ yearEl (fst (initScoreboardPage localeCompare G today
                   (mkPage (Some year0) (Some split0) (Some status0) (Some tbody0)
                           (Some hof0)) w log))
    = Some (numToString (getFullYear today))
  ∧ splitEl (fst (initScoreboardPage localeCompare G today
                    (mkPage (Some year0) (Some split0) (Some status0) (Some tbody0)
                            (Some hof0)) w log))
    = Some (if 6 <=? getMonth today then str "2" else str "1")
  ∧ (∀ page,
       yearEl page = None ∨ splitEl page = None ∨ statusEl page = None
       ∨ tbodyEl page = None ∨ hofContainer page = None →
       initScoreboardPage localeCompare G today page w log = (page, log)).
Proof.
  unfold initScoreboardPage. cbn [yearEl splitEl statusEl tbodyEl hofContainer].
  rewrite loadSplitIntoMainTable_run.
  destruct (buildHallOfFame_run localeCompare G (getCurrentSplitInfo today) w
              (log ++ [buildCsvPath G (SplitInfo.year (getCurrentSplitInfo today))
                         (SplitInfo.split (getCurrentSplitInfo today))]))
    as (Hlog & _ & _).
  destruct (buildHallOfFame localeCompare G (getCurrentSplitInfo today) w _)
    as [hof log2] eqn:Eb.
  simpl in Hlog. subst log2.
  destruct (showMainTable _ _ tbody0) as [status tbody] eqn:Es.
  cbn [fst snd yearEl splitEl]. split_and!.
  - rewrite requests_of_splits, <- app_assoc. done.
  - apply (past_paths_NoDup G (getCurrentSplitInfo today)), getCurrentSplitInfo_split.
  - done.
  - unfold getCurrentSplitInfo. cbn [SplitInfo.split].
    destruct (Z.leb_spec 7 (getMonth today + 1)), (Z.leb_spec 6 (getMonth today));
      try lia; done.
  - intros [yearE splitE statusE tbodyE hofE]. simpl.
    intros [->|[->|[->|[->| ->]]]]; try done.
    + by destruct yearE.
    + by destruct yearE, splitE.
    + by destruct yearE, splitE, statusE.
    + by destruct yearE, splitE, statusE, tbodyE.
Qed.

(** X15. What the page shows once the loads have settled. The status line
    carries the error class exactly when the file of the current split could
    not be had (the request failed, the answer was not a success, or its
    body could not be read), and the table body then keeps the rows it had;
    otherwise the table body holds the rows of the file, none when it has no
    record. The text that announces the loading never stays. The Hall of
    Fame container shows what [buildHallOfFame] gives, and is left as it was
    while that is pending. *)
Theorem initScoreboardPage_shows G (today : Date) (w : World) (log : list jsstring)
    (year0 split0 : jsstring) (status0 : StatusLine) (tbody0 : list TableRow)
    (hof0 : HofDisplay) :
  ∃ status tbody hof,
    fst (initScoreboardPage localeCompare G today
           (mkPage (Some year0) (Some split0) (Some status0) (Some tbody0) (Some hof0)) w log)
    = mkPage (Some (numToString (getFullYear today)))
             (Some (numToString (SplitInfo.split (getCurrentSplitInfo today))))
             (Some status) (Some tbody) (Some hof)
    ∧ (statusError status = true ↔
       ¬ ∃ st csv,
           network w (buildCsvPath G (getFullYear today)
                        (SplitInfo.split (getCurrentSplitInfo today)))
           = Some (mkResponse true st (Some csv)))
    ∧ (statusError status = true → tbody = tbody0)
    ∧ (∀ st csv,
         network w (buildCsvPath G (getFullYear today)
                      (SplitInfo.split (getCurrentSplitInfo today)))
         = Some (mkResponse true st (Some csv)) →
         tbody = renderMainTableRows G (rankedOf localeCompare csv))
    ∧ statusText status
      ≠ str "Loading scores from "
        ++ buildCsvPath G (getFullYear today) (SplitInfo.split (getCurrentSplitInfo today))
        ++ [8230%N]
    ∧ hof = showHallOfFame G
              (fst (buildHallOfFame localeCompare G (getCurrentSplitInfo today) w
                      (log ++ [buildCsvPath G (getFullYear today)
                                 (SplitInfo.split (getCurrentSplitInfo today))])))
              hof0.
Proof.
  unfold initScoreboardPage. cbn [yearEl splitEl statusEl tbodyEl hofContainer].
  rewrite loadSplitIntoMainTable_run.
  change (SplitInfo.year (getCurrentSplitInfo today)) with (getFullYear today).
  set (path := buildCsvPath G (getFullYear today) (SplitInfo.split (getCurrentSplitInfo today))).
  destruct (buildHallOfFame localeCompare G (getCurrentSplitInfo today) w (log ++ [path]))
    as [hofr log2] eqn:Eb.
  destruct (showMainTable _ _ tbody0) as [status tbody] eqn:Es.
  exists status, tbody, (showHallOfFame G hofr hof0).
  cbn [fst]. split; [done |].
  assert (Hhead : ∀ status' : StatusLine,
            head (statusText status') ≠ Some 76%N →
            statusText status' ≠ str "Loading scores from " ++ path ++ [8230%N]).
  { intros status' Hh E. by rewrite E in Hh. }
  unfold mainDataFor in Es.
  destruct (network w path) as [[[] st [csv|]]|]; simpl in Es.
  - assert (Hst : statusError status = false
                  ∧ tbody = renderMainTableRows G (rankedOf localeCompare csv)
                  ∧ head (statusText status) ≠ Some 76%N).
    { destruct (parseCsv csv) eqn:Ep; simpl in Es; injection Es as <- <-;
        (split_and!; [done | first [reflexivity | by unfold rankedOf; rewrite Ep]
                      | cbn [statusText]; intros E; vm_compute in E; by injection E]). }
    destruct Hst as (He & Ht & Htext).
    split_and!; [| by rewrite He | by intros ? ? [= _ <-] | by apply Hhead | done].
    rewrite He. split; [done |]. intros Hn. exfalso. apply Hn. by exists st, csv.
  - injection Es as <- <-.
    split_and!; [| done | done | by apply Hhead | done].
    split; [| done]. by intros _ (? & ? & [=]).
  - injection Es as <- <-.
    split_and!; [| done | done | by apply Hhead | done].
    split; [| done]. by intros _ (? & ? & [=]).
  - injection Es as <- <-.
    split_and!; [| done | done | by apply Hhead | done].
    split; [| done]. by intros _ (? & ? & [=]).
  - injection Es as <- <-.
    split_and!; [| done | done | by apply Hhead | done].
    split; [| done]. by intros _ (? & ? & [=]).
Qed.

(** X16. The entry drawn for a summary [summariseSplitForHallOfFame] makes: its
    title names the year and the split; it shows a table exactly for a
    completed split, with one or two rows labelled "Rank 1" and "Rank 2";
    it says "In progress" for the current split and "Off split" for an
    off-split, so the message "Off split", which the code also has for a
    completed summary without players, is never shown for a completed
    split. *)
Theorem renderHallOfFameEntry_body G currentInfo w log (year split : Z) :
  ∃ summary,
    fst (summariseSplitForHallOfFame localeCompare G year split currentInfo w log)
    = Fulfilled summary
    ∧ hofTitle (renderHallOfFameEntry G summary)
      = numToString year ++ [32; 183; 32]%N ++ str "Split " ++ numToString split
    ∧ match hofBody (renderHallOfFameEntry G summary) with
      | HofTable rows =>
          status summary = Completed
          ∧ (1 ≤ length rows ≤ 2)%nat
          ∧ hofRankCell <$> rows = take (length rows) [str "Rank 1"; str "Rank 2"]
      | HofStatus message =>
          (SplitInfo.mk year split = currentInfo ∧ status summary = InProgress
           ∧ message = str "In progress")
          ∨ (SplitInfo.mk year split ≠ currentInfo ∧ status summary = OffSplit
             ∧ message = str "Off split")
      end
    ∧ hofBody (renderHallOfFameEntry G (mkSummary year split Completed None))
      = HofStatus (str "Off split")
    ∧ hofBody (renderHallOfFameEntry G (mkSummary year split Completed (Some [])))
      = HofStatus (str "Off split").
Proof.
  pose proof (summarise_run localeCompare G currentInfo w log (SplitInfo.mk year split)) as H.
  simpl in H. rewrite H. eexists. split; [done |].
  unfold summaryFor, classifyAnswer. cbn [SplitInfo.year SplitInfo.split].
  destruct (decide _) as [E|Hne].
  { split_and!; try done. by left. }
  destruct (network w _) as [[[] st [csv|]]|];
    try (split_and!; try done; by right).
  destruct (rankedOf localeCompare csv) as [|r1 ranked] eqn:Er.
  { split_and!; try done. by right. }
  split_and!; try done.
  assert (Hranks : Ranked.rank <$> (r1 :: ranked)
                   = seqZ 1 (Z.of_nat (length (r1 :: ranked)))).
  { rewrite <- Er. unfold rankedOf.
    rewrite createRankedArray_rank_seq. by rewrite createRankedArray_length. }
  unfold renderHallOfFameEntry.
  cbn [status players hofBody length Nat.eqb negb andb default take].
  rewrite !fmap_cons in Hranks. simpl length in Hranks.
  rewrite seqZ_cons in Hranks by lia. injection Hranks as E1 Hranks.
  split; [done |].
  destruct ranked as [|r2 ranked].
  - unfold id. simpl take. rewrite ?fmap_cons, ?fmap_nil.
    cbn [hofRankCell length take]. rewrite E1. split; [simpl; lia | done].
  - rewrite fmap_cons in Hranks. simpl length in Hranks.
    rewrite seqZ_cons in Hranks by lia. injection Hranks as E2 _.
    unfold id. simpl take. rewrite ?fmap_cons, ?fmap_nil.
    cbn [hofRankCell length take]. rewrite E1, E2. split; [simpl; lia | done].
Qed.

End PageFacts.

(* ------------------------------------------------------------------ *)
(** ** The navigation menu *)
(* ------------------------------------------------------------------ *)

Lemma elem_of_classList_add classes token t :
  t ∈ classList_add classes token ↔ t ∈ classes ∨ t = token.
Proof.
  unfold classList_add, classList_contains. case_bool_decide as H.
  - split; [auto |]. by intros [?| ->].
  - rewrite elem_of_app, list_elem_of_singleton. tauto.
Qed.

Lemma elem_of_classList_remove classes token t :
  t ∈ classList_remove classes token ↔ t ∈ classes ∧ t ≠ token.
Proof. unfold classList_remove. rewrite list_elem_of_filter. tauto. Qed.

Lemma classList_add_NoDup classes token :
  NoDup classes → NoDup (classList_add classes token).
Proof.
  intros Hnd. unfold classList_add, classList_contains. case_bool_decide as H; [done |].
  apply NoDup_app. split_and!; [done | | apply NoDup_singleton].
  intros x Hx Hx'. apply list_elem_of_singleton in Hx' as ->. done.
Qed.

Lemma classList_remove_NoDup classes token :
  NoDup classes → NoDup (classList_remove classes token).
Proof. apply NoDup_filter. Qed.

(** One click on a page that has the menu: the menu is still there, the two
    classes go together afterwards, every other class is as it was, and a
    click that is not on the toggle button leaves the menu closed. *)
Lemma navClick_step page click classes :
  navClasses page = Some classes →
  ∃ classes',
    navClasses (navClick page click) = Some classes'
    ∧ (∀ t, t ≠ str "nav-open" → (t ∈ classes' ↔ t ∈ classes))
    ∧ (∀ t, t ≠ str "nav-menu-open" →
            t ∈ bodyClasses (navClick page click) ↔ t ∈ bodyClasses page)
    ∧ (str "nav-open" ∈ classes'
       ↔ str "nav-menu-open" ∈ bodyClasses (navClick page click))
    ∧ (str "nav-open" ∈ classes' ↔ click = ToggleClick ∧ str "nav-open" ∉ classes)
    ∧ (NoDup classes → NoDup classes')
    ∧ (NoDup (bodyClasses page) → NoDup (bodyClasses (navClick page click))).
Proof.
  intros Hnav.
  assert (Hclose : ∃ classes',
    navClasses (closeNav page) = Some classes'
    ∧ (∀ t, t ≠ str "nav-open" → (t ∈ classes' ↔ t ∈ classes))
    ∧ (∀ t, t ≠ str "nav-menu-open" →
            t ∈ bodyClasses (closeNav page) ↔ t ∈ bodyClasses page)
    ∧ (str "nav-open" ∈ classes' ↔ str "nav-menu-open" ∈ bodyClasses (closeNav page))
    ∧ (str "nav-open" ∉ classes')
    ∧ (NoDup classes → NoDup classes')
    ∧ (NoDup (bodyClasses page) → NoDup (bodyClasses (closeNav page)))).
  { unfold closeNav. rewrite Hnav. eexists. split; [done |]. cbn [bodyClasses].
    split_and!.
    - intros t Ht. rewrite elem_of_classList_remove. tauto.
    - intros t Ht. rewrite elem_of_classList_remove. tauto.
    - rewrite !elem_of_classList_remove. tauto.
    - rewrite elem_of_classList_remove. tauto.
    - apply classList_remove_NoDup.
    - apply classList_remove_NoDup. }
  assert (Hopen : ∃ classes',
    navClasses (openNav page) = Some classes'
    ∧ (∀ t, t ≠ str "nav-open" → (t ∈ classes' ↔ t ∈ classes))
    ∧ (∀ t, t ≠ str "nav-menu-open" →
            t ∈ bodyClasses (openNav page) ↔ t ∈ bodyClasses page)
    ∧ (str "nav-open" ∈ classes' ↔ str "nav-menu-open" ∈ bodyClasses (openNav page))
    ∧ str "nav-open" ∈ classes'
    ∧ (NoDup classes → NoDup classes')
    ∧ (NoDup (bodyClasses page) → NoDup (bodyClasses (openNav page)))).
  { unfold openNav. rewrite Hnav. eexists. split; [done |]. cbn [bodyClasses].
    split_and!.
    - intros t Ht. rewrite elem_of_classList_add. tauto.
    - intros t Ht. rewrite elem_of_classList_add. tauto.
    - rewrite !elem_of_classList_add. tauto.
    - rewrite elem_of_classList_add. tauto.
    - apply classList_add_NoDup.
    - apply classList_add_NoDup. }
  destruct click; cbn [navClick].
  - rewrite Hnav. unfold toggleNav. rewrite Hnav. unfold classList_contains.
    case_bool_decide as Hin.
    + destruct Hclose as (c' & H1 & H2 & H3 & H4 & H5 & H6 & H7).
      exists c'. split_and!; try done; tauto.
    + destruct Hopen as (c' & H1 & H2 & H3 & H4 & H5 & H6 & H7).
      exists c'. split_and!; try done; tauto.
  - destruct Hclose as (c' & H1 & H2 & H3 & H4 & H5 & H6 & H7).
    exists c'. split_and!; try done; (split; [done | by intros [? _]]).
  - destruct Hclose as (c' & H1 & H2 & H3 & H4 & H5 & H6 & H7).
    exists c'. split_and!; try done; (split; [done | by intros [? _]]).
Qed.

(** X17. The menu, under any clicks. On a page without the menu nothing ever
    changes. On a page with it, after one click or more the class
    ["nav-open"] of the menu and the class ["nav-menu-open"] of the body go
    together, whatever they were before; no other class of either element
    is added or removed, and no class comes to stand twice; the menu is open
    exactly when the last click was on the toggle button and the menu was
    closed before it; so a click on the overlay or on a link always closes
    the menu, and two clicks on the toggle button in a row leave it as the
    first found it. *)
Theorem navClick_invariant (page : NavPage) (clicks : list NavClick) :
  (navClasses page = None → fold_left navClick clicks page = page)
  ∧ (∀ classes, navClasses page = Some classes →
       ∃ classes',
         navClasses (fold_left navClick clicks page) = Some classes'
         ∧ (∀ t, t ≠ str "nav-open" → (t ∈ classes' ↔ t ∈ classes))
         ∧ (∀ t, t ≠ str "nav-menu-open" →
              t ∈ bodyClasses (fold_left navClick clicks page) ↔ t ∈ bodyClasses page)
         ∧ (clicks ≠ [] →
            (str "nav-open" ∈ classes'
             ↔ str "nav-menu-open" ∈ bodyClasses (fold_left navClick clicks page)))
         ∧ (∀ before click, clicks = before ++ [click] →
              (menuOpen (fold_left navClick clicks page)
               ↔ click = ToggleClick ∧ ¬ menuOpen (fold_left navClick before page)))
         ∧ (NoDup classes → NoDup classes')
         ∧ (NoDup (bodyClasses page) →
            NoDup (bodyClasses (fold_left navClick clicks page))))
  ∧ (menuOpen (fold_left navClick (clicks ++ [ToggleClick; ToggleClick]) page)
     ↔ menuOpen (fold_left navClick clicks page)).
Proof.
  assert (Hall : ∀ clicks page classes, navClasses page = Some classes →
    ∃ classes',
      navClasses (fold_left navClick clicks page) = Some classes'
      ∧ (∀ t, t ≠ str "nav-open" → (t ∈ classes' ↔ t ∈ classes))
      ∧ (∀ t, t ≠ str "nav-menu-open" →
           t ∈ bodyClasses (fold_left navClick clicks page) ↔ t ∈ bodyClasses page)
      ∧ (clicks ≠ [] →
         (str "nav-open" ∈ classes'
          ↔ str "nav-menu-open" ∈ bodyClasses (fold_left navClick clicks page)))
      ∧ (NoDup classes → NoDup classes')
      ∧ (NoDup (bodyClasses page) →
         NoDup (bodyClasses (fold_left navClick clicks page)))).
  { clear. intros clicks. induction clicks as [|click clicks IH] using rev_ind;
      intros page classes Hnav.
    - exists classes. by split_and!.
    - destruct (IH page classes Hnav) as (c1 & Hn1 & Hc1 & Hb1 & _ & Hd1 & Hd1').
      rewrite fold_left_app. cbn [fold_left].
      destruct (navClick_step _ click c1 Hn1)
        as (c2 & Hn2 & Hc2 & Hb2 & Hs2 & _ & Hd2 & Hd2').
      exists c2. split_and!; [done | | | done | by auto | by auto].
      + intros t Ht. by rewrite Hc2, Hc1.
      + intros t Ht. by rewrite Hb2, Hb1. }
  assert (Hlast : ∀ before click page classes, navClasses page = Some classes →
    menuOpen (fold_left navClick (before ++ [click]) page)
    ↔ click = ToggleClick ∧ ¬ menuOpen (fold_left navClick before page)).
  { clear -Hall. intros before click page classes Hnav.
    destruct (Hall before page classes Hnav) as (c1 & Hn1 & _).
    rewrite fold_left_app. cbn [fold_left].
    destruct (navClick_step _ click c1 Hn1) as (c2 & Hn2 & _ & _ & _ & Ho & _).
    unfold menuOpen. rewrite Hn2, Hn1. split.
    - intros (c & [= <-] & Hin). apply Ho in Hin as [-> Hin]. split; [done |].
      by intros (c & [= <-] & Hin').
    - intros [-> Hn]. exists c2. split; [done |]. apply Ho. split; [done |].
      intros Hin. apply Hn. by exists c1. }
  assert (Hnone : ∀ clicks page, navClasses page = None →
            fold_left navClick clicks page = page).
  { clear. intros clicks. induction clicks as [|click clicks IH]; intros page Hnav; [done |].
    cbn [fold_left].
    assert (E : navClick page click = page).
    { destruct click; cbn [navClick]; unfold closeNav; by rewrite Hnav. }
    rewrite E. by apply IH. }
  split_and!.
  - apply Hnone.
  - intros classes Hnav.
    destruct (Hall clicks page classes Hnav) as (c' & H1 & H2 & H3 & H4 & H5 & H6).
    exists c'. split_and!; try done.
    intros before click ->. by apply (Hlast before click page classes).
  - destruct (navClasses page) as [classes|] eqn:Hnav.
    + change [ToggleClick; ToggleClick] with ([ToggleClick] ++ [ToggleClick]).
      rewrite app_assoc.
      rewrite (Hlast (clicks ++ [ToggleClick]) ToggleClick page classes Hnav).
      rewrite (Hlast clicks ToggleClick page classes Hnav).
      destruct (Hall clicks page classes Hnav) as (c1 & Hn1 & _).
      assert (Hdec : Decision (menuOpen (fold_left navClick clicks page))).
      { unfold menuOpen. rewrite Hn1.
        destruct (decide (str "nav-open" ∈ c1)) as [Hin|Hin].
        - left. by exists c1.
        - right. by intros (c & [= <-] & ?). }
      destruct Hdec; tauto.
    + rewrite !Hnone by done. unfold menuOpen. rewrite Hnav.
      split; by intros (? & [=] & _).
Qed.

(* ------------------------------------------------------------------ *)
(** ** The passphrase of the schedule *)
(* ------------------------------------------------------------------ *)

Lemma byteHex_spec (b : Byte.byte) :
  ∃ c1 c2 h l,
    byteHex b = [c1; c2]
    ∧ hexValue c1 = Some h ∧ hexValue c2 = Some l
    ∧ Byte.of_N (16 * h + l) = Some b
    ∧ toLowerCase [c1; c2] = [c1; c2].
Proof.
  exists (nth 0 (byteHex b) 0%N), (nth 1 (byteHex b) 0%N),
         (Byte.to_N b / 16)%N, (Byte.to_N b mod 16)%N.
  destruct b; vm_compute; by split_and!.
Qed.

Lemma hexDecode_byteHex b (bs : list Byte.byte) :
  hexDecode (byteHex b ++ concat (byteHex <$> bs))
  = (b ::.) <$> hexDecode (concat (byteHex <$> bs)).
Proof.
  destruct (byteHex_spec b) as (c1 & c2 & h & l & -> & H1 & H2 & H3 & _).
  cbn [app hexDecode]. rewrite H1, H2. cbn [mbind option_bind]. rewrite H3.
  cbn [mbind option_bind]. by destruct (hexDecode _).
Qed.

(** The hexadecimal writing of a digest: two lower-case digits a byte, from
    which the bytes are read back. *)
Lemma hex_of_digest (h : list Byte.byte) :
  length (concat (byteHex <$> h)) = (2 * length h)%nat
  ∧ Forall (λ c, is_Some (hexValue c)) (concat (byteHex <$> h))
  ∧ toLowerCase (concat (byteHex <$> h)) = concat (byteHex <$> h)
  ∧ hexDecode (concat (byteHex <$> h)) = Some h.
Proof.
  induction h as [|b h (IH1 & IH2 & IH3 & IH4)]; [by split_and! |].
  rewrite fmap_cons. cbn [concat].
  rewrite hexDecode_byteHex, IH4.
  destruct (byteHex_spec b) as (c1 & c2 & hi & lo & -> & H1 & H2 & H3 & H4).
  split_and!.
  - cbn [app length]. rewrite IH1. simpl. lia.
  - cbn [app]. repeat constructor; [by rewrite H1 | by rewrite H2 | done].
  - unfold toLowerCase in *. rewrite fmap_app, IH3. by rewrite H4.
  - done.
Qed.

Lemma unlock_test (h : list Byte.byte) :
  negb (isEmpty SCHEDULE_PASSWORD_HASH)
  && bool_decide (toLowerCase (concat (byteHex <$> h)) = toLowerCase SCHEDULE_PASSWORD_HASH)
  = bool_decide (h = expectedDigest).
Proof.
  destruct (hex_of_digest h) as (_ & _ & -> & Hd).
  change (negb (isEmpty SCHEDULE_PASSWORD_HASH)) with true. cbn [andb].
  assert (Hc : toLowerCase SCHEDULE_PASSWORD_HASH = SCHEDULE_PASSWORD_HASH)
    by (vm_compute; reflexivity).
  assert (He : hexDecode SCHEDULE_PASSWORD_HASH = Some expectedDigest)
    by (vm_compute; reflexivity).
  assert (Hx : concat (byteHex <$> expectedDigest) = SCHEDULE_PASSWORD_HASH)
    by (vm_compute; reflexivity).
  rewrite Hc. apply bool_decide_ext. split.
  - intros E. rewrite E, He in Hd. by injection Hd.
  - by intros ->.
Qed.

Section CryptoFacts.
Variable digest : list N → option (list Byte.byte).

(** X18. The promise of [hashStringSHA256] is rejected when the digest is, and
    otherwise fulfilled with the digest in hexadecimal: two digits a byte,
    64 for the 32 bytes of SHA-256, all of them digits or lower-case letters
    from a to f, so that [toLowerCase] changes nothing to it, and such that
    the bytes can be read back from it: two digests with the same writing
    are the same. What is hashed for a text of ASCII characters is the list
    of their codes. *)
Theorem hashStringSHA256_hex (text : jsstring) :
  match digest (encode text) with
  | None => hashStringSHA256 digest text = None
  | Some h =>
      ∃ hashHex,
        hashStringSHA256 digest text = Some hashHex
        ∧ length hashHex = (2 * length h)%nat
        ∧ Forall (λ c, is_Some (hexValue c)) hashHex
        ∧ toLowerCase hashHex = hashHex
        ∧ hexDecode hashHex = Some h
  end
  ∧ (Forall (λ c, (c < 128)%N) text → encode text = text).
Proof.
  split.
  - unfold hashStringSHA256. destruct (digest (encode text)) as [h|]; [| done].
    cbn [mbind option_bind]. eexists. split; [done |]. apply (hex_of_digest h).
  - unfold encode. induction 1 as [|c s Hc Hs IH]; [done |].
    cbn [codePoints].
    assert (Hh : isHighSurrogate c = false).
    { unfold isHighSurrogate. apply andb_false_iff. left. apply N.leb_gt. lia. }
    assert (Hl : isLowSurrogate c = false).
    { unfold isLowSurrogate. apply andb_false_iff. left. apply N.leb_gt. lia. }
    rewrite Hh, Hl, bind_cons, IH. unfold utf8Bytes.
    by destruct (N.ltb_spec c 128); [| lia].
Qed.

Lemma hashStringSHA256_opens pw :
  (∃ hashHex, hashStringSHA256 digest pw = Some hashHex
              ∧ negb (isEmpty SCHEDULE_PASSWORD_HASH)
                && bool_decide (toLowerCase hashHex = toLowerCase SCHEDULE_PASSWORD_HASH)
                = true)
  ↔ digest (encode pw) = Some expectedDigest.
Proof.
  unfold hashStringSHA256. destruct (digest (encode pw)) as [h|]; cbn [mbind option_bind].
  - fold byteHex. split.
    + intros (hashHex & [= <-] & Ht). rewrite unlock_test in Ht.
      apply bool_decide_eq_true in Ht. by rewrite Ht.
    + intros [= ->]. eexists. split; [done |]. rewrite unlock_test.
      by apply bool_decide_eq_true.
  - split; [by intros (? & [=] & _) | done].
Qed.

Lemma submitFinish_page hashed d :
  (∀ t, t ≠ str "schedule-unlocked" →
        (t ∈ pageClasses (submitFinish hashed d) ↔ t ∈ pageClasses d))
  ∧ (unlocked (submitFinish hashed d) ↔
     unlocked d
     ∨ ∃ hashHex, hashed = Some hashHex
                  ∧ negb (isEmpty SCHEDULE_PASSWORD_HASH)
                    && bool_decide (toLowerCase hashHex = toLowerCase SCHEDULE_PASSWORD_HASH)
                    = true)
  ∧ (passwordValue (submitFinish hashed d) = passwordValue d
     ∨ passwordValue (submitFinish hashed d) = []).
Proof.
  unfold submitFinish, unlocked. destruct hashed as [hashHex|].
  - destruct (negb _ && _) eqn:E; cbn [pageClasses passwordValue].
    + split_and!; [| | by right].
      * intros t Ht. rewrite elem_of_classList_add. tauto.
      * rewrite elem_of_classList_add. split; [| tauto].
        intros _. right. by exists hashHex.
    + split_and!; [done | | by left].
      split; [tauto |]. intros [?|(? & [= <-] & Ht)]; [done | congruence].
  - cbn [pageClasses passwordValue]. split_and!; [done | | by left].
    split; [tauto |]. by intros [?|(? & [=] & _)].
Qed.

Lemma submitStart_page d :
  pageClasses (fst (submitStart d)) = pageClasses d
  ∧ passwordValue (fst (submitStart d)) = passwordValue d
  ∧ (snd (submitStart d) = None ∧ trim (passwordValue d) = []
     ∨ snd (submitStart d) = Some (trim (passwordValue d)) ∧ trim (passwordValue d) ≠ []).
Proof.
  unfold submitStart. destruct (trim (passwordValue d)) as [|c r] eqn:E; simpl.
  - split_and!; [done | done | by left].
  - split_and!; [done | done | by right].
Qed.

(** X19. The page is unlocked only by the right passphrase. Whatever the visitor
    types and submits, and in whatever order the hashes settle, also when a
    form is submitted again before the hash of the last submission has
    settled: if the page ends up unlocked, then it was unlocked before, or a
    passphrase whose hash was awaited has the stored digest, or one of the
    values the input has held has, once trimmed, the stored digest. Once
    unlocked the page stays so, and no other class of the page element ever
    changes. *)
Theorem schedule_unlock_sound (s : Session) (events : list ScheduleEvent) :
  (unlocked (dom (scheduleRun digest s events)) →
   unlocked (dom s)
   ∨ (∃ pw, pw ∈ pending s ∧ digest (encode pw) = Some expectedDigest)
   ∨ (∃ v, v ∈ typedValues (passwordValue (dom s)) events
           ∧ opensSchedule digest (trim v)))
  ∧ (unlocked (dom s) → unlocked (dom (scheduleRun digest s events)))
  ∧ (∀ t, t ≠ str "schedule-unlocked" →
          (t ∈ pageClasses (dom (scheduleRun digest s events)) ↔ t ∈ pageClasses (dom s))).
Proof.
  unfold scheduleRun. revert s. induction events as [|e events IH]; intros s.
  { cbn [fold_left]. split_and!; [by left | done | done]. }
  cbn [fold_left]. destruct (IH (scheduleStep digest s e)) as (IH1 & IH2 & IH3).
  assert (Htail : ∀ v start,
            v ∈ typedValues start events → v = start ∨
            v ∈ typedValues (passwordValue (dom s)) (e :: events)).
  { intros v start Hv. unfold typedValues in *.
    apply elem_of_cons in Hv as [->|Hv]; [by left |]. right.
    apply elem_of_cons. right. cbn [omap list_omap].
    destruct e; [by right | done | done]. }
  destruct e as [value| |index]; cbn [scheduleStep] in *.
  - (* the visitor types *)
    cbn [dom pending pageClasses passwordValue] in *. split_and!; [| done | done].
    intros Hu. destruct (IH1 Hu) as [?|[?|(v & Hv & Ho)]]; [by left | by right; left |].
    right. right. exists v. split; [| done]. unfold typedValues in *.
    apply elem_of_cons in Hv as [->|Hv].
    + cbn [omap list_omap]. apply elem_of_cons. right. left.
    + cbn [omap list_omap]. apply elem_of_cons. right. by right.
  - (* the form is submitted *)
    destruct (submitStart_page (dom s)) as (Hp & Hv & Hs).
    destruct (submitStart (dom s)) as [d' password] eqn:Es.
    cbn [fst snd dom pending] in *. unfold unlocked in *. rewrite Hp, Hv in *.
    split_and!; [| done | done].
    intros Hu. destruct (IH1 Hu) as [?|[(pw & Hin & Hd)|(v & Hin & Ho)]]; [by left | |].
    + apply elem_of_app in Hin as [Hin|Hin]; [right; left; by exists pw |].
      destruct Hs as [[-> _]|[-> Hne]]; [by apply elem_of_nil in Hin |].
      apply list_elem_of_singleton in Hin as ->.
      right. right. exists (passwordValue (dom s)). split; [left | done].
    + right. right. exists v. split; [| done].
      destruct (Htail v _ Hin) as [->|?]; [left | done].
  - (* a hash settles *)
    destruct (pending s !! index) as [pw|] eqn:Epw; [| done].
    cbn [dom pending] in *.
    destruct (submitFinish_page (hashStringSHA256 digest pw) (dom s)) as (Hp & Hu & Hv).
    split_and!.
    + intros Hfin. destruct (IH1 Hfin) as [H|[(pw' & Hin & Hd)|(v & Hin & Ho)]].
      * apply Hu in H as [?|Hopen]; [by left |]. right. left. exists pw.
        split; [by apply list_elem_of_lookup_2 in Epw |].
        by apply hashStringSHA256_opens.
      * right. left. exists pw'. split; [| done].
        by apply list_elem_of_delete_inv in Hin.
      * right. right. exists v. split; [| done].
        destruct (Htail v _ Hin) as [E|?]; [| done].
        destruct Hv as [Hv|Hv]; rewrite Hv in E; [subst v; left |].
        subst v. by destruct Ho as [Hne _].
    + intros H. apply IH2, Hu. by left.
    + intros t Ht. by rewrite IH3, Hp.
Qed.

(** X20. One submission, from the click to the message, with no other hash
    awaited. A value that is empty once trimmed is refused at once, with the
    message that asks for the passphrase, and nothing is hashed. Otherwise
    the trimmed value is hashed, and when the hash has settled: a rejected
    promise gives the message of an error; the stored digest unlocks the
    page, greets the visitor and empties the input; any other digest gives
    the message that the key does not match, and leaves the page and the
    input as they were. In each case the message carries exactly one of the
    classes of error and of success. *)
Theorem submit_outcomes (d : ScheduleDom) :
  (trim (passwordValue d) = [] →
   scheduleRun digest (mkSession d []) [Submitted]
   = mkSession
       (mkScheduleDom (pageClasses d) (str "Please enter the passphrase.")
          (classList_add
             (classList_remove
                (classList_remove (messageClasses d) (str "schedule-message--error"))
                (str "schedule-message--success"))
             (str "schedule-message--error"))
          (passwordValue d))
       [])
  ∧ (trim (passwordValue d) ≠ [] →
     pending (scheduleRun digest (mkSession d []) [Submitted]) = [trim (passwordValue d)]
     ∧ messageText (dom (scheduleRun digest (mkSession d []) [Submitted])) = []
     ∧ pending (scheduleRun digest (mkSession d []) [Submitted; HashSettled 0]) = []
     ∧ match digest (encode (trim (passwordValue d))) with
       | None =>
           messageText (dom (scheduleRun digest (mkSession d []) [Submitted; HashSettled 0]))
           = str "An error occurred while verifying the key."
           ∧ pageClasses (dom (scheduleRun digest (mkSession d []) [Submitted; HashSettled 0]))
             = pageClasses d
           ∧ passwordValue (dom (scheduleRun digest (mkSession d []) [Submitted; HashSettled 0]))
             = passwordValue d
       | Some h =>
           if decide (h = expectedDigest) then
             messageText (dom (scheduleRun digest (mkSession d []) [Submitted; HashSettled 0]))
             = str "Welcome to the Pantheon schedule."
             ∧ unlocked (dom (scheduleRun digest (mkSession d []) [Submitted; HashSettled 0]))
             ∧ passwordValue (dom (scheduleRun digest (mkSession d []) [Submitted; HashSettled 0]))
               = []
           else
             messageText (dom (scheduleRun digest (mkSession d []) [Submitted; HashSettled 0]))
             = str "That key does not match our records."
             ∧ pageClasses (dom (scheduleRun digest (mkSession d []) [Submitted; HashSettled 0]))
               = pageClasses d
             ∧ passwordValue (dom (scheduleRun digest (mkSession d []) [Submitted; HashSettled 0]))
               = passwordValue d
       end)
  ∧ (str "schedule-message--error"
       ∈ messageClasses (dom (scheduleRun digest (mkSession d []) [Submitted; HashSettled 0]))
     ↔ str "schedule-message--success"
       ∉ messageClasses (dom (scheduleRun digest (mkSession d []) [Submitted; HashSettled 0])))
  ∧ (str "schedule-message--success"
       ∈ messageClasses (dom (scheduleRun digest (mkSession d []) [Submitted; HashSettled 0]))
     ↔ opensSchedule digest (trim (passwordValue d))).
Proof.
  unfold scheduleRun. cbn [fold_left scheduleStep dom pending].
  assert (Hne : str "schedule-message--error" ≠ str "schedule-message--success")
    by (intros E; vm_compute in E; by injection E).
  set (err := str "schedule-message--error") in *.
  set (suc := str "schedule-message--success") in *.
  unfold submitStart. fold err suc.
  destruct (trim (passwordValue d)) as [|c r] eqn:Et; cbn [isEmpty]; unfold option_list;
    cbn [option_rect app].
  - cbn [dom pending lookup list_lookup]. split_and!; [done | done | |].
    + cbn [messageClasses]. fold err suc.
      rewrite !elem_of_classList_add, !elem_of_classList_remove. split; [intuition congruence |].
      intros _. by right.
    + cbn [messageClasses]. fold err suc.
      rewrite !elem_of_classList_add, !elem_of_classList_remove.
      unfold opensSchedule. split; [| by intros [? _]]. intros [?| ?]; [intuition congruence | congruence].
  - cbn [dom pending lookup list_lookup delete list_delete].
    assert (Hcase :
      (∃ hashHex, hashStringSHA256 digest (c :: r) = Some hashHex
                  ∧ negb (isEmpty SCHEDULE_PASSWORD_HASH)
                    && bool_decide (toLowerCase hashHex = toLowerCase SCHEDULE_PASSWORD_HASH)
                    = true)
      ↔ digest (encode (c :: r)) = Some expectedDigest)
      by apply hashStringSHA256_opens.
    unfold submitFinish, unlocked, opensSchedule.
    destruct (hashStringSHA256 digest (c :: r)) as [hashHex|] eqn:Eh.
    + destruct (negb _ && bool_decide _) eqn:Etest.
      * assert (Hd : digest (encode (c :: r)) = Some expectedDigest).
        { apply Hcase. by exists hashHex. }
        rewrite Hd. rewrite decide_True by done.
        cbn [messageText pageClasses passwordValue messageClasses]. fold err suc.
        split_and!; [done | | |].
        -- intros _. split_and!; try done. rewrite elem_of_classList_add. by right.
        -- rewrite !elem_of_classList_add, !elem_of_classList_remove.
           split; [intuition congruence |]. intros H. exfalso. apply H. by right.
        -- rewrite !elem_of_classList_add. split; [done |]. intros _. by right.
      * assert (Hd : digest (encode (c :: r)) ≠ Some expectedDigest).
        { intros Hd. apply Hcase in Hd as (? & [= <-] & Ht). congruence. }
        unfold hashStringSHA256 in Eh.
        destruct (digest (encode (c :: r))) as [h|] eqn:Edig; [| done].
        rewrite decide_False by congruence.
        cbn [messageText pageClasses passwordValue messageClasses]. fold err suc.
        split_and!; [done | done | |].
        -- rewrite !elem_of_classList_add, !elem_of_classList_remove.
           split; [intuition congruence |]. intros _. by right.
        -- rewrite !elem_of_classList_add, !elem_of_classList_remove.
           split; [| by intros [_ ?]]. intros [?| ?]; [intuition congruence | congruence].
    + unfold hashStringSHA256 in Eh.
      destruct (digest (encode (c :: r))) as [h|] eqn:Edig; [done |].
      cbn [messageText pageClasses passwordValue messageClasses]. fold err suc.
      split_and!; [done | done | |].
      * rewrite !elem_of_classList_add, !elem_of_classList_remove.
        split; [intuition congruence |]. intros _. by right.
      * rewrite !elem_of_classList_add, !elem_of_classList_remove.
        split; [| by intros [_ ?]]. intros [?| ?]; [intuition congruence | congruence].
Qed.

End CryptoFacts.

Lemma utf8Bytes_range cp :
  (cp < 1114112)%N →
  Forall (λ b, (b < 256)%N) (utf8Bytes cp)
  ∧ (1 ≤ length (utf8Bytes cp) ≤ 4)%nat
  ∧ ((cp < 65536)%N → (length (utf8Bytes cp) ≤ 3)%nat)
  ∧ ((65536 ≤ cp)%N → length (utf8Bytes cp) = 4%nat).
Proof.
  intros Hcp. unfold utf8Bytes.
  destruct (N.ltb_spec cp 128); [| destruct (N.ltb_spec cp 2048);
    [| destruct (N.ltb_spec cp 65536)]].
  all: (split; [| split; [simpl; lia | split; intros ?; simpl; lia]]).
  all: repeat first [apply List.Forall_nil | apply List.Forall_cons].
  all: zify; Z.to_euclidean_division_equations; lia.
Qed.

Lemma codePoints_range n s :
  (length s ≤ n)%nat → Forall (λ c, (c < 65536)%N) s →
  Forall (λ b, (b < 256)%N) (encode s)
  ∧ (length s ≤ length (encode s) ≤ 3 * length s)%nat.
Proof.
  unfold encode. revert s. induction n as [|n IH]; intros s Hn Hs.
  { destruct s; [by split_and! | simpl in Hn; lia]. }
  destruct s as [|c r]; [by split_and! |].
  apply Forall_cons in Hs as [Hc Hr]. simpl in Hn.
  assert (Hrepl := utf8Bytes_range 65533 eq_refl).
  cbn [codePoints].
  destruct (isHighSurrogate c) eqn:Eh.
  - destruct r as [|d r'].
    + rewrite bind_cons. simpl. split; [| lia].
      repeat first [apply List.Forall_nil | apply List.Forall_cons]; done.
    + destruct (isLowSurrogate d) eqn:El.
      * apply Forall_cons in Hr as [Hd Hr']. simpl in Hn.
        destruct (IH r') as [IH1 IH2]; [lia | done |].
        unfold isHighSurrogate in Eh. unfold isLowSurrogate in El.
        apply andb_true_iff in Eh as [Eh1 Eh2]. apply andb_true_iff in El as [El1 El2].
        apply N.leb_le in Eh1, Eh2, El1, El2.
        destruct (utf8Bytes_range (65536 + (c - 55296) * 1024 + (d - 56320))%N)
          as (Hb & _ & _ & Hlen); [lia |].
        rewrite bind_cons, length_app, Hlen by lia. cbn [length].
        split; [by apply Forall_app | lia].
      * destruct (IH (d :: r')) as [IH1 IH2]; [simpl in *; lia | done |].
        destruct Hrepl as (Hb & Hlen & Hlen3 & _).
        rewrite bind_cons, length_app. cbn [length] in *.
        split; [by apply Forall_app |]. specialize (Hlen3 eq_refl). lia.
  - destruct (IH r) as [IH1 IH2]; [lia | done |].
    destruct (isLowSurrogate c).
    + destruct Hrepl as (Hb & Hlen & Hlen3 & _).
      rewrite bind_cons, length_app. cbn [length].
      split; [by apply Forall_app |]. specialize (Hlen3 eq_refl). lia.
    + destruct (utf8Bytes_range c) as (Hb & Hlen & Hlen3 & _); [lia |].
      rewrite bind_cons, length_app. cbn [length].
      split; [by apply Forall_app |]. specialize (Hlen3 Hc). lia.
Qed.

(** X21. What is hashed is a sequence of bytes: for a string of 16-bit code
    units, every element of its encoding is below 256, and there are at
    least as many bytes as units and at most three times as many. The Latin
    letter e with acute takes two bytes, a surrogate pair four, and a
    surrogate on its own the three bytes of U+FFFD. *)
Theorem encode_bytes (text : jsstring) :
  Forall (λ c, (c < 65536)%N) text →
  Forall (λ b, (b < 256)%N) (encode text)
  ∧ (length text ≤ length (encode text) ≤ 3 * length text)%nat
  ∧ encode [233%N] = [195; 169]%N
  ∧ encode [55357; 56832]%N = [240; 159; 152; 128]%N
  ∧ encode [55357]%N = [239; 191; 189]%N.
Proof.
  intros Hs. destruct (codePoints_range (length text) text) as [H1 H2]; [done | done |].
  split; [exact H1 |]. split; [exact H2 |].
  split_and!; vm_compute; reflexivity.
Qed.

Lemma encode_bytes_witness :
  Forall (λ c, (c < 65536)%N) [115; 104; 114; 105; 109; 112]%N
  ∧ Forall (λ b, (b < 256)%N) (encode [115; 104; 114; 105; 109; 112]%N)
  ∧ (length [115; 104; 114; 105; 109; 112]%N
     ≤ length (encode [115; 104; 114; 105; 109; 112]%N)
     ≤ 3 * length [115; 104; 114; 105; 109; 112]%N)%nat.
Proof.
  assert (H : Forall (λ c, (c < 65536)%N) [115; 104; 114; 105; 109; 112]%N).
  { repeat first [apply List.Forall_nil | apply List.Forall_cons]; reflexivity. }
  split; [exact H |].
  split; [exact (proj1 (encode_bytes _ H)) | exact (proj1 (proj2 (encode_bytes _ H)))].
Defined.

(* ------------------------------------------------------------------ *)
(** ** Time values and the calendar *)
(* ------------------------------------------------------------------ *)

Ltac euclid := zify; Z.to_euclidean_division_equations; lia.

Lemma DayFromYear_step y : DayFromYear (y + 1) = DayFromYear y + DaysInYear y.
Proof.
  unfold DayFromYear, DaysInYear.
  assert (H4 : (y + 1 - 1969) / 4 = (y - 1969) / 4 + (if y mod 4 =? 0 then 1 else 0)).
  { destruct (Z.eqb_spec (y mod 4) 0); euclid. }
  assert (H100 : (y + 1 - 1901) / 100
                 = (y - 1901) / 100 + (if y mod 100 =? 0 then 1 else 0)).
  { destruct (Z.eqb_spec (y mod 100) 0); euclid. }
  assert (H400 : (y + 1 - 1601) / 400
                 = (y - 1601) / 400 + (if y mod 400 =? 0 then 1 else 0)).
  { destruct (Z.eqb_spec (y mod 400) 0); euclid. }
  rewrite H4, H100, H400.
  assert (Hd1 : y mod 100 = 0 → y mod 4 = 0) by (intros; euclid).
  assert (Hd2 : y mod 400 = 0 → y mod 100 = 0) by (intros; euclid).
  destruct (Z.eqb_spec (y mod 4) 0), (Z.eqb_spec (y mod 100) 0),
           (Z.eqb_spec (y mod 400) 0); cbn [negb]; lia.
Qed.

Lemma DaysInYear_cases y : DaysInYear y = 365 ∨ DaysInYear y = 366.
Proof. unfold DaysInYear. repeat case_match; auto. Qed.

Lemma DayFromYear_mono a b : a ≤ b → DayFromYear a ≤ DayFromYear b.
Proof. intros H. unfold DayFromYear. euclid. Qed.

Lemma DayFromYear_estimate d :
  DayFromYear (1970 + 400 * d / 146097 - 1) ≤ d
  < DayFromYear (1970 + 400 * d / 146097 + 2).
Proof. unfold DayFromYear. euclid. Qed.

Lemma TimeFromYear_le y t : TimeFromYear y ≤ t ↔ DayFromYear y ≤ Day t.
Proof. unfold TimeFromYear, Day, msPerDay. generalize (DayFromYear y). intros a. euclid. Qed.

(** The year of a time value is the year whose days hold it. *)
Lemma YearFromTime_days t :
  DayFromYear (YearFromTime t) ≤ Day t < DayFromYear (YearFromTime t + 1).
Proof.
  unfold YearFromTime. pose proof (DayFromYear_estimate (Day t)) as [Hlo Hhi].
  set (y := 1970 + 400 * Day t / 146097) in *.
  destruct (Z.leb_spec (TimeFromYear (y + 1)) t) as [H1|H1].
  - apply TimeFromYear_le in H1. replace (y + 1 + 1) with (y + 2) by lia. lia.
  - assert (H1' : Day t < DayFromYear (y + 1)).
    { apply Z.lt_nge. intros H. by apply TimeFromYear_le in H; lia. }
    destruct (Z.leb_spec (TimeFromYear y) t) as [H2|H2].
    + apply TimeFromYear_le in H2. lia.
    + assert (H2' : Day t < DayFromYear y).
      { apply Z.lt_nge. intros H. by apply TimeFromYear_le in H; lia. }
      replace (y - 1 + 1) with y by lia. lia.
Qed.

Lemma YearFromTime_unique t y :
  DayFromYear y ≤ Day t < DayFromYear (y + 1) → y = YearFromTime t.
Proof.
  intros [Hlo Hhi]. pose proof (YearFromTime_days t) as [Hlo' Hhi'].
  destruct (Z.lt_trichotomy y (YearFromTime t)) as [Hlt|[E|Hgt]]; [| done |].
  - pose proof (DayFromYear_mono (y + 1) (YearFromTime t)). lia.
  - pose proof (DayFromYear_mono (YearFromTime t + 1) y). lia.
Qed.

Lemma DayWithinYear_range t : 0 ≤ DayWithinYear t < DaysInYear (YearFromTime t).
Proof.
  unfold DayWithinYear. pose proof (YearFromTime_days t) as [Hlo Hhi].
  rewrite DayFromYear_step in Hhi. lia.
Qed.

Lemma InLeapYear_days t : DaysInYear (YearFromTime t) = 365 + InLeapYear t.
Proof.
  unfold InLeapYear. destruct (DaysInYear_cases (YearFromTime t)) as [->| ->]; done.
Qed.

Lemma MonthFromTime_range t : 0 ≤ MonthFromTime t ≤ 11.
Proof. unfold MonthFromTime. repeat case_match; lia. Qed.

Lemma DateFromTime_range t : 1 ≤ DateFromTime t ≤ 31.
Proof.
  pose proof (DayWithinYear_range t) as Hd. rewrite InLeapYear_days in Hd.
  assert (Hl : InLeapYear t = 0 ∨ InLeapYear t = 1).
  { unfold InLeapYear. case_match; auto. }
  unfold DateFromTime, MonthFromTime.
  generalize dependent (DayWithinYear t). generalize dependent (InLeapYear t).
  intros leap Hl d Hd.
  repeat (match goal with
          | |- context [if ?a <? ?b then _ else _] => destruct (Z.ltb_spec a b)
          end; cbn [monthStart]; [lia |]).
  cbn [monthStart]. lia.
Qed.

(** Setting the day of the month to the current one plus [k] lands [k] days
    later, into the following months when it must. *)
Lemma MakeDay_same_month t k :
  MakeDay (YearFromTime t) (MonthFromTime t) (DateFromTime t + k) = Day t + k.
Proof.
  unfold MakeDay. pose proof (MonthFromTime_range t) as Hm.
  replace (MonthFromTime t / 12) with 0 by euclid.
  replace (MonthFromTime t mod 12) with (MonthFromTime t) by euclid.
  rewrite Z.add_0_r. fold (InLeapYear t).
  unfold DateFromTime, DayWithinYear. lia.
Qed.

Lemma WeekDay_range t : 0 ≤ WeekDay t ≤ 6.
Proof. unfold WeekDay. euclid. Qed.

Lemma Day_add t k : Day (t + k * msPerDay) = Day t + k.
Proof. unfold Day, msPerDay. euclid. Qed.

Lemma TimeWithinDay_add t k : TimeWithinDay (t + k * msPerDay) = TimeWithinDay t.
Proof. unfold TimeWithinDay, msPerDay. euclid. Qed.

Lemma MakeDate_Day t k : MakeDate (Day t + k) (TimeWithinDay t) = t + k * msPerDay.
Proof. unfold MakeDate, Day, TimeWithinDay, msPerDay. euclid. Qed.

(* ------------------------------------------------------------------ *)
(** ** The next Saturday *)
(* ------------------------------------------------------------------ *)

Section ClockFacts.
Variable LocalTZA : Z → bool → Z.

(** X22. [getNextSaturday] aims at the local time [6 - getDay()] days after the
    local time of now, at the same time of day: that day is a Saturday, it
    is today when today is a Saturday and otherwise within the six days
    that follow, and no day from today to the day before it is a Saturday.
    The date returned is that local time taken back to UTC: provided the
    local time exists in the time zone (taking it back to UTC and to local
    time again gives it back), the date returned reads as a Saturday, on
    that very day and at the time of day of now. A day beyond the end of the
    month counts on into the next month. *)
Theorem getNextSaturday_spec (now : Z) :
  0 ≤ getDay LocalTZA now ≤ 6
  ∧ getNextSaturday LocalTZA now
    = TimeClip (UTC LocalTZA
                  (LocalTime LocalTZA now + (6 - getDay LocalTZA now) * msPerDay))
  ∧ WeekDay (LocalTime LocalTZA now + (6 - getDay LocalTZA now) * msPerDay) = 6
  ∧ (∀ k, 0 ≤ k < 6 - getDay LocalTZA now →
          WeekDay (LocalTime LocalTZA now + k * msPerDay) ≠ 6)
  ∧ (∀ u, getNextSaturday LocalTZA now = Some u →
          LocalTime LocalTZA u
          = LocalTime LocalTZA now + (6 - getDay LocalTZA now) * msPerDay →
          getDay LocalTZA u = 6
          ∧ Day (LocalTime LocalTZA u)
            = Day (LocalTime LocalTZA now) + (6 - getDay LocalTZA now)
          ∧ TimeWithinDay (LocalTime LocalTZA u) = TimeWithinDay (LocalTime LocalTZA now)
          ∧ (getDay LocalTZA now = 6 → LocalTime LocalTZA u = LocalTime LocalTZA now))
  ∧ (∀ offset,
       -8640000000000000 ≤ now ≤ 8640000000000000 - 6 * msPerDay →
       getNextSaturday (λ _ _, offset) now
       = Some (now + (6 - getDay (λ _ _, offset) now) * msPerDay)).
Proof.
  pose proof (WeekDay_range (LocalTime LocalTZA now)) as Hw.
  assert (Hk : Z.rem (6 - getDay LocalTZA now + 7) 7 = 6 - getDay LocalTZA now).
  { unfold getDay. generalize dependent (WeekDay (LocalTime LocalTZA now)).
    intros w Hw. rewrite Z.rem_mod_nonneg by lia. euclid. }
  assert (Hsat : WeekDay (LocalTime LocalTZA now + (6 - getDay LocalTZA now) * msPerDay) = 6).
  { unfold WeekDay at 1. rewrite Day_add. unfold getDay, WeekDay in *. euclid. }
  assert (Haim : ∀ tz, getNextSaturday tz now
            = TimeClip (UTC tz (LocalTime tz now + (6 - getDay tz now) * msPerDay))).
  { intros tz. unfold getNextSaturday, setDate. cbn [getDate dateOf].
    pose proof (WeekDay_range (LocalTime tz now)) as Hw'.
    replace (Z.rem (6 - getDay tz now + 7) 7) with (6 - getDay tz now).
    - by rewrite MakeDay_same_month, MakeDate_Day.
    - unfold getDay. generalize dependent (WeekDay (LocalTime tz now)).
      intros w Hw'. rewrite Z.rem_mod_nonneg by lia. euclid. }
  split; [exact Hw |]. split; [| split; [exact Hsat |]; split; [| split]].
  - apply Haim.
  - intros k Hk'. unfold WeekDay at 1. rewrite Day_add.
    unfold getDay, WeekDay in *. euclid.
  - intros u _ Hu. unfold getDay at 1. rewrite Hu.
    split; [exact Hsat |]. split; [apply Day_add |]. split; [apply TimeWithinDay_add |].
    intros E. rewrite E. lia.
  - intros offset Hr. rewrite Haim. unfold UTC, LocalTime.
    pose proof (WeekDay_range (now + offset)) as Hw'.
    unfold getDay, LocalTime, TimeClip, msPerDay in *.
    case_match eqn:E; [apply Z.ltb_lt in E; lia |]. f_equal. lia.
Qed.

(** X23. [formatSaturday] on a date: ["Saturday - "], then the month, counted from
    1, then a slash, then the day of the month, each with two digits: 16
    units in all, the month before the day. *)
Theorem formatSaturday_format (t : Z) :
  formatSaturday (dateOf LocalTZA t)
  = str "Saturday - "
    ++ [Z.to_N (48 + (getMonth (dateOf LocalTZA t) + 1) / 10);
        Z.to_N (48 + (getMonth (dateOf LocalTZA t) + 1) mod 10);
        SLASH;
        Z.to_N (48 + getDate (dateOf LocalTZA t) / 10);
        Z.to_N (48 + getDate (dateOf LocalTZA t) mod 10)]
  ∧ length (formatSaturday (dateOf LocalTZA t)) = 16%nat
  ∧ 0 ≤ getMonth (dateOf LocalTZA t) ≤ 11
  ∧ 1 ≤ getDate (dateOf LocalTZA t) ≤ 31
  ∧ formatSaturday (mkDate 2026 10 7) = str "Saturday - 11/07".
Proof.
  assert (Hpad : ∀ n, 1 ≤ n ≤ 31 →
            padStart (numToString n) 2 (str "0")
            = [Z.to_N (48 + n / 10); Z.to_N (48 + n mod 10)]).
  { intros n Hn.
    assert (Hk : ∃ k, (k < 32)%nat ∧ n = Z.of_nat k) by (exists (Z.to_nat n); lia).
    destruct Hk as (k & Hk & ->).
    do 32 (destruct k as [|k]; [vm_compute; reflexivity || lia |]). lia. }
  pose proof (MonthFromTime_range (LocalTime LocalTZA t)) as Hm.
  pose proof (DateFromTime_range (LocalTime LocalTZA t)) as Hd.
  cbn [getMonth getDate dateOf].
  assert (E : formatSaturday (dateOf LocalTZA t)
              = str "Saturday - "
                ++ [Z.to_N (48 + (MonthFromTime (LocalTime LocalTZA t) + 1) / 10);
                    Z.to_N (48 + (MonthFromTime (LocalTime LocalTZA t) + 1) mod 10);
                    SLASH;
                    Z.to_N (48 + DateFromTime (LocalTime LocalTZA t) / 10);
                    Z.to_N (48 + DateFromTime (LocalTime LocalTZA t) mod 10)]).
  { unfold formatSaturday. cbn [getMonth getDate dateOf].
    rewrite !Hpad by lia. done. }
  split; [exact E |]. split; [by rewrite E |]. split; [exact Hm |]. split; [exact Hd |].
  vm_compute. reflexivity.
Qed.

End ClockFacts.

(* ------------------------------------------------------------------ *)
(** ** The sort is stable *)
(* ------------------------------------------------------------------ *)

Lemma comesBefore_lookup {A} (a b : A) l :
  comesBefore a b l ↔ ∃ i j, (i < j)%nat ∧ l !! i = Some a ∧ l !! j = Some b.
Proof.
  induction l as [|y l IH]; simpl.
  - split; [done | by intros (i & j & _ & Hi & _)].
  - rewrite IH. split.
    + intros [[-> Hb]|(i & j & Hij & Hi & Hj)].
      * apply list_elem_of_lookup in Hb as [j Hj]. exists 0%nat, (S j).
        split_and!; [lia | done | done].
      * exists (S i), (S j). split_and!; [lia | done | done].
    + intros (i & j & Hij & Hi & Hj). destruct i as [|i], j as [|j]; try lia; simpl in *.
      * left. injection Hi as ->. split; [done |]. by apply list_elem_of_lookup_2 in Hj.
      * right. exists i, j. split_and!; [lia | done | done].
Qed.

Section Stable.
Context {A : Type} (cmp : A → A → number).

(** Inserting an element leaves the others in the order they had. *)
Lemma sortInsert_keeps x a b l :
  comesBefore a b l → comesBefore a b (sortInsert cmp x l).
Proof.
  induction l as [|y l IH]; [done |]. simpl.
  destruct (sortSign (cmp x y)); simpl; intros [[-> Hb]|H].
  all: try (right; right; exact H).
  all: try (right; left; by split).
  - left. split; [done |]. rewrite sortInsert_perm. by right.
  - right. by apply IH.
  - left. split; [done |]. rewrite sortInsert_perm. by right.
  - right. by apply IH.
Qed.

Variable domain : A → Prop.
Hypothesis cmp_anti : ∀ a b, domain a → domain b →
  sortSign (cmp a b) = CompOpp (sortSign (cmp b a)).
Hypothesis cmp_trans : ∀ a b c, domain a → domain b → domain c →
  notAfter cmp a b → notAfter cmp b c → notAfter cmp a c.

(** The inserted element goes behind every one it is not strictly before. *)
Lemma sortInsert_behind x a l :
  domain x → Forall domain l → StronglySorted (notAfter cmp) l →
  a ∈ l → sortSign (cmp x a) ≠ Lt →
  comesBefore a x (sortInsert cmp x l).
Proof.
  intros Hx Hl Hs. induction Hs as [|y l Hs IH Hy]; intros Ha Hxa.
  { by apply elem_of_nil in Ha. }
  apply Forall_cons in Hl as [Hdy Hl]. simpl.
  assert (Hda : domain a).
  { apply elem_of_cons in Ha as [->|Ha]; [done |].
    rewrite Forall_forall in Hl. by apply Hl. }
  destruct (sortSign (cmp x y)) eqn:E.
  - apply elem_of_cons in Ha as [->|Ha].
    + left. split; [done |]. rewrite sortInsert_perm. left.
    + right. apply IH; done.
  - exfalso. apply elem_of_cons in Ha as [->|Ha]; [congruence |].
    assert (Hya : notAfter cmp y a).
    { rewrite Forall_forall in Hy. by apply Hy. }
    assert (Hax : notAfter cmp a x).
    { unfold notAfter. rewrite cmp_anti by done.
      destruct (sortSign (cmp x a)); simpl; congruence. }
    assert (Hyx : notAfter cmp y x) by (by apply (cmp_trans y a x)).
    unfold notAfter in Hyx. rewrite cmp_anti, E in Hyx by done. by apply Hyx.
  - apply elem_of_cons in Ha as [->|Ha].
    + left. split; [done |]. rewrite sortInsert_perm. left.
    + right. apply IH; done.
Qed.

Lemma arraySort_fold_keeps l acc a b :
  comesBefore a b acc →
  comesBefore a b (fold_left (fun sorted x => sortInsert cmp x sorted) l acc).
Proof.
  revert acc. induction l as [|x l IH]; intros acc H; [done |].
  simpl. by apply IH, sortInsert_keeps.
Qed.

Lemma arraySort_fold_behind l acc a b :
  Forall domain l → Forall domain acc → StronglySorted (notAfter cmp) acc →
  sortSign (cmp b a) ≠ Lt →
  (a ∈ acc ∧ b ∈ l) ∨ comesBefore a b l →
  comesBefore a b (fold_left (fun sorted x => sortInsert cmp x sorted) l acc).
Proof.
  intros Hl Hacc Hs Hba. revert acc Hacc Hs.
  induction Hl as [|x l Hx Hl IH]; intros acc Hacc Hs H.
  { destruct H as [[_ Hb]|H]; [by apply elem_of_nil in Hb | done]. }
  simpl.
  assert (Hacc' : Forall domain (sortInsert cmp x acc)).
  { rewrite sortInsert_perm. by constructor. }
  assert (Hs' : StronglySorted (notAfter cmp) (sortInsert cmp x acc)).
  { by apply (sortInsert_sorted cmp domain). }
  destruct H as [[Ha Hb]|[[-> Hb]|H]].
  - apply elem_of_cons in Hb as [->|Hb].
    + apply arraySort_fold_keeps. by apply sortInsert_behind.
    + apply IH; [done | done |]. left. split; [| done].
      rewrite sortInsert_perm. by right.
  - apply IH; [done | done |]. left. split; [| done].
    rewrite sortInsert_perm. left.
  - apply IH; [done | done |]. by right.
Qed.

(** The sort is stable: of two elements of which the later is not strictly
    before the earlier, the earlier stays in front. *)
Lemma arraySort_stable l a b :
  Forall domain l → comesBefore a b l → sortSign (cmp b a) ≠ Lt →
  comesBefore a b (arraySort cmp l).
Proof.
  intros Hl Hab Hba. unfold arraySort.
  apply arraySort_fold_behind; [done | constructor | constructor | done | by right].
Qed.

End Stable.

Lemma allAlike_consistent : consistentCollation allAlike.
Proof. split; intros; unfold allAlike; by vm_compute. Qed.

Section RankerStable.
Variable localeCompare : jsstring → jsstring → number.
Hypothesis collation : consistentCollation localeCompare.

(** X24. Two players with equal totals whose names the collation takes for equal
    (two writings of one name, say) are ranked in the order in which the map
    lists them, which is the order in which they first appear in the file:
    the earlier one gets the smaller rank. *)
Theorem createRankedArray_stable (totalsMap : JsMap) (i j : nat)
    (p1 p2 : jsstring) (t1 t2 : number) :
  noNaNTotals totalsMap → (i < j)%nat →
  totalsMap !! i = Some (p1, t1) → totalsMap !! j = Some (p2, t2) →
  (t1 =? t2)%float = true → sortSign (localeCompare p1 p2) = Eq →
  ∃ i' j',
    (i' < j')%nat
    ∧ createRankedArray localeCompare totalsMap !! i'
      = Some (Ranked.mk (Z.of_nat i' + 1) p1 t1)
    ∧ createRankedArray localeCompare totalsMap !! j'
      = Some (Ranked.mk (Z.of_nat j' + 1) p2 t2).
Proof.
  intros Hn Hij Hi Hj Ht Hp.
  set (entries := (λ '(p, t), Entry.mk p t) <$> totalsMap).
  assert (Hd : Forall hasNumber entries).
  { apply Forall_fmap, Forall_forall. intros [p t] Hin. by apply (Hn p t). }
  assert (H1 : hasNumber (Entry.mk p1 t1)).
  { apply (Hn p1 t1). by apply list_elem_of_lookup_2 in Hi. }
  assert (H2 : hasNumber (Entry.mk p2 t2)).
  { apply (Hn p2 t2). by apply list_elem_of_lookup_2 in Hj. }
  assert (Hb : comesBefore (Entry.mk p1 t1) (Entry.mk p2 t2) entries).
  { apply comesBefore_lookup. exists i, j. unfold entries.
    rewrite !list_lookup_fmap, Hi, Hj. done. }
  assert (Hs : sortSign (compareEntries localeCompare (Entry.mk p2 t2) (Entry.mk p1 t1)) ≠ Lt).
  { rewrite compareEntries_sign by done. cbn [Entry.total Entry.player].
    rewrite eqb_ordZ in Ht by done. apply Z.eqb_eq in Ht. rewrite Ht, Z.compare_refl.
    destruct collation as [Hanti _]. by rewrite Hanti, Hp. }
  pose proof (arraySort_stable (compareEntries localeCompare) hasNumber
                (compareEntries_anti localeCompare collation)
                (compareEntries_trans localeCompare collation)
                entries _ _ Hd Hb Hs) as Hsorted.
  apply comesBefore_lookup in Hsorted as (i' & j' & Hij' & Hi' & Hj').
  exists i', j'. split; [done |].
  rewrite !createRankedArray_lookup. fold entries. by rewrite Hi', Hj'.
Qed.

End RankerStable.

Lemma createRankedArray_stable_witness :
  noNaNTotals [(str "B", 5%float); (str "A", 5%float)]
  ∧ (0 < 1)%nat
  ∧ (5 =? 5)%float = true
  ∧ sortSign (allAlike (str "B") (str "A")) = Eq
  ∧ ∃ i' j',
      (i' < j')%nat
      ∧ createRankedArray allAlike [(str "B", 5%float); (str "A", 5%float)] !! i'
        = Some (Ranked.mk (Z.of_nat i' + 1) (str "B") 5)
      ∧ createRankedArray allAlike [(str "B", 5%float); (str "A", 5%float)] !! j'
        = Some (Ranked.mk (Z.of_nat j' + 1) (str "A") 5).
Proof.
  assert (Hn : noNaNTotals [(str "B", 5%float); (str "A", 5%float)]).
  { intros p t Hin. apply elem_of_cons in Hin as [[= -> ->]|Hin]; [done |].
    apply list_elem_of_singleton in Hin as [= -> ->]. done. }
  split; [exact Hn |]. split; [lia |]. split; [reflexivity |]. split; [reflexivity |].
  exact (createRankedArray_stable allAlike allAlike_consistent
           [(str "B", 5%float); (str "A", 5%float)] 0 1 (str "B") (str "A") 5 5
           Hn (Nat.lt_0_succ 0) eq_refl eq_refl eq_refl eq_refl).
Defined.

(* ------------------------------------------------------------------ *)
(** ** White space and blank lines around the rows *)
(* ------------------------------------------------------------------ *)

(** X25. White space and blank lines in front of a CSV text and behind it
    are ignored: the records are those of the text without them. *)
Theorem parseCsv_surrounding_space (before text after : jsstring) :
  Forall (λ c, isWhiteSpace c = true) before →
  Forall (λ c, isWhiteSpace c = true) after →
  parseCsv (before ++ text ++ after) = parseCsv text.
Proof.
  intros Hb Ha. unfold parseCsv.
  by rewrite trim_ws_prefix, trim_ws_suffix.
Qed.

Lemma parseCsv_surrounding_space_witness :
  Forall (λ c, isWhiteSpace c = true) [LF; 32%N]
  ∧ Forall (λ c, isWhiteSpace c = true) [CR; LF; LF]
  ∧ parseCsv ([LF; 32%N] ++ (str "PlayerID,Score,Game" ++ LF :: str "A,1,x") ++ [CR; LF; LF])
    = parseCsv (str "PlayerID,Score,Game" ++ LF :: str "A,1,x").
Proof.
  assert (H1 : Forall (λ c, isWhiteSpace c = true) [LF; 32%N]).
  { repeat first [apply List.Forall_nil | apply List.Forall_cons]; reflexivity. }
  assert (H2 : Forall (λ c, isWhiteSpace c = true) [CR; LF; LF]).
  { repeat first [apply List.Forall_nil | apply List.Forall_cons]; reflexivity. }
  split; [exact H1 |]. split; [exact H2 |].
  exact (parseCsv_surrounding_space _ _ _ H1 H2).
Defined.

Lemma content_lines_nonblank text :
  trim text ≠ [] →
  ∃ header rest,
    dropWhile isEmpty (trim <$> splitLines text) = header :: rest
    ∧ header ≠ []
    ∧ parseCsv text = omap parseLine rest.
Proof.
  intros Hne. destruct (content_lines text Hne) as (header & rest & E & Hp).
  exists header, rest. split_and!; [done | | done].
  intros ->. by apply (dropWhile_head isEmpty) in E.
Qed.

(** X26. A blank line between two rows is skipped: for a text that holds a
    header, a second line feed put where a line ends changes nothing to the
    records. *)
Theorem parseCsv_blank_line (text rest : jsstring) :
  trim text ≠ [] →
  parseCsv (text ++ LF :: LF :: rest) = parseCsv (text ++ LF :: rest).
Proof.
  intros Hne.
  assert (Hne1 : trim (text ++ LF :: LF :: rest) ≠ []).
  { rewrite trim_nil_iff, Forall_app. intros [Hw _]. by apply Hne, trim_nil_iff. }
  assert (Hne2 : trim (text ++ LF :: rest) ≠ []).
  { rewrite trim_nil_iff, Forall_app. intros [Hw _]. by apply Hne, trim_nil_iff. }
  destruct (content_lines_nonblank text Hne) as (h & r & Ed & Hh & _).
  destruct (content_lines _ Hne1) as (h1 & r1 & Ed1 & ->).
  destruct (content_lines _ Hne2) as (h2 & r2 & Ed2 & ->).
  destruct (splitLines_app_LF text (LF :: rest)) as (init & last & last' & E & E1 & HR).
  destruct (splitLines_app_LF text rest) as (init2 & last2 & last2' & E' & E2 & HR2).
  rewrite E in E'. apply app_inj_tail in E' as [<- <-].
  rewrite splitLines_cons_LF in E1.
  assert (Hl1 : trim <$> splitLines (text ++ LF :: LF :: rest)
                = (trim <$> splitLines text) ++ [] :: (trim <$> splitLines rest)).
  { rewrite E, E1, !fmap_app, !fmap_cons, !fmap_nil.
    rewrite (sameLine_trim _ _ HR). by rewrite <- app_assoc. }
  assert (Hl2 : trim <$> splitLines (text ++ LF :: rest)
                = (trim <$> splitLines text) ++ (trim <$> splitLines rest)).
  { rewrite E, E2, !fmap_app, !fmap_cons, !fmap_nil.
    rewrite (sameLine_trim _ _ HR2). by rewrite <- app_assoc. }
  rewrite Hl1, (dropWhile_app_cons _ _ _ _ _ Ed) in Ed1.
  rewrite Hl2, (dropWhile_app_cons _ _ _ _ _ Ed) in Ed2.
  injection Ed1 as _ <-. injection Ed2 as _ <-.
  rewrite !omap_app. f_equal.
Qed.

Lemma parseCsv_blank_line_witness :
  trim (str "PlayerID,Score,Game" ++ LF :: str "A,1,x") ≠ []
  ∧ parseCsv ((str "PlayerID,Score,Game" ++ LF :: str "A,1,x") ++ LF :: LF :: str "B,2,y")
    = parseCsv ((str "PlayerID,Score,Game" ++ LF :: str "A,1,x") ++ LF :: str "B,2,y").
Proof.
  assert (H1 : trim (str "PlayerID,Score,Game" ++ LF :: str "A,1,x") ≠ [])
    by (vm_compute; congruence).
  split; [exact H1 |].
  exact (parseCsv_blank_line _ _ H1).
Defined.

(* ------------------------------------------------------------------ *)
(** ** Two submissions at once *)
(* ------------------------------------------------------------------ *)

Section Overlap.
Variable digest : list N → option (list Byte.byte).

Lemma submitFinish_opens pw d :
  digest (encode pw) = Some expectedDigest →
  submitFinish (hashStringSHA256 digest pw) d
  = {| pageClasses := classList_add (pageClasses d) (str "schedule-unlocked");
       messageText := str "Welcome to the Pantheon schedule.";
       messageClasses := classList_add (messageClasses d) (str "schedule-message--success");
       passwordValue := [] |}.
Proof.
  intros Hd. unfold hashStringSHA256. rewrite Hd. cbn [mbind option_bind].
  fold byteHex. unfold submitFinish. by rewrite unlock_test, bool_decide_eq_true_2.
Qed.

Lemma submitFinish_refuses pw h d :
  digest (encode pw) = Some h → h ≠ expectedDigest →
  submitFinish (hashStringSHA256 digest pw) d
  = {| pageClasses := pageClasses d;
       messageText := str "That key does not match our records.";
       messageClasses := classList_add (messageClasses d) (str "schedule-message--error");
       passwordValue := passwordValue d |}.
Proof.
  intros Hd Hne. unfold hashStringSHA256. rewrite Hd. cbn [mbind option_bind].
  fold byteHex. unfold submitFinish. by rewrite unlock_test, bool_decide_eq_false_2.
Qed.

(** X27. Two submissions at once. When a wrong passphrase is submitted, then
    the right one before the first hash has settled, and the hash of the
    right one settles first: the page is unlocked, yet the message that
    stays is the one of the wrong passphrase, that the key does not match,
    and it carries both the class of success and the class of error. *)
Theorem overlapping_submissions (d : ScheduleDom) (wrong right : jsstring)
    (h : list Byte.byte) :
  trim wrong ≠ [] → trim right ≠ [] →
  digest (encode (trim wrong)) = Some h → h ≠ expectedDigest →
  digest (encode (trim right)) = Some expectedDigest →
  unlocked (dom (scheduleRun digest (mkSession d [])
                   [Typed wrong; Submitted; Typed right; Submitted;
                    HashSettled 1; HashSettled 0]))
  ∧ messageText (dom (scheduleRun digest (mkSession d [])
                        [Typed wrong; Submitted; Typed right; Submitted;
                         HashSettled 1; HashSettled 0]))
    = str "That key does not match our records."
  ∧ str "schedule-message--success"
    ∈ messageClasses (dom (scheduleRun digest (mkSession d [])
                             [Typed wrong; Submitted; Typed right; Submitted;
                              HashSettled 1; HashSettled 0]))
  ∧ str "schedule-message--error"
    ∈ messageClasses (dom (scheduleRun digest (mkSession d [])
                             [Typed wrong; Submitted; Typed right; Submitted;
                              HashSettled 1; HashSettled 0]))
  ∧ pending (scheduleRun digest (mkSession d [])
               [Typed wrong; Submitted; Typed right; Submitted;
                HashSettled 1; HashSettled 0])
    = [].
Proof.
  intros Hw Hr Hdw Hne Hdr.
  unfold scheduleRun. cbn [fold_left].
  assert (Hstart : ∀ d' v, trim v ≠ [] → passwordValue d' = v →
            submitStart d'
            = ({| pageClasses := pageClasses d';
                  messageText := [];
                  messageClasses :=
                    classList_remove
                      (classList_remove (messageClasses d') (str "schedule-message--error"))
                      (str "schedule-message--success");
                  passwordValue := v |}, Some (trim v))).
  { intros d' v Hv <-. unfold submitStart. by destruct (trim (passwordValue d')). }
  cbn [scheduleStep dom pending pageClasses messageText messageClasses passwordValue].
  rewrite (Hstart (mkScheduleDom (pageClasses d) (messageText d) (messageClasses d) wrong)
             wrong) by done.
  cbn [scheduleStep dom pending pageClasses messageText messageClasses passwordValue
       app option_list option_rect].
  rewrite (Hstart _ right) by done.
  cbn [scheduleStep dom pending pageClasses messageText messageClasses passwordValue
       app option_list option_rect lookup list_lookup delete list_delete].
  rewrite (submitFinish_opens (trim right)) by done.
  rewrite (submitFinish_refuses (trim wrong) h) by done.
  cbn [dom pending pageClasses messageText messageClasses passwordValue]. unfold unlocked.
  cbn [pageClasses].
  split_and!; [| done | | | done].
  - rewrite elem_of_classList_add. by right.
  - rewrite !elem_of_classList_add. left. by right.
  - rewrite !elem_of_classList_add. by right.
Qed.

End Overlap.

Lemma overlapping_submissions_witness :
  trim (str "shrimp") ≠ [] ∧ trim (str " open sesame ") ≠ []
  ∧ oneKeyDigest (str "open sesame") (encode (trim (str "shrimp")))
    = Some (replicate 32 Byte.x00)
  ∧ replicate 32 Byte.x00 ≠ expectedDigest
  ∧ oneKeyDigest (str "open sesame") (encode (trim (str " open sesame ")))
    = Some expectedDigest
  ∧ unlocked (dom (scheduleRun (oneKeyDigest (str "open sesame"))
                     (mkSession (mkScheduleDom [] [] [] []) [])
                     [Typed (str "shrimp"); Submitted; Typed (str " open sesame ");
                      Submitted; HashSettled 1; HashSettled 0]))
  ∧ messageText (dom (scheduleRun (oneKeyDigest (str "open sesame"))
                        (mkSession (mkScheduleDom [] [] [] []) [])
                        [Typed (str "shrimp"); Submitted; Typed (str " open sesame ");
                         Submitted; HashSettled 1; HashSettled 0]))
    = str "That key does not match our records.".
Proof.
  assert (H1 : trim (str "shrimp") ≠ []) by (vm_compute; congruence).
  assert (H2 : trim (str " open sesame ") ≠ []) by (vm_compute; congruence).
  assert (H3 : oneKeyDigest (str "open sesame") (encode (trim (str "shrimp")))
               = Some (replicate 32 Byte.x00)) by (vm_compute; reflexivity).
  assert (H4 : replicate 32 Byte.x00 ≠ expectedDigest) by (vm_compute; congruence).
  assert (H5 : oneKeyDigest (str "open sesame") (encode (trim (str " open sesame ")))
               = Some expectedDigest) by (vm_compute; reflexivity).
  split; [exact H1 |]. split; [exact H2 |]. split; [exact H3 |]. split; [exact H4 |].
  split; [exact H5 |].
  pose proof (overlapping_submissions (oneKeyDigest (str "open sesame"))
                (mkScheduleDom [] [] [] []) (str "shrimp") (str " open sesame ")
                (replicate 32 Byte.x00) H1 H2 H3 H4 H5) as (Hu & Hm & _).
  split; [exact Hu | exact Hm].
Defined.
